(** * Forward filtering, backward sampling (hmm.py)

    A shallow embedding of [hmm.py]: the log-space utilities
    ([lognormalize], [normalize]), the categorical sampler ([sample],
    [smart_sampling]), the two closures returned by [build_hmm]
    ([hmm_forward], [hmm_backward]) and the fixed-bias transition
    matrix generator ([generate_0d_T_mat]); then the parameter object
    [HMMParams], [build_hmm] itself, the Gaussian generators
    ([gaussian_1d], [gaussian_2d], their filters, [generate_1d_T_mat],
    [generate_2d_T_mat]) and the dispatcher [generate_T_mat].

    Numbers.  The program computes on numpy float64 arrays.  They are
    embedded as exact real numbers extended with the three special values
    that the program's own operations create from finite data: [log 0] is
    minus infinity, a division by zero is an infinity or not-a-number, and
    so on.  Rounding, overflow and underflow are not modelled: every finite
    operation is the exact one.  The one place where the underflow of
    [numpy.exp] is looked at, the filter is run over [xexp64], the
    exponential that returns zero below the binary64 range.

    Arrays.  A vector is a list, a matrix a list of rows.  The embedding
    covers the shapes of the data model (S-vectors and S-by-S matrices);
    elementwise operations on two vectors pair their entries in index
    order.

    Control.  A Python call either returns a value or raises an exception;
    the process-wide random generator [numpy.random] is a stream of
    uniform draws threaded through the calls that consume it. *)

From Stdlib Require Import Reals List Lia Lra ZArith Bool.
Import ListNotations.

Local Open Scope R_scope.

(** ** Outcome of a Python call *)

Module Py.

(** The built-in exceptions the embedded code can raise, and
    [EmptySequenceError], the error the specification names for a time axis
    without rows: [hmm.py] neither defines nor raises it. *)
Inductive exn : Type :=
| IndexError
| ValueError
| ZeroDivisionError
| EmptySequenceError.

Inductive result (A : Type) : Type :=
| Ret (a : A)
| Raise (e : exn).

Arguments Ret {A} a.
Arguments Raise {A} e.

Definition bind {A B : Type} (m : result A) (k : A -> result B) : result B :=
  match m with
  | Ret a => k a
  | Raise e => Raise e
  end.

(** [xs[i]] on a Python sequence with a non-negative index. *)
Definition getitem {A : Type} (xs : list A) (i : nat) : result A :=
  match nth_error xs i with
  | Some x => Ret x
  | None => Raise IndexError
  end.

End Py.

Import Py.

Notation "x <- m ;; k" := (Py.bind m (fun x => k))
  (at level 61, m at next level, right associativity).

(** ** Extended real numbers: the values of a float64 cell *)

Inductive xreal : Type :=
| Fin (x : R)
| NegInf
| PosInf
| NaN.

Definition is_fin (a : xreal) : Prop :=
  match a with Fin _ => True | _ => False end.

Definition xopp (a : xreal) : xreal :=
  match a with
  | Fin x => Fin (- x)
  | NegInf => PosInf
  | PosInf => NegInf
  | NaN => NaN
  end.

Definition xadd (a b : xreal) : xreal :=
  match a, b with
  | NaN, _ | _, NaN => NaN
  | Fin x, Fin y => Fin (x + y)
  | PosInf, NegInf | NegInf, PosInf => NaN
  | PosInf, _ | _, PosInf => PosInf
  | NegInf, _ | _, NegInf => NegInf
  end.

Definition xsub (a b : xreal) : xreal := xadd a (xopp b).

(** An infinity scaled by the sign of a finite factor. *)
Definition xscale (x : R) (inf : xreal) : xreal :=
  if Rlt_dec 0 x then inf
  else if Rlt_dec x 0 then xopp inf
  else NaN.

Definition xmul (a b : xreal) : xreal :=
  match a, b with
  | NaN, _ | _, NaN => NaN
  | Fin x, Fin y => Fin (x * y)
  | Fin x, inf | inf, Fin x => xscale x inf
  | PosInf, PosInf | NegInf, NegInf => PosInf
  | PosInf, NegInf | NegInf, PosInf => NegInf
  end.

(** numpy's true division of float64 cells: a finite value over zero is an
    infinity of the sign of the numerator, zero over zero is not a number. *)
Definition xdiv (a b : xreal) : xreal :=
  match a, b with
  | NaN, _ | _, NaN => NaN
  | Fin x, Fin y =>
      if Req_dec_T y 0 then xscale x PosInf else Fin (x / y)
  | Fin _, _ => Fin 0
  | inf, Fin y => if Rlt_dec y 0 then xopp inf else inf
  | _, _ => NaN
  end.

Definition xexp (a : xreal) : xreal :=
  match a with
  | Fin x => Fin (exp x)
  | NegInf => Fin 0
  | PosInf => PosInf
  | NaN => NaN
  end.

(** [numpy.log]: minus infinity at zero, not a number below it. *)
Definition xlog (a : xreal) : xreal :=
  match a with
  | Fin x =>
      if Rlt_dec 0 x then Fin (ln x)
      else if Req_dec_T x 0 then NegInf
      else NaN
  | PosInf => PosInf
  | NegInf | NaN => NaN
  end.

Definition is_integer (y : R) : bool :=
  if Req_dec_T (frac_part y) 0 then true else false.

Definition is_odd_integer (y : R) : bool :=
  is_integer y && Z.odd (Int_part y).

(** [a ** y] for a float64 cell [a] and a finite exponent [y] (C's [pow]):
    anything to the power zero is one, zero to a positive power is zero
    and to a negative power is infinite. *)
Definition xpow (a : xreal) (y : R) : xreal :=
  if Req_dec_T y 0 then Fin 1
  else
    match a with
    | NaN => NaN
    | PosInf => if Rlt_dec 0 y then PosInf else Fin 0
    | NegInf =>
        if Rlt_dec 0 y
        then (if is_odd_integer y then NegInf else PosInf)
        else Fin 0
    | Fin x =>
        if Rlt_dec 0 x then Fin (Rpower x y)
        else if Req_dec_T x 0 then (if Rlt_dec 0 y then Fin 0 else PosInf)
        else if is_odd_integer y then Fin (- Rpower (- x) y)
        else if is_integer y then Fin (Rpower (- x) y)
        else NaN
    end.

(** [a <= b] on float64 cells; every comparison with not-a-number is false. *)
Definition xleb (a b : xreal) : bool :=
  match a, b with
  | NaN, _ | _, NaN => false
  | Fin x, Fin y => if Rle_dec x y then true else false
  | NegInf, _ | _, PosInf => true
  | _, _ => false
  end.

(** [numpy.maximum] of two cells; not-a-number propagates. *)
Definition xmax (a b : xreal) : xreal :=
  match a, b with
  | NaN, _ | _, NaN => NaN
  | _, _ => if xleb a b then b else a
  end.

(** [numpy.logaddexp]: [log (exp a + exp b)]. *)
Definition logaddexp (a b : xreal) : xreal :=
  match a, b with
  | NaN, _ | _, NaN => NaN
  | Fin x, Fin y => Fin (ln (exp x + exp y))
  | PosInf, _ | _, PosInf => PosInf
  | NegInf, c | c, NegInf => c
  end.

(** ** Vectors and matrices *)

Definition vec : Type := list xreal.
Definition matrix : Type := list vec.

Fixpoint zip_with {A B C : Type} (f : A -> B -> C) (xs : list A) (ys : list B)
  : list C :=
  match xs, ys with
  | x :: xs', y :: ys' => f x y :: zip_with f xs' ys'
  | _, _ => []
  end.

Definition vadd (u v : vec) : vec := zip_with xadd u v.
Definition vexp (v : vec) : vec := map xexp v.
Definition vlog (v : vec) : vec := map xlog v.
Definition vpow (v : vec) (y : R) : vec := map (fun a => xpow a y) v.
Definition mpow (M : matrix) (y : R) : matrix := map (fun row => vpow row y) M.

(** [numpy.sum] of a vector. *)
Definition xsum (v : vec) : xreal := fold_right xadd (Fin 0) v.

(** [numpy.dot] of a matrix and a vector: one inner product per row. *)
Definition dot_row (row v : vec) : xreal := xsum (zip_with xmul row v).
Definition dot (M : matrix) (v : vec) : vec := map (fun row => dot_row row v) M.

(** [numpy.logaddexp.reduce]: a left fold from the first entry; the
    identity of [logaddexp] on the empty vector. *)
Definition logaddexp_reduce (x : vec) : xreal :=
  match x with
  | [] => NegInf
  | a :: x' => fold_left logaddexp x' a
  end.

(** ** hmm.py, lines 104-109 *)

Definition lognormalize (x : vec) : vec :=
  let a := logaddexp_reduce x in
  map (fun xi => xsub xi a) x.

Definition normalize (A : vec) : vec :=
  let s := xsum A in
  map (fun a => xdiv a s) A.

(** ** hmm.py, lines 84-89: [sample]

    The loop carries [rolling] and the index [i]; falling off the end of
    the loop is Python's implicit [return None]. *)

Fixpoint sample_loop (v : vec) (r : xreal) (rolling : xreal) (i : nat)
  : option nat :=
  match v with
  | [] => None
  | vi :: v' =>
      let rolling := xadd rolling vi in
      if xleb r rolling then Some i
      else sample_loop v' r rolling (S i)
  end.

Definition sample (v : vec) (r : xreal) : result (option nat) :=
  Ret (sample_loop v r (Fin 0) 0).

(** ** hmm.py, lines 93-99: [smart_sampling]

    [numpy.random.rand] reads the process-wide generator.  The generator
    is the stream [draws] of uniform values together with the position
    [pos] of the next unread one; [rand] returns [length] values and the
    advanced position. *)

Definition rand (draws : nat -> R) (length pos : nat) : vec * nat :=
  (map (fun i => Fin (draws (pos + i)%nat)) (seq 0 length), (pos + length)%nat).

Fixpoint mapM {A B : Type} (f : A -> result B) (xs : list A) : result (list B) :=
  match xs with
  | [] => Ret []
  | x :: xs' =>
      y <- f x ;;
      ys <- mapM f xs' ;;
      Ret (y :: ys)
  end.

(** [numpy.max] along a row; a row without entries has no maximum and
    numpy raises [ValueError]. *)
Definition row_max (row : vec) : result xreal :=
  match row with
  | [] => Raise ValueError
  | a :: row' => Ret (fold_left xmax row' a)
  end.

(** Line 96 on one row: [exp (row - max row)]. *)
Definition stabilized (row : vec) : result vec :=
  m <- row_max row ;;
  Ret (map (fun a => xexp (xsub a m)) row).

(** The divisor of line 97 on one row: [sum (exp (row - max row))]. *)
Definition divisor (row : vec) : result xreal :=
  B <- stabilized row ;;
  Ret (xsum B).

(** Lines 96-97 on one row. *)
Definition softmax_row (row : vec) : result vec :=
  B <- stabilized row ;;
  Ret (map (fun b => xdiv b (xsum B)) B).

Definition smart_sampling (A : matrix) (draws : nat -> R) (pos : nat)
  : result (list (option nat) * nat) :=
  let length := List.length A in
  B <- mapM softmax_row A ;;
  let (flips, pos') := rand draws length pos in
  out <- mapM (fun br => sample (fst br) (snd br)) (combine B flips) ;;
  Ret (out, pos').

(** ** hmm.py, lines 27-80: [build_hmm]

    The two closures read the argument [T] of [build_hmm]. A state is a
    non-negative index; the tempering list is its two entries. *)

Section build_hmm.

Variable T : matrix.

(** Lines 47-52: the loop over [likelihoods[1:]]. *)
Fixpoint forward_loop (rest_of_likelihoods : list vec) (lastp : vec)
         (forward : list vec) : list vec :=
  match rest_of_likelihoods with
  | [] => forward
  | p1 :: rest =>
      let p2 := vlog (dot T (vexp lastp)) in
      let value := lognormalize (vadd p1 p2) in
      forward_loop rest value (forward ++ [value])
  end.

Definition hmm_forward (likelihoods : list vec) (prior : vec)
           (tempering : R * R) : result (list vec) :=
  let (alpha, beta) := tempering in
  p1 <- getitem likelihoods 0 ;;
  let p2 := vlog (dot (mpow T beta) (vpow (vexp prior) alpha)) in
  let forward := [lognormalize (vadd p1 p2)] in
  lastp <- getitem forward 0 ;;
  Ret (forward_loop (skipn 1 likelihoods) lastp forward).

(** Lines 69-75: the loop over [times[1:]]. *)
Fixpoint backward_loop (curP : list nat) (reverse : list vec)
         (rstates : list nat) (draws : nat -> R) (pos : nat)
         (resample : list (option nat)) (backward : list vec)
  : result (list (option nat) * list vec * nat) :=
  match curP with
  | [] => Ret (resample, backward, pos)
  | curT :: curP' =>
      s <- getitem rstates curT ;;
      row <- getitem T s ;;
      let p1 := vlog row in
      p2 <- getitem reverse curT ;;
      let value := lognormalize (vadd p1 p2) in
      sp <- smart_sampling [value] draws pos ;;
      s0 <- getitem (fst sp) 0 ;;
      backward_loop curP' reverse rstates draws (snd sp)
                    (resample ++ [s0]) (backward ++ [value])
  end.

(** Returns the sampled trajectory, the smoothing distributions and the
    position reached in the stream of draws. *)
Definition hmm_backward (forward : list vec) (states : list nat)
           (draws : nat -> R) (pos : nat)
  : result (list (option nat) * list vec * nat) :=
  let reverse := rev forward in
  let rstates := rev states in
  let times := seq 0 (List.length forward) in
  t0 <- getitem times 0 ;;
  first <- getitem reverse t0 ;;
  sp <- smart_sampling [first] draws pos ;;
  s0 <- getitem (fst sp) 0 ;;
  out <- backward_loop (skipn 1 times) reverse rstates draws (snd sp)
                       [s0] [first] ;;
  let '(resample, backward, pos') := out in
  Ret (rev resample, rev backward, pos').

End build_hmm.

(** ** [numpy.exp] on binary64, and the filter over it

    Below [-746] the exact exponential is smaller than half the least
    positive binary64 number, and [numpy.exp] returns [0.0]: [xexp64] is
    [xexp] with this underflow and nothing else of the rounding.
    [hmm_forward_with] is [hmm_forward] (lines 33-53) with the exponential
    of lines 42 and 49 as a parameter; at [xexp] it is [hmm_forward]. *)

Definition xexp64 (a : xreal) : xreal :=
  match a with
  | Fin x => if Rlt_dec x (-746) then Fin 0 else Fin (exp x)
  | NegInf => Fin 0
  | PosInf => PosInf
  | NaN => NaN
  end.

Section forward_with.

Variable np_exp : xreal -> xreal.
Variable T : matrix.

Fixpoint forward_loop_with (rest_of_likelihoods : list vec) (lastp : vec)
         (forward : list vec) : list vec :=
  match rest_of_likelihoods with
  | [] => forward
  | p1 :: rest =>
      let p2 := vlog (dot T (map np_exp lastp)) in
      let value := lognormalize (vadd p1 p2) in
      forward_loop_with rest value (forward ++ [value])
  end.

Definition hmm_forward_with (likelihoods : list vec) (prior : vec)
           (tempering : R * R) : result (list vec) :=
  let (alpha, beta) := tempering in
  p1 <- getitem likelihoods 0 ;;
  let p2 := vlog (dot (mpow T beta) (vpow (map np_exp prior) alpha)) in
  let forward := [lognormalize (vadd p1 p2)] in
  lastp <- getitem forward 0 ;;
  Ret (forward_loop_with (skipn 1 likelihoods) lastp forward).

End forward_with.

(** ** hmm.py, lines 169-175: [generate_0d_T_mat]

    [n] is a Python integer and [bias] a Python number: a float (as its
    default 0.80 is) or an integer. The module is Python 2 (it calls
    [xrange] and does not import [division] from [__future__]), so
    [(1 - bias) / (n - 1)] is the true division when [bias] is a float and
    the floor division of two integers, which is [Z.div], when [bias] is an
    integer; both raise [ZeroDivisionError] on the divisor zero.
    [numpy.zeros] refuses negative dimensions. Storing a number in the
    float64 array [T] converts it to a float. *)

Inductive pynum : Type :=
| PyInt (z : Z)
| PyFloat (x : R).

(** The float a number converts to when it is stored in a float64 cell. *)
Definition to_float (a : pynum) : R :=
  match a with
  | PyInt z => IZR z
  | PyFloat x => x
  end.

(** Line 171: [fill = (1 - bias) / (n - 1)]. *)
Definition fill_value (n : Z) (bias : pynum) : result pynum :=
  if (n - 1 =? 0)%Z then Raise ZeroDivisionError
  else
    match bias with
    | PyInt b => Ret (PyInt ((1 - b) / (n - 1)))
    | PyFloat x => Ret (PyFloat ((1 - x) / IZR (n - 1)))
    end.

Fixpoint setitem {A : Type} (xs : list A) (i : nat) (x : A) : list A :=
  match xs, i with
  | [], _ => []
  | _ :: xs', O => x :: xs'
  | y :: xs', S i' => y :: setitem xs' i' x
  end.

Definition zeros (n : nat) : matrix := repeat (repeat (Fin 0) n) n.

(** [M.T] for a matrix of [n] columns. *)
Definition transpose (n : nat) (M : matrix) : matrix :=
  map (fun j => map (fun row => nth j row (Fin 0)) M) (seq 0 n).

(** Lines 173-174: the body of the loop over the rows. *)
Definition fill_row (N : nat) (fill bias : R) (T : matrix) (i : nat) : matrix :=
  let T := setitem T i (repeat (Fin fill) N) in
  setitem T i (setitem (nth i T []) i (Fin bias)).

Definition generate_0d_T_mat (n : Z) (bias : pynum) : result matrix :=
  if (n <? 0)%Z then Raise ValueError
  else
    let N := Z.to_nat n in
    let T := zeros N in
    fill <- fill_value n bias ;;
    let T := fold_left (fill_row N (to_float fill) (to_float bias))
                       (seq 0 N) T in
    Ret (transpose N T).

(** ** hmm.py, lines 10-30: [HMMParams] and the body of [build_hmm]

    [num_states] is a Python integer. [set_T_matrix] builds an S-by-S array
    of zeros ([numpy.zeros] refuses a negative size) and copies
    [matrix[i][j]] into it cell by cell; reading a cell the argument does
    not have raises [IndexError]. *)

Fixpoint foldM {A B : Type} (f : B -> A -> result B) (xs : list A) (b : B)
  : result B :=
  match xs with
  | [] => Ret b
  | x :: xs' =>
      b' <- f b x ;;
      foldM f xs' b'
  end.

(** Line 24: [T[i][j] = matrix[i][j]]. *)
Definition copy_cell (mtx : matrix) (i : nat) (T : matrix) (j : nat)
  : result matrix :=
  row <- getitem mtx i ;;
  v <- getitem row j ;;
  Ret (setitem T i (setitem (nth i T []) j v)).

Module HMMParams.

Record t : Type := { num_states : Z; T : matrix }.

Definition init : t := {| num_states := 0; T := [] |}.

Definition set_num_states (self : t) (num : Z) : t :=
  {| num_states := num; T := T self |}.

Definition set_T_matrix (self : t) (mtx : matrix) : result t :=
  let S := num_states self in
  if (S <? 0)%Z then Raise ValueError
  else
    let N := Z.to_nat S in
    T <- foldM (fun T i => foldM (copy_cell mtx i) (seq 0 N) T)
               (seq 0 N) (zeros N) ;;
    Ret {| num_states := S; T := T |}.

End HMMParams.

(** The two closures [build_hmm] returns. *)
Definition hmm_closures : Type :=
  (list vec -> vec -> R * R -> result (list vec)) *
  (list vec -> list nat -> (nat -> R) -> nat
   -> result (list (option nat) * list vec * nat)).

Definition build_hmm (S : Z) (T : matrix) : result hmm_closures :=
  let params := HMMParams.init in
  let params := HMMParams.set_num_states params S in
  params <- HMMParams.set_T_matrix params T ;;
  Ret (hmm_forward T, hmm_backward T).

(** ** hmm.py, lines 111-163: the Gaussian transition matrices

    In Python 2 [/] between two integers is floor division, which is
    [Z.div]. The generators call the densities with
    integer means, integer coordinates and the integer [sigma = 1]; the
    densities are embedded on integers. [1 / float(0.0)] is a division of
    Python floats and raises [ZeroDivisionError]. *)

(** The position an integer index reaches in an array of [len] entries:
    a negative index counts from the end. *)
Definition py_index (len : nat) (i : Z) : result nat :=
  if ((0 <=? i) && (i <? Z.of_nat len))%Z then Ret (Z.to_nat i)
  else if ((i <? 0) && (- Z.of_nat len <=? i))%Z
       then Ret (Z.to_nat (i + Z.of_nat len))
       else Raise IndexError.

(** [range(a, b)]. *)
Definition py_range (a b : Z) : list Z :=
  map (fun k => (a + Z.of_nat k)%Z) (seq 0 (Z.to_nat (b - a))).

Definition gaussian_2d (muX muY sigma x y : Z) : result xreal :=
  if (sigma =? 0)%Z then Raise ZeroDivisionError
  else
    Ret (Fin (1 / (2 * PI * IZR (sigma ^ 2))
              * exp (IZR ((- ((x - muX) ^ 2 + (y - muY) ^ 2)) / 2
                          * sigma ^ 2)))).

(** Line 121: [F[i][j] = gaussian_2d(muX, muY, sigma, i, j)]. *)
Definition gaussian_2d_cell (muX muY sigma : Z) (i : Z) (F : matrix) (j : Z)
  : result matrix :=
  v <- gaussian_2d muX muY sigma i j ;;
  ki <- py_index (length F) i ;;
  let row := nth ki F [] in
  kj <- py_index (length row) j ;;
  Ret (setitem F ki (setitem row kj v)).

Definition gaussian_2d_filter (muX muY minX minY maxX maxY sigma : Z)
  : result matrix :=
  if ((maxX - minX <? 0) || (maxY - minY <? 0))%Z then Raise ValueError
  else
    let F := repeat (repeat (Fin 0) (Z.to_nat (maxY - minY)))
                    (Z.to_nat (maxX - minX)) in
    foldM (fun F i => foldM (gaussian_2d_cell muX muY sigma i)
                            (py_range minY maxY) F)
          (py_range minX maxX) F.

(** Elementwise sum of two matrices of the same shape. *)
Definition madd (A B : matrix) : matrix := zip_with vadd A B.

(** Line 131 (and 150): [T[i] = normalize(T[i])]. *)
Definition normalize_row (T : matrix) (i : nat) : matrix :=
  setitem T i (normalize (nth i T [])).

Definition generate_2d_T_mat (n : Z) : result matrix :=
  if (n <? 0)%Z then Raise ValueError
  else
    let N := Z.to_nat n in
    let T := zeros N in
    T <- foldM (fun T i =>
                  layer <- gaussian_2d_filter (Z.of_nat i) (Z.of_nat i)
                                              0 0 n n 1 ;;
                  Ret (madd T layer))
               (seq 0 N) T ;;
    let T := fold_left normalize_row (seq 0 N) T in
    Ret (transpose N T).

Definition gaussian_1d (muX sigma x : Z) : result xreal :=
  if (sigma =? 0)%Z then Raise ZeroDivisionError
  else
    Ret (Fin (1 / (sqrt (2 * PI) * IZR sigma)
              * exp (IZR ((- (x - muX) ^ 2) / (2 * sigma ^ 2))))).

(** Line 143: [F[i] = gaussian_1d(muX, sigma, i)]. *)
Definition gaussian_1d_cell (muX sigma : Z) (F : vec) (i : Z) : result vec :=
  v <- gaussian_1d muX sigma i ;;
  k <- py_index (length F) i ;;
  Ret (setitem F k v).

Definition gaussian_1d_filter (muX minX maxX sigma : Z) : result vec :=
  if (maxX - minX <? 0)%Z then Raise ValueError
  else
    let F := repeat (Fin 0) (Z.to_nat (maxX - minX)) in
    foldM (gaussian_1d_cell muX sigma) (py_range minX maxX) F.

Definition generate_1d_T_mat (n : Z) : result matrix :=
  if (n <? 0)%Z then Raise ValueError
  else
    let N := Z.to_nat n in
    let T := zeros N in
    T <- foldM (fun T i =>
                  F <- gaussian_1d_filter (Z.of_nat i) 0 n 1 ;;
                  let T := setitem T i F in
                  Ret (normalize_row T i))
               (seq 0 N) T ;;
    Ret (transpose N T).

(** [args] is the tuple of the extra positional arguments. *)
Definition generate_T_mat (n dim : Z) (args : list pynum) : result matrix :=
  let dim := if (dim >? 2)%Z then 2%Z else dim in
  if (dim =? 0)%Z then
    bias <- getitem args 0 ;;
    generate_0d_T_mat n bias
  else if (dim =? 1)%Z then generate_1d_T_mat n
  else generate_2d_T_mat n.

(** * Vocabulary of the properties *)

(** The value of [rolling] after the first [k] entries of [v]. *)
Definition rolling_sum (v : vec) (k : nat) : xreal :=
  fold_left xadd (firstn k v) (Fin 0).

(** The walk over [v] never reaches the draw [r]. *)
Definition never_reaches (v : vec) (r : xreal) : Prop :=
  forall i, (i < length v)%nat -> xleb r (rolling_sum v (S i)) = false.

(** The sum of a list of reals. *)
Definition sumR (ps : list R) : R := fold_right Rplus 0 ps.

(** A row whose entries sum to less than 1. *)
Definition short_row : vec := [Fin (1 / 4); Fin (1 / 4)].

(** One untempered step of the filter. *)
Definition forward_step (T : matrix) (p1 lastp : vec) : vec :=
  lognormalize (vadd p1 (vlog (dot T (vexp lastp)))).

(** A vector of [S] finite entries. *)
Definition finite_vec (S : nat) (v : vec) : Prop :=
  exists xs, v = map Fin xs /\ length xs = S.

(** A vector of [S] finite, positive entries. *)
Definition positive_vec (S : nat) (v : vec) : Prop :=
  exists ys, v = map Fin ys /\ length ys = S /\ Forall (fun y => 0 < y) ys.

(** A vector of [S] finite log-probabilities whose exponentials sum to 1. *)
Definition normalized (S : nat) (v : vec) : Prop :=
  exists zs, v = map Fin zs /\ length zs = S /\ sumR (map exp zs) = 1.

(** A row of transition weights: finite, none negative, one positive. *)
Definition transition_row (S : nat) (row : vec) : Prop :=
  exists ts, row = map Fin ts /\ length ts = S /\
             Forall (fun t => 0 <= t) ts /\ Exists (fun t => 0 < t) ts.

(** An S-by-S matrix of non-degenerate transition weights. *)
Definition nondegenerate (S : nat) (M : matrix) : Prop :=
  length M = S /\ Forall (transition_row S) M.


(** The row written at reversed time [c >= 1]. *)
Definition backward_value (T : matrix) (reverse : list vec)
           (rstates : list nat) (c : nat) : vec :=
  lognormalize (vadd (vlog (nth (nth c rstates 0%nat) T [])) (nth c reverse [])).

(** The index [smart_sampling] returns for one row and one draw. *)
Definition draw_from (row : vec) (r : R) : option nat :=
  match softmax_row row with
  | Ret b => sample_loop b (Fin r) (Fin 0) 0
  | Raise _ => None
  end.

(** A column-stochastic matrix with bias 3/4 on the diagonal. *)
Definition T_bias : matrix :=
  [[Fin (3 / 4); Fin (1 / 4)]; [Fin (1 / 4); Fin (3 / 4)]].

(** The uniform log-distribution over two states. *)
Definition uniform2 : vec := [Fin (ln (1 / 2)); Fin (ln (1 / 2))].

(** The 2-by-2 identity matrix. *)
Definition I2 : matrix := [[Fin 1; Fin 0]; [Fin 0; Fin 1]].



(** Column [j] of a matrix. *)
Definition column (j : nat) (M : matrix) : vec :=
  map (fun row => nth j row (Fin 0)) M.

(** Row [i] as the loop of [generate_0d_T_mat] leaves it. *)
Definition bias_row (N : nat) (fill bias : R) (i : nat) : vec :=
  setitem (repeat (Fin fill) N) i (Fin bias).

(** The probability row lines 96-97 of [smart_sampling] compute from a
    row of log-weights. *)
Definition softmax_values (row : vec) : vec :=
  match softmax_row row with
  | Ret b => b
  | Raise _ => []
  end.

(** Likelihood rows with the constant [c_t] added to every entry of row
    [t]. *)
Definition shift_rows (cs : list R) (ls : list vec) : list vec :=
  zip_with (fun c l => map (fun a => xadd a (Fin c)) l) cs ls.

(** The argument of [build_hmm] holds the [N] by [N] cells that
    [set_T_matrix] copies. *)
Definition covers (N : nat) (mtx : matrix) : Prop :=
  (N <= length mtx)%nat /\
  forall i, (i < N)%nat -> (N <= length (nth i mtx []))%nat.

(** The entries [k, k + n) of [mrow] written over those of [r]. *)
Definition copy_into (mrow r : vec) (k n : nat) : vec :=
  fold_left (fun r j => setitem r j (nth j mrow (Fin 0))) (seq k n) r.

(** The value of [gaussian_1d] for [sigma = 1]. *)
Definition density_1d (muX x : Z) : R :=
  1 / (sqrt (2 * PI) * IZR 1) * exp (IZR ((- (x - muX) ^ 2) / (2 * 1 ^ 2))).

(** The row [gaussian_1d_filter(i, 0, n)] of [N] entries. *)
Definition filter_row (N : nat) (i : nat) : list R :=
  map (fun k => density_1d (Z.of_nat i) (Z.of_nat k)) (seq 0 N).

(** The value of [gaussian_2d] for [sigma = 1]. *)
Definition density_2d (muX muY x y : Z) : R :=
  1 / (2 * PI * IZR (1 ^ 2))
  * exp (IZR ((- ((x - muX) ^ 2 + (y - muY) ^ 2)) / 2 * 1 ^ 2)).

(** The layer [gaussian_2d_filter(i, i, 0, 0, n, n)] of [N] by [N]
    entries. *)
Definition layer (N : nat) (i : nat) : list (list R) :=
  map (fun a => map (fun b => density_2d (Z.of_nat i) (Z.of_nat i)
                                         (Z.of_nat a) (Z.of_nat b))
                    (seq 0 N))
      (seq 0 N).

(** The cells [k, k + m) of row [a] of a layer written over those of [r]. *)
Definition fill_cols (muX muY : Z) (a : nat) (r : vec) (k m : nat) : vec :=
  fold_left (fun r j => setitem r j (Fin (density_2d muX muY (Z.of_nat a)
                                                     (Z.of_nat j))))
            (seq k m) r.

(** The shapes of the data model: an S-by-S matrix, a prior of [S]
    entries and likelihood rows of [S] entries. *)
Definition shapes (S : nat) (T : matrix) (likelihoods : list vec)
           (prior : vec) : Prop :=
  length T = S /\ Forall (fun row => length row = S) T /\
  length prior = S /\ Forall (fun l => length l = S) likelihoods.

(** A vector of [S] finite entries, none negative. *)
Definition nonneg_vec (S : nat) (v : vec) : Prop :=
  exists ys, v = map Fin ys /\ length ys = S /\ Forall (fun y => 0 <= y) ys.

(** A log-weight: a finite value, or minus infinity for the weight zero. *)
Definition lw (o : option R) : xreal :=
  match o with
  | Some x => Fin x
  | None => NegInf
  end.

(** The weight a log-weight stands for. *)
Definition weight_of (o : option R) : R :=
  match o with
  | Some x => exp x
  | None => 0
  end.

(** The log-weight of a weight that is not negative. *)
Definition log_of (d : R) : option R :=
  if Rlt_dec 0 d then Some (ln d) else None.

(** A vector of [S] log-weights. *)
Definition log_weights (S : nat) (v : vec) : Prop :=
  exists os, v = map lw os /\ length os = S.

(** A vector of log-weights that are not all minus infinity: the weights
    are not all zero. *)
Definition has_mass (v : vec) : Prop := Exists is_fin v.

(** A vector of [S] log-weights whose weights sum to 1. *)
Definition log_distribution (S : nat) (v : vec) : Prop :=
  exists os, v = map lw os /\ length os = S /\ sumR (map weight_of os) = 1.

(** An S-by-S matrix of finite weights, none negative. *)
Definition weights (S : nat) (M : matrix) : Prop :=
  length M = S /\ Forall (nonneg_vec S) M.

(** Every column of the matrix holds a positive weight, as every column of
    a column-stochastic matrix does. *)
Definition column_weighted (S : nat) (M : matrix) : Prop :=
  forall j, (j < S)%nat ->
    exists row p, In row M /\ nth j row (Fin 0) = Fin p /\ 0 < p.

(** No step of the loop of the filter normalizes weights that are all
    zero. *)
Fixpoint keeps_mass (T : matrix) (rest : list vec) (lastp : vec) : Prop :=
  match rest with
  | [] => True
  | p1 :: rest' =>
      let u := vadd p1 (vlog (dot T (vexp lastp))) in
      has_mass u /\ keeps_mass T rest' (lognormalize u)
  end.

(** Non-degenerate weights: no step of the filter, the first included,
    normalizes weights that are all zero. *)
Definition nondegenerate_run (T : matrix) (likelihoods : list vec)
           (prior : vec) (alpha beta : R) : Prop :=
  match likelihoods with
  | [] => True
  | p1 :: rest =>
      let u := vadd p1 (vlog (dot (mpow T beta) (vpow (vexp prior) alpha))) in
      has_mass u /\ keeps_mass T rest (lognormalize u)
  end.

(** A column-stochastic matrix whose second row is zero: both states move
    to the first. *)
Definition T_merge : matrix := [[Fin 1; Fin 1]; [Fin 0; Fin 0]].

(** A matrix of finite weights whose first column is zero. *)
Definition T_second : matrix := [[Fin 0; Fin 1]; [Fin 0; Fin 1]].

(** The log-distribution of a model that starts in its first state. *)
Definition first_state : vec := [Fin 0; NegInf].

(** * Properties *)

(** ** Running sums of the cumulative walk *)

Lemma xleb_Fin (x y : R) : xleb (Fin x) (Fin y) = true <-> x <= y.
Proof.
  unfold xleb. destruct (Rle_dec x y); split; intros; auto; discriminate.
Qed.

Lemma xleb_Fin_false (x y : R) : xleb (Fin x) (Fin y) = false <-> y < x.
Proof.
  unfold xleb. destruct (Rle_dec x y); split; intros; auto; try discriminate; lra.
Qed.

Lemma fold_xadd_Fin (ps : list R) (a : R) :
  fold_left xadd (map Fin ps) (Fin a) = Fin (a + sumR ps).
Proof.
  revert a. induction ps as [|p ps IH]; intros a; simpl.
  - f_equal. lra.
  - rewrite IH. f_equal. lra.
Qed.

Lemma rolling_sum_Fin (ps : list R) (k : nat) :
  rolling_sum (map Fin ps) k = Fin (sumR (firstn k ps)).
Proof.
  unfold rolling_sum. rewrite firstn_map, fold_xadd_Fin. f_equal. lra.
Qed.

Lemma sumR_nonneg (ps : list R) : Forall (fun p => 0 <= p) ps -> 0 <= sumR ps.
Proof.
  induction 1 as [|p ps Hp _ IH]; simpl; lra.
Qed.

Lemma sumR_app (ps qs : list R) : sumR (ps ++ qs) = sumR ps + sumR qs.
Proof.
  induction ps as [|p ps IH]; simpl; [lra | rewrite IH; lra].
Qed.

Lemma firstn_S_nth (ps : list R) (k : nat) :
  (k < length ps)%nat -> firstn (S k) ps = firstn k ps ++ [nth k ps 0].
Proof.
  revert k. induction ps as [|p ps IH]; intros k Hk; simpl in Hk; [lia|].
  destruct k as [|k]; simpl; [reflexivity|].
  f_equal. apply IH. lia.
Qed.

Lemma sumR_firstn_nonneg (ps : list R) (k : nat) :
  Forall (fun p => 0 <= p) ps -> 0 <= sumR (firstn k ps).
Proof.
  intros Hps. revert k. induction Hps as [|p ps Hp _ IH]; intros k.
  - rewrite firstn_nil. simpl. lra.
  - destruct k as [|k]; simpl; [lra|]. specialize (IH k). lra.
Qed.

(** Prefix sums of non-negative entries grow with the prefix. *)
Lemma sumR_firstn_mono (ps : list R) (j k : nat) :
  Forall (fun p => 0 <= p) ps -> (j <= k)%nat ->
  sumR (firstn j ps) <= sumR (firstn k ps).
Proof.
  intros Hps. revert j k. induction Hps as [|p ps Hp Hps IH]; intros j k Hjk.
  - rewrite !firstn_nil. simpl. lra.
  - destruct j as [|j]; destruct k as [|k]; simpl; try lia; try lra.
    + pose proof (sumR_firstn_nonneg ps k Hps). lra.
    + specialize (IH j k ltac:(lia)). lra.
Qed.

(** ** The cumulative walk of [sample] *)

(** If the walk reaches [r] within the first [S k] entries, the loop
    returns the first index at which it does. *)
Lemma sample_loop_first (r : xreal) (v : vec) :
  forall (acc : xreal) (i k : nat),
    (k < length v)%nat ->
    xleb r (fold_left xadd (firstn (S k) v) acc) = true ->
    exists j, (j <= k)%nat /\
      sample_loop v r acc i = Some (i + j)%nat /\
      xleb r (fold_left xadd (firstn (S j) v) acc) = true /\
      forall j', (j' < j)%nat ->
        xleb r (fold_left xadd (firstn (S j') v) acc) = false.
Proof.
  induction v as [|a v IH]; intros acc i k Hk Hreach; simpl in Hk; [lia|].
  simpl. destruct (xleb r (xadd acc a)) eqn:Hcmp.
  - exists 0%nat. repeat split; try lia.
    + f_equal. lia.
    + simpl. exact Hcmp.
  - destruct k as [|k].
    + simpl in Hreach. congruence.
    + destruct (IH (xadd acc a) (S i) k ltac:(lia) Hreach)
        as (j & Hjk & Hs & Hj & Hbefore).
      exists (S j). repeat split; try lia.
      * rewrite Hs. f_equal. lia.
      * exact Hj.
      * intros [|j'] Hlt; simpl.
        -- exact Hcmp.
        -- apply Hbefore. lia.
Qed.

(** If the walk never reaches [r], the loop falls through. *)
Lemma sample_loop_none (r : xreal) (v : vec) :
  forall (acc : xreal) (i : nat),
    (forall k, (k < length v)%nat ->
               xleb r (fold_left xadd (firstn (S k) v) acc) = false) ->
    sample_loop v r acc i = None.
Proof.
  induction v as [|a v IH]; intros acc i Hnever; simpl; [reflexivity|].
  pose proof (Hnever 0%nat ltac:(simpl; lia)) as H0.
  simpl in H0. rewrite H0.
  apply IH. intros k Hk. apply (Hnever (S k)). simpl. lia.
Qed.

(** An index returned by the loop is in range. *)
Lemma sample_loop_range (r : xreal) (v : vec) :
  forall (acc : xreal) (i j : nat),
    sample_loop v r acc i = Some j -> (i <= j < i + length v)%nat.
Proof.
  induction v as [|a v IH]; intros acc i j Hs; simpl in Hs; [discriminate|].
  destruct (xleb r (xadd acc a)).
  - injection Hs as <-. simpl. lia.
  - apply IH in Hs. simpl. lia.
Qed.

Lemma sample_index_valid (v : vec) (r : xreal) (i : nat) :
  sample v r = Ret (Some i) -> (i < length v)%nat.
Proof.
  unfold sample. intros H. injection H as H.
  apply sample_loop_range in H. lia.
Qed.

(** C4, as amended. When the cumulative walk over [v] never reaches the draw
    [r] (the rolling sum stays below [r] up to the last index), [sample]
    returns [None]: it yields no index and raises no error. *)
Theorem sample_never_reached (v : vec) (r : xreal) :
  never_reaches v r ->
  sample v r = Ret None /\ forall e, sample v r <> Raise e.
Proof.
  intros Hnever. split.
  - unfold sample. f_equal. apply sample_loop_none. exact Hnever.
  - intros e. unfold sample. discriminate.
Qed.

Lemma short_row_never_reaches : never_reaches short_row (Fin (3 / 4)).
Proof.
  intros i Hi. unfold short_row in *. simpl in Hi.
  destruct i as [|[|i]]; [| |lia]; unfold rolling_sum; simpl;
    apply xleb_Fin_false; lra.
Qed.

Lemma sample_never_reached_witness :
  never_reaches short_row (Fin (3 / 4)) /\
  sample short_row (Fin (3 / 4)) = Ret None /\
  forall e, sample short_row (Fin (3 / 4)) <> Raise e.
Proof.
  split; [exact short_row_never_reaches|].
  apply (sample_never_reached short_row (Fin (3 / 4))).
  exact short_row_never_reaches.
Defined.

(** C4, as stated, fails: on the row [1/4, 1/4] and the draw [3/4] the walk
    never reaches the draw, and the call returns [None] instead of
    raising. *)
Lemma sample_no_error_counterexample :
  ~ (never_reaches short_row (Fin (3 / 4)) ->
     exists e, sample short_row (Fin (3 / 4)) = Raise e).
Proof.
  intros Hclaim.
  destruct (Hclaim short_row_never_reaches) as [e He].
  unfold sample in He. discriminate.
Qed.

(** C6. On a row of non-negative probabilities [ps], a draw exactly equal to
    the cumulative sum at the boundary between index [k] and index [k+1]
    makes [sample] return the first index whose running sum reaches the
    draw; that index is never above [k], and it is [k] itself when entry [k]
    carries probability. *)
Theorem sample_tie_break (ps : list R) (k : nat) :
  Forall (fun p => 0 <= p) ps ->
  (k < length ps)%nat ->
  let v := map Fin ps in
  let r := rolling_sum v (S k) in
  exists i,
    sample v r = Ret (Some i) /\
    (i <= k)%nat /\
    xleb r (rolling_sum v (S i)) = true /\
    (forall j, (j < i)%nat -> xleb r (rolling_sum v (S j)) = false) /\
    (0 < nth k ps 0 -> i = k).
Proof.
  intros Hps Hk v r.
  assert (Hreach : xleb r (fold_left xadd (firstn (S k) v) (Fin 0)) = true).
  { unfold r. fold (rolling_sum v (S k)). unfold v.
    rewrite rolling_sum_Fin. apply xleb_Fin. lra. }
  assert (Hlen : (k < length v)%nat) by (unfold v; rewrite length_map; exact Hk).
  destruct (sample_loop_first r v (Fin 0) 0 k Hlen Hreach)
    as (j & Hjk & Hs & Hj & Hbefore).
  exists j. repeat split; auto.
  - unfold sample. rewrite Hs. reflexivity.
  - intros Hpos.
    destruct (Nat.eq_dec j k) as [|Hne]; [assumption|exfalso].
    fold (rolling_sum v (S j)) in Hj. unfold r, v in Hj.
    rewrite !rolling_sum_Fin in Hj. apply xleb_Fin in Hj.
    pose proof (sumR_firstn_mono ps (S j) k Hps ltac:(lia)) as Hmono.
    rewrite (firstn_S_nth ps k Hk), sumR_app in Hj.
    change (sumR [nth k ps 0]) with (nth k ps 0 + 0) in Hj. lra.
Qed.

Lemma sample_tie_break_witness :
  exists i,
    sample (map Fin [1 / 2; 1 / 2])
           (rolling_sum (map Fin [1 / 2; 1 / 2]) 1) = Ret (Some i) /\
    (i <= 0)%nat /\
    xleb (rolling_sum (map Fin [1 / 2; 1 / 2]) 1)
         (rolling_sum (map Fin [1 / 2; 1 / 2]) (S i)) = true /\
    (forall j, (j < i)%nat ->
       xleb (rolling_sum (map Fin [1 / 2; 1 / 2]) 1)
            (rolling_sum (map Fin [1 / 2; 1 / 2]) (S j)) = false) /\
    (0 < nth 0 [1 / 2; 1 / 2] 0 -> i = 0%nat).
Proof.
  apply (sample_tie_break [1 / 2; 1 / 2] 0).
  - repeat constructor; lra.
  - simpl. lia.
Defined.

(** ** Finite vectors *)

Lemma xsum_Fin (ys : list R) : xsum (map Fin ys) = Fin (sumR ys).
Proof.
  induction ys as [|y ys IH]; [reflexivity|].
  change (xsum (map Fin (y :: ys))) with (xadd (Fin y) (xsum (map Fin ys))).
  rewrite IH. reflexivity.
Qed.

Lemma vexp_Fin (xs : list R) : vexp (map Fin xs) = map Fin (map exp xs).
Proof.
  unfold vexp. rewrite !map_map. reflexivity.
Qed.

Lemma xmax_Fin (x y : R) : xmax (Fin x) (Fin y) = Fin (Rmax x y).
Proof.
  unfold xmax, xleb, Rmax. destruct (Rle_dec x y); reflexivity.
Qed.

Lemma fold_xmax_Fin (xs : list R) (a : R) :
  fold_left xmax (map Fin xs) (Fin a) = Fin (fold_left Rmax xs a).
Proof.
  revert a. induction xs as [|x xs IH]; intros a; cbn [map fold_left];
    [reflexivity|].
  rewrite xmax_Fin. apply IH.
Qed.

(** The running maximum dominates its start and every entry, and is one of
    them. *)
Lemma fold_Rmax_spec (xs : list R) (a : R) :
  let m := fold_left Rmax xs a in
  a <= m /\ (forall x, In x xs -> x <= m) /\ In m (a :: xs).
Proof.
  revert a. induction xs as [|x xs IH]; intros a; cbn [fold_left].
  - cbn. repeat split; [lra | tauto | auto].
  - destruct (IH (Rmax a x)) as (Hle & Hall & Hin).
    pose proof (Rmax_l a x). pose proof (Rmax_r a x).
    cbv zeta. repeat split.
    + lra.
    + intros y [<-|Hy]; [lra | auto].
    + destruct Hin as [Heq|Hin]; [|right; right; exact Hin].
      rewrite <- Heq. unfold Rmax. destruct (Rle_dec a x); cbn; auto.
Qed.

Lemma sumR_exp_shift_ge_1 (xs : list R) (m : R) :
  In m xs -> 1 <= sumR (map (fun x => exp (x - m)) xs).
Proof.
  assert (Hnn : forall ys, 0 <= sumR (map (fun x => exp (x - m)) ys)).
  { induction ys as [|y ys IH]; simpl; [lra|].
    pose proof (exp_pos (y - m)). lra. }
  induction xs as [|x xs IH]; intros Hin; simpl in *; [tauto|].
  destruct Hin as [->|Hin].
  - replace (m - m) with 0 by lra. rewrite exp_0.
    specialize (Hnn xs). lra.
  - specialize (IH Hin). pose proof (exp_pos (x - m)). lra.
Qed.

Lemma stabilized_Fin (a : R) (xs : list R) :
  let m := fold_left Rmax xs a in
  stabilized (map Fin (a :: xs))
  = Ret (map Fin (map (fun x => exp (x - m)) (a :: xs))).
Proof.
  intros m. unfold stabilized, row_max.
  change (map Fin (a :: xs)) with (Fin a :: map Fin xs) at 1.
  cbv iota. rewrite fold_xmax_Fin. fold m. cbn [Py.bind]. f_equal.
  rewrite !map_map. reflexivity.
Qed.

(** C9. For a non-empty row of finite log-weights, the divisor of
    [smart_sampling] (the sum of [exp (x_i - max x)] over the row) is a
    finite number that is at least 1, so the division of the row by it
    divides by no zero and leaves every entry finite. *)
Theorem divisor_at_least_one (xs : list R) :
  xs <> [] ->
  exists d,
    divisor (map Fin xs) = Ret (Fin d) /\ 1 <= d /\
    exists B, softmax_row (map Fin xs) = Ret (map Fin B) /\
              length B = length xs.
Proof.
  destruct xs as [|a xs]; [congruence|]. intros _.
  set (m := fold_left Rmax xs a).
  set (E := map (fun x => exp (x - m)) (a :: xs)).
  exists (sumR E).
  assert (Hd : 1 <= sumR E).
  { apply sumR_exp_shift_ge_1. apply (fold_Rmax_spec xs a). }
  split; [|split; [exact Hd|]].
  - unfold divisor. rewrite stabilized_Fin. fold m E. cbn [Py.bind].
    rewrite xsum_Fin. reflexivity.
  - exists (map (fun b => b / sumR E) E). split.
    + unfold softmax_row. rewrite stabilized_Fin. fold m E. cbn [Py.bind].
      rewrite xsum_Fin. f_equal. rewrite !map_map.
      apply map_ext. intros b. unfold xdiv.
      destruct (Req_dec_T (sumR E) 0); [lra | reflexivity].
    + unfold E. rewrite !length_map. reflexivity.
Qed.

Lemma divisor_at_least_one_witness :
  exists d,
    divisor (map Fin [0; -1]) = Ret (Fin d) /\ 1 <= d /\
    exists B, softmax_row (map Fin [0; -1]) = Ret (map Fin B) /\
              length B = length [0; -1].
Proof.
  apply (divisor_at_least_one [0; -1]). discriminate.
Defined.

(** ** The forward recursion *)

Lemma zip_with_length {A B C : Type} (f : A -> B -> C) (xs : list A) :
  forall ys, length xs = length ys -> length (zip_with f xs ys) = length xs.
Proof.
  induction xs as [|x xs IH]; intros [|y ys] Hlen; cbn in *; try lia.
  rewrite IH; lia.
Qed.

Section forward_recursion.

Variable T : matrix.

Lemma forward_loop_length (rest : list vec) :
  forall lastp fwd,
    length (forward_loop T rest lastp fwd) = (length fwd + length rest)%nat.
Proof.
  induction rest as [|p1 rest IH]; intros lastp fwd; cbn [forward_loop length].
  - lia.
  - rewrite IH, length_app. cbn [length]. lia.
Qed.

(** The loop keeps the rows it was given and appends one step per
    remaining likelihood, each computed from the row just before it. *)
Lemma forward_loop_spec (rest : list vec) :
  forall lastp fwd,
    fwd <> [] ->
    nth (length fwd - 1) fwd [] = lastp ->
    let out := forward_loop T rest lastp fwd in
    (forall i, (i < length fwd)%nat -> nth i out [] = nth i fwd []) /\
    (forall i, (i < length rest)%nat ->
       nth (length fwd + i) out []
       = forward_step T (nth i rest []) (nth (length fwd + i - 1) out [])).
Proof.
  induction rest as [|p1 rest IH]; intros lastp fwd Hne Hlast out.
  - subst out. cbn [forward_loop length]. split; [reflexivity | lia].
  - subst out. cbn [forward_loop].
    set (value := lognormalize (vadd p1 (vlog (dot T (vexp lastp))))).
    assert (Hlen : (0 < length fwd)%nat)
      by (destruct fwd; [congruence | cbn; lia]).
    destruct (IH value (fwd ++ [value])) as (Hpre & Hstep).
    { destruct fwd; discriminate. }
    { rewrite length_app. cbn [length].
      rewrite app_nth2 by lia.
      replace (length fwd + 1 - 1 - length fwd)%nat with 0%nat by lia.
      reflexivity. }
    rewrite length_app in Hpre, Hstep. cbn [length] in Hpre, Hstep.
    assert (Hkeep : forall i, (i < length fwd)%nat ->
              nth i (forward_loop T rest value (fwd ++ [value])) []
              = nth i fwd []).
    { intros i Hi. rewrite Hpre by lia. apply app_nth1. exact Hi. }
    split; [exact Hkeep|].
    intros [|i] Hi.
    + rewrite Nat.add_0_r. rewrite Hpre by lia.
      rewrite app_nth2 by lia. rewrite Nat.sub_diag. cbn [nth].
      rewrite Hkeep by lia. rewrite Hlast. reflexivity.
    + cbn [length] in Hi. specialize (Hstep i ltac:(lia)).
      replace (length fwd + S i)%nat with (length fwd + 1 + i)%nat by lia.
      exact Hstep.
Qed.

(** One step of the filter on an S-by-S matrix and a likelihood row of
    [S] entries writes a row of [S] entries. *)
Lemma step_length (S : nat) (M : matrix) (p1 v : vec) :
  length M = S -> length p1 = S ->
  length (lognormalize (vadd p1 (vlog (dot M v)))) = S.
Proof.
  intros HM Hp1. unfold lognormalize, vadd, vlog, dot.
  rewrite length_map, zip_with_length; [exact Hp1|].
  rewrite !length_map. lia.
Qed.

Lemma forward_loop_row_lengths (S : nat) (rest : list vec) :
  length T = S ->
  Forall (fun l => length l = S) rest ->
  forall lastp fwd,
    Forall (fun row => length row = S) fwd ->
    Forall (fun row => length row = S) (forward_loop T rest lastp fwd).
Proof.
  intros HT Hrest. induction Hrest as [|p1 rest Hp1 _ IH];
    intros lastp fwd Hfwd; cbn [forward_loop]; [exact Hfwd|].
  apply IH. apply Forall_app. split; [exact Hfwd|].
  constructor; [|constructor]. apply step_length; assumption.
Qed.

(** C5, as amended. A call of the forward filter on a likelihood sequence
    without rows fails with the built-in [IndexError]: the code has no
    emptiness check, and the failure is that of the subscript
    [likelihoods[0]], whatever the matrix, the prior and the tempering. *)
Theorem hmm_forward_empty (prior : vec) (tempering : R * R) :
  hmm_forward T [] prior tempering = Raise IndexError.
Proof.
  destruct tempering as [alpha beta]. reflexivity.
Qed.

(** C2. On an S-by-S matrix, a prior of [S] entries and a likelihood
    sequence of [L >= 1] rows of [S] entries, the filter returns [L] rows
    of [S] entries; row 0 is [lognormalize (likelihoods[0] + log (T^beta .
    exp (prior)^alpha))], with the tempering exponents applied entry by
    entry before the product, and every later row [t] is [lognormalize
    (likelihoods[t] + log (T . exp (row t-1)))], without tempering. *)
Theorem hmm_forward_recursion (S : nat) (likelihoods : list vec)
        (prior : vec) (alpha beta : R) :
  (1 <= S)%nat ->
  shapes S T likelihoods prior ->
  likelihoods <> [] ->
  exists out,
    hmm_forward T likelihoods prior (alpha, beta) = Ret out /\
    length out = length likelihoods /\
    Forall (fun row => length row = S) out /\
    nth 0 out []
    = lognormalize
        (vadd (nth 0 likelihoods [])
              (vlog (dot (mpow T beta) (vpow (vexp prior) alpha)))) /\
    forall t, (1 <= t < length likelihoods)%nat ->
      nth t out []
      = lognormalize
          (vadd (nth t likelihoods [])
                (vlog (dot T (vexp (nth (t - 1) out []))))).
Proof.
  intros _ (HT & _ & _ & Hliks).
  destruct likelihoods as [|l0 rest]; [congruence|]. intros _.
  inversion Hliks as [|? ? Hl0 Hrest]; subst.
  set (first := lognormalize
                  (vadd l0 (vlog (dot (mpow T beta) (vpow (vexp prior) alpha))))).
  exists (forward_loop T rest first [first]).
  destruct (forward_loop_spec rest first [first]) as (Hpre & Hstep);
    [discriminate | reflexivity |].
  split; [reflexivity|]. split; [|split; [|split]].
  - rewrite forward_loop_length. reflexivity.
  - apply (forward_loop_row_lengths (length T)); auto.
    constructor; [|constructor]. apply step_length; [|assumption].
    unfold mpow. apply length_map.
  - rewrite (Hpre 0%nat) by (cbn; lia). reflexivity.
  - intros t Ht. cbn [length] in Ht.
    specialize (Hstep (t - 1)%nat ltac:(lia)). cbn [length] in Hstep.
    replace (1 + (t - 1))%nat with t in Hstep by lia.
    rewrite Hstep. unfold forward_step.
    replace (nth t (l0 :: rest) []) with (nth (t - 1) rest []).
    + replace (t - 1)%nat with (1 + (t - 1) - 1)%nat at 3 by lia.
      replace (1 + (t - 1))%nat with t by lia. reflexivity.
    + destruct t as [|t]; [lia|]. cbn [nth].
      replace (S t - 1)%nat with t by lia. reflexivity.
Qed.

End forward_recursion.

(** C5, as stated, fails: on a sequence without rows the call raises no
    [EmptySequenceError]; what it raises is the [IndexError] of the
    subscript. *)
Lemma hmm_forward_empty_counterexample :
  hmm_forward I2 [] uniform2 (1, 1) <> Raise EmptySequenceError /\
  hmm_forward I2 [] uniform2 (1, 1) = Raise IndexError.
Proof.
  split; [discriminate | reflexivity].
Qed.

Lemma hmm_forward_recursion_witness :
  exists out,
    hmm_forward T_bias [[Fin 0; Fin (-1)]; [Fin (-2); Fin 0]] uniform2 (2, 3)
    = Ret out /\
    length out = length [[Fin 0; Fin (-1)]; [Fin (-2); Fin 0]] /\
    Forall (fun row => length row = 2%nat) out /\
    nth 0 out []
    = lognormalize
        (vadd (nth 0 [[Fin 0; Fin (-1)]; [Fin (-2); Fin 0]] [])
              (vlog (dot (mpow T_bias 3) (vpow (vexp uniform2) 2)))) /\
    forall t, (1 <= t < length [[Fin 0; Fin (-1)]; [Fin (-2); Fin 0]])%nat ->
      nth t out []
      = lognormalize
          (vadd (nth t [[Fin 0; Fin (-1)]; [Fin (-2); Fin 0]] [])
                (vlog (dot T_bias (vexp (nth (t - 1) out []))))).
Proof.
  apply (hmm_forward_recursion T_bias 2
           [[Fin 0; Fin (-1)]; [Fin (-2); Fin 0]] uniform2 2 3).
  - lia.
  - repeat split; repeat constructor.
  - discriminate.
Defined.

(** ** Normalized log-distributions *)

Lemma sumR_cons (x : R) (xs : list R) : sumR (x :: xs) = x + sumR xs.
Proof. reflexivity. Qed.

Lemma sumR_exp_nonneg (xs : list R) : 0 <= sumR (map exp xs).
Proof.
  induction xs as [|x xs IH]; cbn [map]; [cbn; lra|].
  rewrite sumR_cons. pose proof (exp_pos x). lra.
Qed.

Lemma sumR_exp_pos (xs : list R) : xs <> [] -> 0 < sumR (map exp xs).
Proof.
  destruct xs as [|x xs]; [congruence|]. intros _. cbn [map].
  rewrite sumR_cons.
  pose proof (exp_pos x). pose proof (sumR_exp_nonneg xs). lra.
Qed.

Lemma fold_logaddexp_Fin (xs : list R) (a : R) :
  fold_left logaddexp (map Fin xs) (Fin a)
  = Fin (ln (exp a + sumR (map exp xs))).
Proof.
  revert a. induction xs as [|x xs IH]; intros a; cbn [map fold_left].
  - f_equal. change (sumR []) with 0. rewrite Rplus_0_r, ln_exp. reflexivity.
  - cbn [logaddexp]. rewrite IH, sumR_cons. do 2 f_equal.
    rewrite exp_ln; [lra|].
    pose proof (exp_pos a). pose proof (exp_pos x). lra.
Qed.

Lemma logaddexp_reduce_Fin (xs : list R) :
  xs <> [] ->
  logaddexp_reduce (map Fin xs) = Fin (ln (sumR (map exp xs))).
Proof.
  destruct xs as [|a xs]; [congruence|]. intros _.
  cbn [map logaddexp_reduce]. apply fold_logaddexp_Fin.
Qed.

Lemma lognormalize_Fin (xs : list R) :
  xs <> [] ->
  lognormalize (map Fin xs)
  = map Fin (map (fun x => x - ln (sumR (map exp xs))) xs).
Proof.
  intros Hne. unfold lognormalize. rewrite (logaddexp_reduce_Fin xs Hne).
  rewrite !map_map. apply map_ext. intros x. reflexivity.
Qed.

Lemma sumR_exp_shift (xs : list R) (c : R) :
  sumR (map exp (map (fun x => x - c) xs)) = sumR (map exp xs) * exp (- c).
Proof.
  induction xs as [|x xs IH]; cbn [map]; [cbn; lra|].
  rewrite !sumR_cons, IH. unfold Rminus. rewrite exp_plus. lra.
Qed.

Lemma lognormalize_normalized (xs : list R) :
  xs <> [] -> normalized (length xs) (lognormalize (map Fin xs)).
Proof.
  intros Hne. rewrite (lognormalize_Fin xs Hne).
  eexists. split; [reflexivity|]. split; [apply length_map|].
  rewrite sumR_exp_shift. rewrite exp_Ropp.
  pose proof (sumR_exp_pos xs Hne) as Hpos.
  rewrite exp_ln by exact Hpos. field. lra.
Qed.

(** What normalization means for the vector itself: its log-sum-exp is 0
    and its exponentials sum to 1. *)
Lemma normalized_sums (S : nat) (v : vec) :
  normalized S v ->
  logaddexp_reduce v = Fin 0 /\ xsum (vexp v) = Fin 1.
Proof.
  intros (zs & -> & _ & Hsum).
  assert (Hne : zs <> []).
  { intros ->. cbn in Hsum. lra. }
  split.
  - rewrite (logaddexp_reduce_Fin zs Hne), Hsum, ln_1. reflexivity.
  - rewrite vexp_Fin, xsum_Fin, Hsum. reflexivity.
Qed.

Lemma normalized_exp_positive (S : nat) (v : vec) :
  normalized S v -> positive_vec S (vexp v).
Proof.
  intros (zs & -> & Hlen & _). exists (map exp zs).
  split; [apply vexp_Fin|]. split; [rewrite length_map; exact Hlen|].
  apply Forall_forall. intros y Hy. apply in_map_iff in Hy.
  destruct Hy as (z & <- & _). apply exp_pos.
Qed.

Lemma zip_xmul_Fin (ts ys : list R) :
  zip_with xmul (map Fin ts) (map Fin ys) = map Fin (zip_with Rmult ts ys).
Proof.
  revert ys. induction ts as [|t ts IH]; intros [|y ys]; cbn [map zip_with];
    try reflexivity.
  rewrite IH. reflexivity.
Qed.

Lemma zip_xadd_Fin (xs ys : list R) :
  zip_with xadd (map Fin xs) (map Fin ys) = map Fin (zip_with Rplus xs ys).
Proof.
  revert ys. induction xs as [|x xs IH]; intros [|y ys]; cbn [map zip_with];
    try reflexivity.
  rewrite IH. reflexivity.
Qed.

Lemma sumR_zip_nonneg (ts ys : list R) :
  Forall (fun t => 0 <= t) ts -> Forall (fun y => 0 < y) ys ->
  0 <= sumR (zip_with Rmult ts ys).
Proof.
  intros Hts. revert ys. induction Hts as [|t ts Ht _ IH]; intros ys Hys.
  - cbn. lra.
  - destruct Hys as [|y ys Hy Hys]; cbn [zip_with]; [cbn; lra|].
    specialize (IH ys Hys). rewrite sumR_cons. nra.
Qed.

(** The inner product of a transition row and a positive vector is
    positive. *)
Lemma sumR_zip_pos (ts ys : list R) :
  length ts = length ys ->
  Forall (fun t => 0 <= t) ts -> Exists (fun t => 0 < t) ts ->
  Forall (fun y => 0 < y) ys ->
  0 < sumR (zip_with Rmult ts ys).
Proof.
  intros Hlen Hts Hex. revert ys Hlen Hts.
  induction Hex as [t ts Ht | t ts _ IH]; intros [|y ys] Hlen Hts Hys;
    cbn in Hlen; try lia; cbn [zip_with]; rewrite sumR_cons;
    inversion Hts; subst; inversion Hys; subst.
  - pose proof (sumR_zip_nonneg ts ys ltac:(assumption) ltac:(assumption)).
    nra.
  - specialize (IH ys ltac:(lia) ltac:(assumption) ltac:(assumption)). nra.
Qed.

Lemma dot_row_positive (S : nat) (row v : vec) :
  transition_row S row -> positive_vec S v ->
  exists d, dot_row row v = Fin d /\ 0 < d.
Proof.
  intros (ts & -> & Hts & Hnn & Hex) (ys & -> & Hys & Hpos).
  exists (sumR (zip_with Rmult ts ys)). split.
  - unfold dot_row. rewrite zip_xmul_Fin, xsum_Fin. reflexivity.
  - apply sumR_zip_pos; auto. lia.
Qed.

Lemma dot_rows_positive (S : nat) (M : matrix) (v : vec) :
  Forall (transition_row S) M -> positive_vec S v ->
  exists ds, dot M v = map Fin ds /\ length ds = length M /\
             Forall (fun y => 0 < y) ds.
Proof.
  intros Hrows Hv. induction Hrows as [|row M Hrow _ IH].
  - exists []. repeat split; auto.
  - destruct IH as (ds & Hds & Hl & Hp).
    destruct (dot_row_positive S row v Hrow Hv) as (d & Hd & Hdpos).
    exists (d :: ds). cbn [dot map length]. fold (dot M v).
    rewrite Hd, Hds. repeat split; auto.
Qed.

Lemma dot_positive (S : nat) (M : matrix) (v : vec) :
  nondegenerate S M -> positive_vec S v -> positive_vec S (dot M v).
Proof.
  intros [Hlen Hrows] Hv.
  destruct (dot_rows_positive S M v Hrows Hv) as (ds & Hds & Hl & Hp).
  exists ds. repeat split; auto. lia.
Qed.

Lemma vlog_positive (S : nat) (v : vec) :
  positive_vec S v -> finite_vec S (vlog v).
Proof.
  intros (ys & -> & Hlen & Hpos). exists (map ln ys).
  split; [|rewrite length_map; exact Hlen].
  unfold vlog. rewrite !map_map. apply map_ext_in. intros y Hy.
  pose proof (proj1 (Forall_forall _ _) Hpos y Hy) as Hy0. cbn in Hy0.
  unfold xlog. destruct (Rlt_dec 0 y); [reflexivity | contradiction].
Qed.

Lemma vadd_finite (S : nat) (u v : vec) :
  finite_vec S u -> finite_vec S v -> finite_vec S (vadd u v).
Proof.
  intros (xs & -> & Hx) (ys & -> & Hy). exists (zip_with Rplus xs ys).
  split; [apply zip_xadd_Fin|]. rewrite zip_with_length; lia.
Qed.

Lemma lognormalize_finite (S : nat) (v : vec) :
  (1 <= S)%nat -> finite_vec S v -> normalized S (lognormalize v).
Proof.
  intros HS (xs & -> & Hlen). rewrite <- Hlen.
  apply lognormalize_normalized. intros ->. cbn in Hlen. lia.
Qed.

(** One filtering step from a positive vector yields a normalized row. *)
Lemma step_normalized (S : nat) (M : matrix) (p1 v : vec) :
  (1 <= S)%nat -> nondegenerate S M -> finite_vec S p1 -> positive_vec S v ->
  normalized S (lognormalize (vadd p1 (vlog (dot M v)))).
Proof.
  intros HS HM Hp1 Hv.
  apply lognormalize_finite; [exact HS|].
  apply vadd_finite; [exact Hp1|].
  apply vlog_positive. apply dot_positive; assumption.
Qed.

(** ** Tempering keeps the weights non-degenerate *)

Lemma xpow_weight (t beta : R) :
  0 <= t -> 0 <= beta ->
  exists u, xpow (Fin t) beta = Fin u /\ 0 <= u /\ (0 < t -> 0 < u).
Proof.
  intros Ht Hb. unfold xpow.
  destruct (Req_dec_T beta 0) as [Hb0|Hb0].
  - exists 1. repeat split; lra.
  - destruct (Rlt_dec 0 t) as [Hpos|Hnpos].
    + exists (Rpower t beta). unfold Rpower.
      pose proof (exp_pos (beta * ln t)). repeat split; lra.
    + destruct (Req_dec_T t 0) as [Ht0|Ht0]; [|lra].
      destruct (Rlt_dec 0 beta); [|lra].
      exists 0. repeat split; lra.
Qed.

Lemma vpow_transition_row (S : nat) (row : vec) (beta : R) :
  0 <= beta -> transition_row S row -> transition_row S (vpow row beta).
Proof.
  intros Hb (ts & -> & Hlen & Hnn & Hex). revert S Hlen Hex.
  induction Hnn as [|t ts Ht Hnn IH]; intros S Hlen Hex.
  - inversion Hex.
  - destruct (xpow_weight t beta Ht Hb) as (u & Hu & Hu0 & Hupos).
    assert (Htail : exists us, vpow (map Fin ts) beta = map Fin us /\
                      length us = length ts /\ Forall (fun t => 0 <= t) us /\
                      (Exists (fun t => 0 < t) ts -> Exists (fun t => 0 < t) us)).
    { clear - Hnn Hb. induction Hnn as [|t' ts' Ht' _ IH'].
      - exists []. repeat split; auto.
      - destruct IH' as (us & Hus & Hl & Hn & He).
        destruct (xpow_weight t' beta Ht' Hb) as (u' & Hu' & Hu0' & Hupos').
        exists (u' :: us). cbn [map vpow length]. fold (vpow (map Fin ts') beta).
        rewrite Hu', Hus. repeat split; auto.
        intros Hex'. inversion Hex'; subst; [left; auto | right; auto]. }
    destruct Htail as (us & Hus & Hl & Hn & He).
    exists (u :: us). cbn [map vpow length]. fold (vpow (map Fin ts) beta).
    rewrite Hu, Hus. cbn [length] in Hlen. repeat split; auto; try lia.
    inversion Hex; subst; [left; auto | right; auto].
Qed.

Lemma mpow_nondegenerate (S : nat) (M : matrix) (beta : R) :
  0 <= beta -> nondegenerate S M -> nondegenerate S (mpow M beta).
Proof.
  intros Hb [Hlen Hrows]. split.
  - unfold mpow. rewrite length_map. exact Hlen.
  - unfold mpow. apply Forall_forall. intros row Hin.
    apply in_map_iff in Hin. destruct Hin as (row0 & <- & Hin0).
    apply vpow_transition_row; [exact Hb|].
    apply (proj1 (Forall_forall _ _) Hrows). exact Hin0.
Qed.

(** Tempering the exponential of a finite log-weight multiplies the
    log-weight by the exponent. *)
Lemma xpow_exp (p alpha : R) :
  xpow (Fin (exp p)) alpha = Fin (exp (alpha * p)).
Proof.
  unfold xpow. destruct (Req_dec_T alpha 0) as [->|Hne].
  - rewrite Rmult_0_l, exp_0. reflexivity.
  - pose proof (exp_pos p). destruct (Rlt_dec 0 (exp p)); [|lra].
    unfold Rpower. rewrite ln_exp. reflexivity.
Qed.

Lemma tempered_prior_Fin (ps : list R) (alpha : R) :
  vpow (vexp (map Fin ps)) alpha = map Fin (map (fun p => exp (alpha * p)) ps).
Proof.
  unfold vpow, vexp. rewrite !map_map. apply map_ext. intros p.
  apply xpow_exp.
Qed.

Lemma tempered_prior_positive (S : nat) (prior : vec) (alpha : R) :
  finite_vec S prior -> positive_vec S (vpow (vexp prior) alpha).
Proof.
  intros (ps & -> & Hlen). exists (map (fun p => exp (alpha * p)) ps).
  split; [apply tempered_prior_Fin|]. split; [rewrite length_map; exact Hlen|].
  apply Forall_forall. intros y Hy. apply in_map_iff in Hy.
  destruct Hy as (p & <- & _). apply exp_pos.
Qed.

(** ** Logarithms and unit powers *)

Lemma xlog_pos (x : R) : 0 < x -> xlog (Fin x) = Fin (ln x).
Proof.
  intros Hx. unfold xlog. destruct (Rlt_dec 0 x); [reflexivity | contradiction].
Qed.

Lemma xlog_zero : xlog (Fin 0) = NegInf.
Proof.
  unfold xlog. destruct (Rlt_dec 0 0); [lra|].
  destruct (Req_dec_T 0 0); [reflexivity | lra].
Qed.

Lemma is_odd_integer_1 : is_odd_integer 1 = true.
Proof.
  assert (Hint : Int_part 1 = 1%Z).
  { symmetry. apply Int_part_spec. split; lra. }
  unfold is_odd_integer, is_integer, frac_part. rewrite Hint.
  destruct (Req_dec_T (1 - 1) 0); [reflexivity | lra].
Qed.

(** Raising a cell to the power 1 changes nothing. *)
Lemma xpow_1 (a : xreal) : xpow a 1 = a.
Proof.
  unfold xpow. destruct (Req_dec_T 1 0); [lra|].
  rewrite is_odd_integer_1.
  destruct a as [x| | |]; try reflexivity.
  - destruct (Rlt_dec 0 x) as [Hpos|Hnpos].
    + rewrite Rpower_1 by exact Hpos. reflexivity.
    + destruct (Req_dec_T x 0) as [->|Hne].
      * destruct (Rlt_dec 0 1); [reflexivity | lra].
      * rewrite Rpower_1 by lra. f_equal. lra.
  - destruct (Rlt_dec 0 1); [reflexivity | lra].
  - destruct (Rlt_dec 0 1); [reflexivity | lra].
Qed.

Lemma vpow_1 (v : vec) : vpow v 1 = v.
Proof.
  unfold vpow. rewrite <- (map_id v) at 2. apply map_ext. apply xpow_1.
Qed.

Lemma mpow_1 (M : matrix) : mpow M 1 = M.
Proof.
  unfold mpow. rewrite <- (map_id M) at 2. apply map_ext. apply vpow_1.
Qed.

(** ** The filter's rows are normalized *)

Lemma forward_loop_normalized (S : nat) (T : matrix) (rest : list vec) :
  (1 <= S)%nat -> nondegenerate S T ->
  Forall (finite_vec S) rest ->
  forall lastp fwd,
    normalized S lastp -> Forall (normalized S) fwd ->
    Forall (normalized S) (forward_loop T rest lastp fwd).
Proof.
  intros HS HT Hrest. induction Hrest as [|p1 rest Hp1 _ IH];
    intros lastp fwd Hlast Hfwd; cbn [forward_loop]; [exact Hfwd|].
  assert (Hvalue : normalized S
            (lognormalize (vadd p1 (vlog (dot T (vexp lastp)))))).
  { apply step_normalized; auto. apply normalized_exp_positive. exact Hlast. }
  apply IH; [exact Hvalue|].
  apply Forall_app. split; [exact Hfwd | constructor; [exact Hvalue | constructor]].
Qed.

(** The filter on finite weights with a positive weight in every row of
    [T]: every row it writes is finite and normalized. *)
Lemma hmm_forward_finite_normalized (S : nat) (T : matrix)
      (likelihoods : list vec) (prior : vec) (alpha beta : R) :
  (1 <= S)%nat ->
  nondegenerate S T ->
  0 <= beta ->
  finite_vec S prior ->
  Forall (finite_vec S) likelihoods ->
  likelihoods <> [] ->
  exists out,
    hmm_forward T likelihoods prior (alpha, beta) = Ret out /\
    length out = length likelihoods /\
    Forall (fun row => logaddexp_reduce row = Fin 0 /\
                       xsum (vexp row) = Fin 1) out.
Proof.
  intros HS HT Hb Hprior Hlik Hne.
  destruct likelihoods as [|l0 rest]; [congruence|].
  inversion Hlik as [|? ? Hl0 Hrest]; subst.
  set (first := lognormalize
                  (vadd l0 (vlog (dot (mpow T beta) (vpow (vexp prior) alpha))))).
  assert (Hfirst : normalized S first).
  { apply step_normalized; auto.
    - apply mpow_nondegenerate; assumption.
    - apply tempered_prior_positive. exact Hprior. }
  exists (forward_loop T rest first [first]).
  split; [reflexivity|]. split.
  - rewrite forward_loop_length. reflexivity.
  - eapply Forall_impl; [|apply (forward_loop_normalized S T rest); auto].
    intros row Hrow. exact (normalized_sums S row Hrow).
Qed.


(** ** Log-weights: finite values and minus infinity *)

Lemma weight_of_nonneg (o : option R) : 0 <= weight_of o.
Proof.
  destruct o as [x|]; cbn [weight_of]; [left; apply exp_pos | lra].
Qed.

Lemma weights_nonneg (os : list (option R)) :
  Forall (fun y => 0 <= y) (map weight_of os).
Proof.
  apply Forall_forall. intros y Hy. apply in_map_iff in Hy.
  destruct Hy as (o & <- & _). apply weight_of_nonneg.
Qed.

Lemma vexp_lw (os : list (option R)) :
  vexp (map lw os) = map Fin (map weight_of os).
Proof.
  unfold vexp. rewrite !map_map. apply map_ext. intros [x|]; reflexivity.
Qed.

Lemma finite_log_weights (S : nat) (v : vec) :
  finite_vec S v -> log_weights S v.
Proof.
  intros (xs & -> & Hlen). exists (map Some xs).
  split; [rewrite map_map; reflexivity | rewrite length_map; exact Hlen].
Qed.

(** A log-weight is determined by its weight. *)
Lemma weight_of_inv (c : option R) (s : R) :
  weight_of c = s -> 0 < s -> c = Some (ln s).
Proof.
  destruct c as [x|]; cbn [weight_of]; intros <- Hs; [|lra].
  rewrite ln_exp. reflexivity.
Qed.

Lemma logaddexp_lw (a b : option R) :
  exists c, logaddexp (lw a) (lw b) = lw c /\
            weight_of c = weight_of a + weight_of b.
Proof.
  destruct a as [x|], b as [y|]; cbn [lw logaddexp weight_of].
  - exists (Some (ln (exp x + exp y))). split; [reflexivity|].
    cbn [weight_of]. apply exp_ln.
    pose proof (exp_pos x). pose proof (exp_pos y). lra.
  - exists (Some x). split; [reflexivity | cbn [weight_of]; lra].
  - exists (Some y). split; [reflexivity | cbn [weight_of]; lra].
  - exists None. split; [reflexivity | cbn [weight_of]; lra].
Qed.

Lemma fold_logaddexp_lw (os : list (option R)) :
  forall a, exists c,
    fold_left logaddexp (map lw os) (lw a) = lw c /\
    weight_of c = weight_of a + sumR (map weight_of os).
Proof.
  induction os as [|o os IH]; intros a; cbn [map fold_left].
  - exists a. split; [reflexivity|]. change (sumR []) with 0. lra.
  - destruct (logaddexp_lw a o) as (c & Hc & Hw). rewrite Hc.
    destruct (IH c) as (d & Hd & Hwd). exists d. split; [exact Hd|].
    rewrite Hwd, Hw, sumR_cons. lra.
Qed.

(** The log-sum-exp of log-weights is the log-weight of their total
    weight. *)
Lemma logaddexp_reduce_lw (os : list (option R)) :
  exists c, logaddexp_reduce (map lw os) = lw c /\
            weight_of c = sumR (map weight_of os).
Proof.
  destruct os as [|o os]; cbn [map logaddexp_reduce].
  - exists None. split; reflexivity.
  - destruct (fold_logaddexp_lw os o) as (c & Hc & Hw).
    exists c. split; [exact Hc|]. rewrite sumR_cons. exact Hw.
Qed.

Lemma has_mass_weight (os : list (option R)) :
  has_mass (map lw os) -> 0 < sumR (map weight_of os).
Proof.
  unfold has_mass. induction os as [|o os IH]; cbn [map]; intros H.
  - inversion H.
  - rewrite sumR_cons. pose proof (weight_of_nonneg o) as Ho.
    pose proof (sumR_nonneg _ (weights_nonneg os)) as Hos.
    apply Exists_cons in H. destruct H as [Hfin|Hrest].
    + destruct o as [x|]; [|contradiction].
      cbn [weight_of]. pose proof (exp_pos x). lra.
    + specialize (IH Hrest). lra.
Qed.

Lemma weight_exists_positive (ys : list R) :
  Forall (fun y => 0 <= y) ys -> 0 < sumR ys -> Exists (fun y => 0 < y) ys.
Proof.
  induction 1 as [|y ys Hy _ IH]; intros Hsum.
  - cbn in Hsum. lra.
  - rewrite sumR_cons in Hsum. destruct (Rlt_dec 0 y) as [Hpos|Hnpos].
    + left. exact Hpos.
    + right. apply IH. lra.
Qed.

Lemma sumR_weight_shift (os : list (option R)) (c : R) :
  sumR (map weight_of (map (option_map (fun x => x - c)) os))
  = sumR (map weight_of os) * exp (- c).
Proof.
  induction os as [|o os IH]; cbn [map]; [cbn; lra|].
  rewrite !sumR_cons, IH. destruct o as [x|]; cbn [option_map weight_of].
  - unfold Rminus. rewrite exp_plus. lra.
  - lra.
Qed.

(** [lognormalize] of log-weights that are not all minus infinity is a
    log-distribution. *)
Lemma lognormalize_lw (S : nat) (os : list (option R)) :
  length os = S -> has_mass (map lw os) ->
  log_distribution S (lognormalize (map lw os)).
Proof.
  intros Hlen Hmass. pose proof (has_mass_weight os Hmass) as Hs.
  destruct (logaddexp_reduce_lw os) as (c & Hc & Hw).
  apply weight_of_inv in Hw; [|exact Hs]. subst c.
  exists (map (option_map (fun x => x - ln (sumR (map weight_of os)))) os).
  split; [|split].
  - unfold lognormalize. rewrite Hc, !map_map. apply map_ext.
    intros [x|]; reflexivity.
  - rewrite length_map. exact Hlen.
  - rewrite sumR_weight_shift, exp_Ropp, exp_ln by exact Hs. field. lra.
Qed.

(** What a log-distribution is for the vector itself: [S] entries whose
    log-sum-exp is 0 and whose exponentials sum to 1. *)
Lemma log_distribution_sums (S : nat) (v : vec) :
  log_distribution S v ->
  length v = S /\ logaddexp_reduce v = Fin 0 /\ xsum (vexp v) = Fin 1.
Proof.
  intros (os & -> & Hlen & Hsum). split; [|split].
  - rewrite length_map. exact Hlen.
  - destruct (logaddexp_reduce_lw os) as (c & Hc & Hw).
    rewrite Hsum in Hw. apply weight_of_inv in Hw; [|lra]. subst c.
    rewrite Hc. cbn [lw]. rewrite ln_1. reflexivity.
  - rewrite vexp_lw, xsum_Fin, Hsum. reflexivity.
Qed.

(** The exponential of a log-distribution: weights, none negative, one
    positive. *)
Lemma log_distribution_exp (S : nat) (v : vec) :
  log_distribution S v -> transition_row S (vexp v).
Proof.
  intros (os & -> & Hlen & Hsum). exists (map weight_of os).
  split; [apply vexp_lw|]. split; [rewrite length_map; exact Hlen|].
  split; [apply weights_nonneg|].
  apply weight_exists_positive; [apply weights_nonneg | lra].
Qed.

Lemma transition_row_nonneg (S : nat) (v : vec) :
  transition_row S v -> nonneg_vec S v.
Proof.
  intros (ts & Hv & Hlen & Hnn & _). exists ts. auto.
Qed.

Lemma sumR_zip_nonneg0 (ts ys : list R) :
  Forall (fun t => 0 <= t) ts -> Forall (fun y => 0 <= y) ys ->
  0 <= sumR (zip_with Rmult ts ys).
Proof.
  intros Hts. revert ys. induction Hts as [|t ts Ht _ IH]; intros ys Hys.
  - cbn. lra.
  - destruct Hys as [|y ys Hy Hys]; cbn [zip_with]; [cbn; lra|].
    specialize (IH ys Hys). rewrite sumR_cons. nra.
Qed.

Lemma dot_nonneg (S : nat) (M : matrix) (v : vec) :
  Forall (nonneg_vec S) M -> nonneg_vec S v ->
  exists ds, dot M v = map Fin ds /\ length ds = length M /\
             Forall (fun d => 0 <= d) ds.
Proof.
  intros Hrows (ys & -> & Hys & Hnn). induction Hrows as [|row M Hrow _ IH].
  - exists []. repeat split; auto.
  - destruct IH as (ds & Hds & Hl & Hp).
    destruct Hrow as (ts & -> & Hts & Htnn).
    exists (sumR (zip_with Rmult ts ys) :: ds).
    cbn [dot map length]. fold (dot M (map Fin ys)). rewrite Hds.
    unfold dot_row. rewrite zip_xmul_Fin, xsum_Fin.
    repeat split; auto. constructor; [|exact Hp].
    apply sumR_zip_nonneg0; assumption.
Qed.

Lemma vlog_nonneg (ds : list R) :
  Forall (fun d => 0 <= d) ds ->
  vlog (map Fin ds) = map lw (map log_of ds).
Proof.
  intros Hds. unfold vlog. rewrite !map_map. apply map_ext_in. intros d Hd.
  pose proof (proj1 (Forall_forall _ _) Hds d Hd) as Hd0. cbn in Hd0.
  unfold xlog, log_of. destruct (Rlt_dec 0 d); [reflexivity|].
  destruct (Req_dec_T d 0); [reflexivity | lra].
Qed.

Lemma vadd_lw (os : list (option R)) :
  forall ps, length os = length ps ->
    exists qs, vadd (map lw os) (map lw ps) = map lw qs /\
               length qs = length os.
Proof.
  unfold vadd. induction os as [|o os IH]; intros [|p ps] Hlen;
    cbn [length] in Hlen; try lia.
  - exists []. split; reflexivity.
  - destruct (IH ps ltac:(lia)) as (qs & Hqs & Hl).
    assert (Hhead : exists q, xadd (lw o) (lw p) = lw q).
    { destruct o as [x|], p as [y|]; cbn [lw xadd];
        [exists (Some (x + y)) | exists None | exists None | exists None];
        reflexivity. }
    destruct Hhead as (q & Hq). exists (q :: qs).
    cbn [map zip_with length]. rewrite Hq, Hqs, Hl. split; reflexivity.
Qed.

(** One step of the filter, from weights that are not negative, on
    log-weights that keep some mass, writes a log-distribution. *)
Lemma step_log_distribution (S : nat) (M : matrix) (p1 v : vec) :
  weights S M -> nonneg_vec S v -> log_weights S p1 ->
  has_mass (vadd p1 (vlog (dot M v))) ->
  log_distribution S (lognormalize (vadd p1 (vlog (dot M v)))).
Proof.
  intros [HM Hrows] Hv (os & -> & Hos) Hmass.
  destruct (dot_nonneg S M v Hrows Hv) as (ds & Hds & Hl & Hnn).
  rewrite Hds, (vlog_nonneg ds Hnn) in *.
  destruct (vadd_lw os (map log_of ds)) as (qs & Hqs & Hlq).
  { rewrite length_map. lia. }
  rewrite Hqs in *. apply lognormalize_lw; [lia | exact Hmass].
Qed.

Lemma vpow_nonneg (S : nat) (row : vec) (beta : R) :
  0 <= beta -> nonneg_vec S row -> nonneg_vec S (vpow row beta).
Proof.
  intros Hb (ts & -> & Hlen & Hnn). revert S Hlen.
  induction Hnn as [|t ts Ht _ IH]; intros S Hlen.
  - exists []. repeat split; auto.
  - destruct (IH (length ts) eq_refl) as (us & Hus & Hl & Hn).
    destruct (xpow_weight t beta Ht Hb) as (u & Hu & Hu0 & _).
    exists (u :: us). cbn [map vpow length]. fold (vpow (map Fin ts) beta).
    rewrite Hu, Hus. cbn [length] in Hlen. repeat split; auto. lia.
Qed.

Lemma mpow_weights (S : nat) (M : matrix) (beta : R) :
  0 <= beta -> weights S M -> weights S (mpow M beta).
Proof.
  intros Hb [Hlen Hrows]. split.
  - unfold mpow. rewrite length_map. exact Hlen.
  - unfold mpow. apply Forall_forall. intros row Hin.
    apply in_map_iff in Hin. destruct Hin as (row0 & <- & Hin0).
    apply vpow_nonneg; [exact Hb|].
    apply (proj1 (Forall_forall _ _) Hrows). exact Hin0.
Qed.

Lemma tempered_prior_nonneg (S : nat) (prior : vec) (alpha : R) :
  0 <= alpha -> log_weights S prior -> nonneg_vec S (vpow (vexp prior) alpha).
Proof.
  intros Ha (os & -> & Hlen). apply vpow_nonneg; [exact Ha|].
  exists (map weight_of os). split; [apply vexp_lw|].
  split; [rewrite length_map; exact Hlen | apply weights_nonneg].
Qed.

Lemma forward_loop_log_distributions (S : nat) (T : matrix)
      (rest : list vec) :
  weights S T ->
  Forall (log_weights S) rest ->
  forall lastp fwd,
    keeps_mass T rest lastp ->
    log_distribution S lastp -> Forall (log_distribution S) fwd ->
    Forall (log_distribution S) (forward_loop T rest lastp fwd).
Proof.
  intros HT Hrest. induction Hrest as [|p1 rest Hp1 _ IH];
    intros lastp fwd Hmass Hlast Hfwd; cbn [forward_loop]; [exact Hfwd|].
  cbn [keeps_mass] in Hmass. destruct Hmass as [Hm Hkeep].
  assert (Hvalue : log_distribution S
            (lognormalize (vadd p1 (vlog (dot T (vexp lastp)))))).
  { apply step_log_distribution; auto.
    apply transition_row_nonneg, log_distribution_exp. exact Hlast. }
  apply IH; [exact Hkeep | exact Hvalue |].
  apply Forall_app. split; [exact Hfwd | constructor; [exact Hvalue | constructor]].
Qed.

(** The rows of the filter on non-degenerate weights. *)
Lemma hmm_forward_log_distributions (S : nat) (T : matrix)
      (likelihoods : list vec) (prior : vec) (alpha beta : R) :
  weights S T ->
  0 <= alpha -> 0 <= beta ->
  log_weights S prior ->
  Forall (log_weights S) likelihoods ->
  likelihoods <> [] ->
  nondegenerate_run T likelihoods prior alpha beta ->
  exists out,
    hmm_forward T likelihoods prior (alpha, beta) = Ret out /\
    length out = length likelihoods /\
    Forall (log_distribution S) out.
Proof.
  intros HT Ha Hb Hprior Hlik Hne Hrun.
  destruct likelihoods as [|l0 rest]; [congruence|].
  inversion Hlik as [|? ? Hl0 Hrest]; subst.
  cbn [nondegenerate_run] in Hrun. destruct Hrun as [Hm Hkeep].
  set (first := lognormalize
                  (vadd l0 (vlog (dot (mpow T beta) (vpow (vexp prior) alpha)))))
    in *.
  assert (Hfirst : log_distribution S first).
  { apply step_log_distribution; auto.
    - apply mpow_weights; assumption.
    - apply tempered_prior_nonneg; assumption. }
  exists (forward_loop T rest first [first]).
  split; [reflexivity|]. split.
  - rewrite forward_loop_length. reflexivity.
  - apply (forward_loop_log_distributions S T rest); auto.
Qed.

(** C3, as amended. In exact arithmetic, on an S-by-S matrix [T] of finite
    weights, none negative, with tempering exponents that are not negative,
    a prior and [L >= 1] likelihood rows of [S] log-weights each (finite or
    minus infinity), and non-degenerate weights (no step of the filter
    normalizes weights that are all zero), the filter returns exactly [L]
    rows, and every row has [S] entries and is a normalized
    log-distribution: its log-sum-exp is 0 and its exponentials sum to 1. *)
Theorem hmm_forward_normalized (S : nat) (T : matrix)
        (likelihoods : list vec) (prior : vec) (alpha beta : R) :
  weights S T ->
  0 <= alpha -> 0 <= beta ->
  log_weights S prior ->
  Forall (log_weights S) likelihoods ->
  likelihoods <> [] ->
  nondegenerate_run T likelihoods prior alpha beta ->
  exists out,
    hmm_forward T likelihoods prior (alpha, beta) = Ret out /\
    length out = length likelihoods /\
    Forall (fun row => length row = S /\
                       logaddexp_reduce row = Fin 0 /\
                       xsum (vexp row) = Fin 1) out.
Proof.
  intros HT Ha Hb Hprior Hlik Hne Hrun.
  destruct (hmm_forward_log_distributions S T likelihoods prior alpha beta
              HT Ha Hb Hprior Hlik Hne Hrun) as (out & Hcall & Hlen & Hrows).
  exists out. split; [exact Hcall|]. split; [exact Hlen|].
  eapply Forall_impl; [|exact Hrows].
  intros row Hrow. exact (log_distribution_sums S row Hrow).
Qed.

(** ** Weights that keep their mass *)

Lemma sumR_zip_ge_term (ts ys : list R) :
  Forall (fun t => 0 <= t) ts -> Forall (fun y => 0 <= y) ys ->
  forall j, nth j ts 0 * nth j ys 0 <= sumR (zip_with Rmult ts ys).
Proof.
  intros Hts. revert ys. induction Hts as [|t ts Ht Hts IH]; intros ys Hys j.
  - destruct j; cbn; lra.
  - destruct Hys as [|y ys Hy Hys].
    + cbn [zip_with]. change (sumR []) with 0.
      destruct j as [|j]; cbn [nth]; [lra|]. destruct j; cbn; lra.
    + cbn [zip_with]. rewrite sumR_cons.
      pose proof (sumR_zip_nonneg0 ts ys Hts Hys).
      destruct j as [|j]; cbn [nth]; [nra|].
      specialize (IH ys Hys j). nra.
Qed.

Lemma dot_row_Fin (ts ys : list R) :
  dot_row (map Fin ts) (map Fin ys) = Fin (sumR (zip_with Rmult ts ys)).
Proof.
  unfold dot_row. rewrite zip_xmul_Fin, xsum_Fin. reflexivity.
Qed.

(** A finite likelihood added to the logarithm of a positive weight is a
    finite log-weight. *)
Lemma zip_xadd_xlog_mass (f : vec -> xreal) (row : vec) (d : R) (M : matrix) :
  In row M -> f row = Fin d -> 0 < d ->
  forall xs, length xs = length M ->
    Exists is_fin (zip_with xadd (map Fin xs) (map xlog (map f M))).
Proof.
  intros Hin Hf Hd. induction M as [|r M IH]; intros xs Hlen; [inversion Hin|].
  destruct xs as [|x xs]; cbn [length] in Hlen; [lia|].
  cbn [map zip_with]. destruct Hin as [->|Hin].
  - left. rewrite Hf. unfold xlog. destruct (Rlt_dec 0 d); [exact I | contradiction].
  - right. apply IH; [exact Hin | lia].
Qed.

(** One step of the filter keeps some mass when every column of the
    matrix holds a positive weight, the previous weights are not all zero
    and the likelihoods are finite. *)
Lemma step_has_mass (S : nat) (M : matrix) (p1 v : vec) :
  weights S M -> column_weighted S M ->
  transition_row S v -> finite_vec S p1 ->
  has_mass (vadd p1 (vlog (dot M v))).
Proof.
  intros [HM Hrows] Hcol (ys & -> & Hys & Hnn & Hex) (xs & -> & Hxs).
  apply Exists_exists in Hex. destruct Hex as (y & Hin & Hy).
  apply (In_nth _ _ 0) in Hin. destruct Hin as (j & Hj & Hnth).
  destruct (Hcol j ltac:(lia)) as (row & p & Hrow & Hp & Hppos).
  destruct (proj1 (Forall_forall _ _) Hrows row Hrow) as (ts & -> & Htl & Htnn).
  rewrite (map_nth Fin ts 0 j) in Hp. injection Hp as Hp.
  unfold has_mass, vadd, vlog, dot.
  apply (zip_xadd_xlog_mass _ (map Fin ts) (sumR (zip_with Rmult ts ys))).
  - exact Hrow.
  - apply dot_row_Fin.
  - pose proof (sumR_zip_ge_term ts ys Htnn Hnn j) as Hge.
    rewrite Hp, Hnth in Hge. nra.
  - lia.
Qed.

Lemma keeps_mass_columns (S : nat) (T : matrix) (rest : list vec) :
  weights S T -> column_weighted S T ->
  Forall (finite_vec S) rest ->
  forall lastp, log_distribution S lastp -> keeps_mass T rest lastp.
Proof.
  intros HT Hcol Hrest. induction Hrest as [|p1 rest Hp1 _ IH];
    intros lastp Hlast; cbn [keeps_mass]; [exact I|].
  pose proof (log_distribution_exp S lastp Hlast) as Hv.
  assert (Hm : has_mass (vadd p1 (vlog (dot T (vexp lastp)))))
    by (apply (step_has_mass S); assumption).
  split; [exact Hm|]. apply IH. apply step_log_distribution; auto.
  - apply transition_row_nonneg. exact Hv.
  - apply finite_log_weights. exact Hp1.
Qed.

Lemma mpow_column_weighted (S : nat) (M : matrix) (beta : R) :
  0 <= beta -> weights S M -> column_weighted S M ->
  column_weighted S (mpow M beta).
Proof.
  intros Hb [HM Hrows] Hcol j Hj.
  destruct (Hcol j Hj) as (row & p & Hin & Hp & Hpos).
  destruct (proj1 (Forall_forall _ _) Hrows row Hin) as (ts & -> & Htl & Htnn).
  rewrite (map_nth Fin ts 0 j) in Hp. injection Hp as Hp.
  destruct (xpow_weight p beta ltac:(lra) Hb) as (u & Hu & _ & Hupos).
  exists (vpow (map Fin ts) beta), u. split; [|split].
  - unfold mpow. apply (in_map (fun row => vpow row beta)). exact Hin.
  - unfold vpow. rewrite map_map.
    rewrite (nth_indep _ (Fin 0) ((fun x => xpow (Fin x) beta) 0))
      by (rewrite length_map; lia).
    rewrite (map_nth (fun x => xpow (Fin x) beta)). rewrite Hp. exact Hu.
  - apply Hupos. exact Hpos.
Qed.

(** The tempered prior keeps the mass of the prior. *)
Lemma tempered_prior_weights (alpha : R) (os : list (option R)) :
  0 <= alpha ->
  exists ys,
    vpow (vexp (map lw os)) alpha = map Fin ys /\ length ys = length os /\
    Forall (fun y => 0 <= y) ys /\
    (has_mass (map lw os) -> Exists (fun y => 0 < y) ys).
Proof.
  intros Ha. unfold has_mass. induction os as [|o os IH].
  - exists []. repeat split; auto. intros H. inversion H.
  - destruct IH as (ys & Hys & Hl & Hnn & Hex).
    assert (Hhead : exists u, xpow (xexp (lw o)) alpha = Fin u /\ 0 <= u /\
                              (is_fin (lw o) -> 0 < u)).
    { destruct o as [x|]; cbn [lw xexp].
      - exists (exp (alpha * x)). pose proof (exp_pos (alpha * x)).
        split; [apply xpow_exp|]. split; [lra | intros _; lra].
      - destruct (xpow_weight 0 alpha ltac:(lra) Ha) as (u & Hu & Hu0 & _).
        exists u. split; [exact Hu|]. split; [exact Hu0 | intros []]. }
    destruct Hhead as (u & Hu & Hu0 & Hupos).
    exists (u :: ys). cbn [map vexp vpow length].
    fold (vexp (map lw os)). fold (vpow (vexp (map lw os)) alpha).
    rewrite Hu, Hys, Hl. repeat split; auto.
    intros H. apply Exists_cons in H. destruct H as [Hfin|Hrest].
    + left. apply Hupos. exact Hfin.
    + right. apply Hex. exact Hrest.
Qed.

Lemma tempered_prior_mass (S : nat) (prior : vec) (alpha : R) :
  0 <= alpha -> log_weights S prior -> has_mass prior ->
  transition_row S (vpow (vexp prior) alpha).
Proof.
  intros Ha (os & -> & Hlen) Hmass.
  destruct (tempered_prior_weights alpha os Ha) as (ys & Hys & Hl & Hnn & Hex).
  exists ys. split; [exact Hys|]. split; [lia|]. split; [exact Hnn|].
  apply Hex. exact Hmass.
Qed.

(** The weights are non-degenerate whenever every column of [T] holds a
    positive weight (as in every column-stochastic matrix, whatever its
    rows), the prior has some mass and the likelihoods are finite. *)
Lemma nondegenerate_run_columns (S : nat) (T : matrix)
      (likelihoods : list vec) (prior : vec) (alpha beta : R) :
  weights S T -> column_weighted S T ->
  0 <= alpha -> 0 <= beta ->
  log_weights S prior -> has_mass prior ->
  Forall (finite_vec S) likelihoods ->
  nondegenerate_run T likelihoods prior alpha beta.
Proof.
  intros HT Hcol Ha Hb Hprior Hmass Hlik.
  destruct likelihoods as [|l0 rest]; [exact I|].
  inversion Hlik as [|? ? Hl0 Hrest]; subst. cbn [nondegenerate_run].
  pose proof (mpow_weights S T beta Hb HT) as HTb.
  assert (Hm : has_mass (vadd l0 (vlog (dot (mpow T beta)
                                            (vpow (vexp prior) alpha))))).
  { apply (step_has_mass S); auto.
    - apply mpow_column_weighted; assumption.
    - apply tempered_prior_mass; assumption. }
  split; [exact Hm|]. apply (keeps_mass_columns S); auto.
  apply step_log_distribution; auto.
  - apply tempered_prior_nonneg; assumption.
  - apply finite_log_weights. exact Hl0.
Qed.

Lemma T_merge_weights : weights 2 T_merge.
Proof.
  split; [reflexivity|].
  repeat constructor; [exists [1; 1] | exists [0; 0]];
    (split; [reflexivity|]); (split; [reflexivity|]);
    repeat constructor; lra.
Qed.

Lemma T_merge_column_weighted : column_weighted 2 T_merge.
Proof.
  intros j Hj. exists [Fin 1; Fin 1], 1.
  split; [left; reflexivity|].
  destruct j as [|[|j]]; [| |lia]; (split; [reflexivity | lra]).
Qed.

Lemma hmm_forward_normalized_witness :
  exists out,
    hmm_forward T_merge [[Fin 0; Fin (-1)]; [Fin (-2); Fin 0]] first_state
                (2, 3)
    = Ret out /\
    length out = length [[Fin 0; Fin (-1)]; [Fin (-2); Fin 0]] /\
    Forall (fun row => length row = 2%nat /\
                       logaddexp_reduce row = Fin 0 /\
                       xsum (vexp row) = Fin 1) out.
Proof.
  apply (hmm_forward_normalized 2 T_merge
           [[Fin 0; Fin (-1)]; [Fin (-2); Fin 0]] first_state 2 3).
  - exact T_merge_weights.
  - lra.
  - lra.
  - exists [Some 0; None]. split; reflexivity.
  - repeat constructor;
      [exists [Some 0; Some (-1)] | exists [Some (-2); Some 0]];
      split; reflexivity.
  - discriminate.
  - apply (nondegenerate_run_columns 2).
    + exact T_merge_weights.
    + exact T_merge_column_weighted.
    + lra.
    + lra.
    + exists [Some 0; None]. split; reflexivity.
    + left. exact I.
    + repeat constructor; [exists [0; -1] | exists [-2; 0]];
        split; reflexivity.
Defined.

(** ** The filter over the exponential of binary64 *)

Lemma forward_loop_with_exact (T : matrix) (rest : list vec) :
  forall lastp fwd,
    forward_loop_with xexp T rest lastp fwd = forward_loop T rest lastp fwd.
Proof.
  induction rest as [|p1 rest IH]; intros lastp fwd;
    cbn [forward_loop_with forward_loop]; [reflexivity|]. apply IH.
Qed.

Lemma hmm_forward_with_exact (T : matrix) (likelihoods : list vec)
      (prior : vec) (tempering : R * R) :
  hmm_forward_with xexp T likelihoods prior tempering
  = hmm_forward T likelihoods prior tempering.
Proof.
  unfold hmm_forward_with, hmm_forward. destruct tempering as [alpha beta].
  destruct likelihoods as [|l0 rest]; [reflexivity|].
  cbn [getitem nth_error Py.bind skipn].
  rewrite forward_loop_with_exact. reflexivity.
Qed.

Lemma ln_2_lt_1 : ln 2 < 1.
Proof.
  pose proof (exp_ineq1 1 ltac:(lra)) as He.
  pose proof (ln_increasing 2 (exp 1) ltac:(lra) ltac:(lra)) as Hln.
  rewrite ln_exp in Hln. exact Hln.
Qed.

Lemma ln_mono (x y : R) : 0 < x -> x <= y -> ln x <= ln y.
Proof.
  intros Hx [Hlt|Heq]; [|subst y; lra]. left. apply ln_increasing; assumption.
Qed.

Lemma xexp64_keep (x : R) : -746 <= x -> xexp64 (Fin x) = Fin (exp x).
Proof.
  intros Hx. cbn [xexp64]. destruct (Rlt_dec x (-746)); [lra | reflexivity].
Qed.

Lemma xexp64_underflow (x : R) : x < -746 -> xexp64 (Fin x) = Fin 0.
Proof.
  intros Hx. cbn [xexp64]. destruct (Rlt_dec x (-746)); [reflexivity | lra].
Qed.

(** Two finite log-weights 747 apart: after [lognormalize] the larger is
    within the range of the binary64 exponential and the smaller below
    it. *)
Lemma lognormalize_gap (x y : R) :
  y + 747 <= x ->
  exists a b,
    lognormalize [Fin x; Fin y] = [Fin a; Fin b] /\
    -746 <= a /\ b < -746.
Proof.
  intros Hgap. change [Fin x; Fin y] with (map Fin [x; y]).
  rewrite lognormalize_Fin by discriminate. cbn [map].
  eexists. eexists. split; [reflexivity|].
  change (sumR [exp x; exp y]) with (exp x + (exp y + 0)).
  pose proof (exp_pos x) as Hx. pose proof (exp_pos y) as Hy.
  assert (Hyx : exp y <= exp x).
  { destruct (Req_dec y x) as [->|Hne]; [lra|].
    left. apply exp_increasing. lra. }
  assert (Hlo : x <= ln (exp x + (exp y + 0))).
  { rewrite <- (ln_exp x) at 1. apply ln_mono; lra. }
  assert (Hhi : ln (exp x + (exp y + 0)) <= ln 2 + x).
  { rewrite <- (ln_exp x) at 2. rewrite <- ln_mult by lra.
    apply ln_mono; lra. }
  pose proof ln_2_lt_1. split; lra.
Qed.

Lemma ln_half_in_range : -746 <= ln (1 / 2).
Proof.
  replace (1 / 2) with (/ 2) by lra. rewrite ln_Rinv by lra.
  pose proof ln_2_lt_1. lra.
Qed.

Lemma T_second_underflow :
  exists row0,
    hmm_forward_with xexp64 T_second
      [[Fin 0; Fin (-10000)]; [Fin 0; Fin 0]] uniform2 (1, 1)
    = Ret [row0; [NaN; NaN]].
Proof.
  unfold hmm_forward_with.
  cbn [getitem nth_error Py.bind skipn forward_loop_with app].
  rewrite mpow_1, vpow_1. unfold uniform2, T_second. cbn [map].
  rewrite (xexp64_keep _ ln_half_in_range).
  set (h := exp (ln (1 / 2))).
  assert (Hh : 0 < h) by apply exp_pos.
  change (dot [[Fin 0; Fin 1]; [Fin 0; Fin 1]] [Fin h; Fin h])
    with [Fin (0 * h + (1 * h + 0)); Fin (0 * h + (1 * h + 0))].
  cbn [vlog map]. rewrite !xlog_pos by lra.
  cbn [vadd zip_with xadd].
  destruct (lognormalize_gap (0 + ln (0 * h + (1 * h + 0)))
              (-10000 + ln (0 * h + (1 * h + 0))))
    as (a & b & Hrow & Ha & Hb); [lra|].
  rewrite Hrow. cbn [map].
  rewrite (xexp64_keep a Ha), (xexp64_underflow b Hb).
  change (dot [[Fin 0; Fin 1]; [Fin 0; Fin 1]] [Fin (exp a); Fin 0])
    with [Fin (0 * exp a + (1 * 0 + 0)); Fin (0 * exp a + (1 * 0 + 0))].
  cbn [vlog map]. replace (0 * exp a + (1 * 0 + 0)) with 0 by lra. rewrite !xlog_zero.
  exists [Fin a; Fin b]. reflexivity.
Qed.

Lemma I2_underflow :
  exists row0,
    hmm_forward_with xexp64 I2
      [[Fin 0; Fin (-10000)]; [NegInf; Fin 0]] uniform2 (1, 1)
    = Ret [row0; [NaN; NaN]].
Proof.
  unfold hmm_forward_with.
  cbn [getitem nth_error Py.bind skipn forward_loop_with app].
  rewrite mpow_1, vpow_1. unfold uniform2, I2. cbn [map].
  rewrite (xexp64_keep _ ln_half_in_range).
  set (h := exp (ln (1 / 2))).
  assert (Hh : 0 < h) by apply exp_pos.
  change (dot [[Fin 1; Fin 0]; [Fin 0; Fin 1]] [Fin h; Fin h])
    with [Fin (1 * h + (0 * h + 0)); Fin (0 * h + (1 * h + 0))].
  cbn [vlog map]. rewrite !xlog_pos by lra.
  cbn [vadd zip_with xadd].
  replace (1 * h + (0 * h + 0)) with h by lra.
  replace (0 * h + (1 * h + 0)) with h by lra.
  destruct (lognormalize_gap (0 + ln h) (-10000 + ln h))
    as (a & b & Hrow & Ha & Hb); [lra|].
  rewrite Hrow. cbn [map].
  rewrite (xexp64_keep a Ha), (xexp64_underflow b Hb).
  change (dot [[Fin 1; Fin 0]; [Fin 0; Fin 1]] [Fin (exp a); Fin 0])
    with [Fin (1 * exp a + (0 * 0 + 0)); Fin (0 * exp a + (1 * 0 + 0))].
  cbn [vlog map].
  rewrite (xlog_pos (1 * exp a + (0 * 0 + 0)))
    by (pose proof (exp_pos a); lra).
  replace (0 * exp a + (1 * 0 + 0)) with 0 by lra. rewrite xlog_zero.
  exists [Fin a; Fin b]. reflexivity.
Qed.

Lemma T_second_nondegenerate : nondegenerate 2 T_second.
Proof.
  split; [reflexivity|].
  repeat constructor; exists [0; 1];
    (split; [reflexivity|]); (split; [reflexivity|]);
    (split; [repeat constructor; lra | right; left; lra]).
Qed.

Lemma I2_weights : weights 2 I2.
Proof.
  split; [reflexivity|].
  repeat constructor; [exists [1; 0] | exists [0; 1]];
    (split; [reflexivity|]); (split; [reflexivity|]);
    repeat constructor; lra.
Qed.

(** In exact arithmetic an impossible observation of the first state does
    not take the mass the second state keeps, however small. *)
Lemma I2_nondegenerate_run :
  nondegenerate_run I2 [[Fin 0; Fin (-10000)]; [NegInf; Fin 0]] uniform2 1 1.
Proof.
  cbn [nondegenerate_run keeps_mass]. rewrite mpow_1, vpow_1.
  unfold uniform2, I2. cbn [vexp map xexp].
  set (h := exp (ln (1 / 2))).
  assert (Hh : 0 < h) by apply exp_pos.
  change (dot [[Fin 1; Fin 0]; [Fin 0; Fin 1]] [Fin h; Fin h])
    with [Fin (1 * h + (0 * h + 0)); Fin (0 * h + (1 * h + 0))].
  cbn [vlog map]. rewrite !xlog_pos by lra.
  set (x := ln (1 * h + (0 * h + 0))). set (y := ln (0 * h + (1 * h + 0))).
  change (vadd [Fin 0; Fin (-10000)] [Fin x; Fin y])
    with (map Fin [0 + x; -10000 + y]).
  split; [left; exact I|]. split; [|exact I].
  rewrite (lognormalize_Fin [0 + x; -10000 + y]) by discriminate.
  set (c := ln (sumR (map exp [0 + x; -10000 + y]))).
  cbn [vexp map xexp].
  change (dot [[Fin 1; Fin 0]; [Fin 0; Fin 1]]
              [Fin (exp (0 + x - c)); Fin (exp (-10000 + y - c))])
    with [Fin (1 * exp (0 + x - c) + (0 * exp (-10000 + y - c) + 0));
          Fin (0 * exp (0 + x - c) + (1 * exp (-10000 + y - c) + 0))].
  pose proof (exp_pos (-10000 + y - c)) as He.
  cbn [vlog map]. rewrite (xlog_pos (0 * _ + _)) by lra.
  right. left. exact I.
Qed.

(** C3, as stated, fails on binary64. On the column-stochastic identity
    matrix with one impossible observation (a likelihood of minus
    infinity), and on a matrix of finite weights with finite likelihoods,
    the exact filter keeps a weight of about [exp (-10000)] and every row
    it writes is normalized; [numpy.exp] returns zero for that weight, all
    the weights of the second step are zero and the second row is
    not-a-number in both entries: its log-sum-exp is not 0 and its
    exponentials do not sum to 1. *)
Lemma hmm_forward_underflow_counterexample :
  (exists out,
     hmm_forward I2 [[Fin 0; Fin (-10000)]; [NegInf; Fin 0]] uniform2 (1, 1)
     = Ret out /\
     Forall (fun row => logaddexp_reduce row = Fin 0 /\
                        xsum (vexp row) = Fin 1) out) /\
  (exists row0,
     hmm_forward_with xexp64 I2
       [[Fin 0; Fin (-10000)]; [NegInf; Fin 0]] uniform2 (1, 1)
     = Ret [row0; [NaN; NaN]]) /\
  (exists out,
     hmm_forward T_second [[Fin 0; Fin (-10000)]; [Fin 0; Fin 0]] uniform2
                 (1, 1)
     = Ret out /\
     Forall (fun row => logaddexp_reduce row = Fin 0 /\
                        xsum (vexp row) = Fin 1) out) /\
  (exists row0,
     hmm_forward_with xexp64 T_second
       [[Fin 0; Fin (-10000)]; [Fin 0; Fin 0]] uniform2 (1, 1)
     = Ret [row0; [NaN; NaN]]) /\
  logaddexp_reduce [NaN; NaN] <> Fin 0 /\
  xsum (vexp [NaN; NaN]) <> Fin 1.
Proof.
  split; [|split; [|split; [|split; [|split]]]].
  - destruct (hmm_forward_log_distributions 2 I2
                [[Fin 0; Fin (-10000)]; [NegInf; Fin 0]] uniform2 1 1)
      as (out & Hcall & _ & Hrows).
    + exact I2_weights.
    + lra.
    + lra.
    + exists [Some (ln (1 / 2)); Some (ln (1 / 2))]. split; reflexivity.
    + repeat constructor;
        [exists [Some 0; Some (-10000)] | exists [None; Some 0]];
        split; reflexivity.
    + discriminate.
    + exact I2_nondegenerate_run.
    + exists out. split; [exact Hcall|].
      eapply Forall_impl; [|exact Hrows].
      intros row Hrow. exact (proj2 (log_distribution_sums 2 row Hrow)).
  - exact I2_underflow.
  - destruct (hmm_forward_finite_normalized 2 T_second
                [[Fin 0; Fin (-10000)]; [Fin 0; Fin 0]] uniform2 1 1)
      as (out & Hcall & _ & Hrows).
    + lia.
    + exact T_second_nondegenerate.
    + lra.
    + exists [ln (1 / 2); ln (1 / 2)]. split; reflexivity.
    + repeat constructor; [exists [0; -10000] | exists [0; 0]];
        split; reflexivity.
    + discriminate.
    + exists out. split; [exact Hcall | exact Hrows].
  - exact T_second_underflow.
  - discriminate.
  - discriminate.
Qed.

(** ** The backward pass *)

Lemma smart_sampling_single (row b : vec) (draws : nat -> R) (pos : nat) :
  softmax_row row = Ret b ->
  smart_sampling [row] draws pos
  = Ret ([sample_loop b (Fin (draws pos)) (Fin 0) 0], (pos + 1)%nat).
Proof.
  intros Hb. unfold smart_sampling. cbn [mapM length]. rewrite Hb.
  cbn [Py.bind]. unfold rand. cbn [seq map combine mapM fst snd].
  unfold sample. cbn [Py.bind]. rewrite Nat.add_0_r. reflexivity.
Qed.

Lemma smart_sampling_single_raise (row : vec) (e : exn) (draws : nat -> R)
      (pos : nat) :
  softmax_row row = Raise e -> smart_sampling [row] draws pos = Raise e.
Proof.
  intros Hb. unfold smart_sampling. cbn [mapM length]. rewrite Hb.
  reflexivity.
Qed.

(** A call on one row reads exactly the draw at the current position. *)
Lemma smart_sampling_single_ext (row : vec) (draws1 draws2 : nat -> R)
      (pos : nat) :
  draws1 pos = draws2 pos ->
  smart_sampling [row] draws1 pos = smart_sampling [row] draws2 pos.
Proof.
  intros Heq. destruct (softmax_row row) as [b|e] eqn:Hb.
  - rewrite !(smart_sampling_single row b _ pos Hb), Heq. reflexivity.
  - rewrite !(smart_sampling_single_raise row e _ pos Hb). reflexivity.
Qed.

Lemma smart_sampling_single_pos (row : vec) (draws : nat -> R) (pos : nat)
      (sp : list (option nat) * nat) :
  smart_sampling [row] draws pos = Ret sp -> snd sp = (pos + 1)%nat.
Proof.
  destruct (softmax_row row) as [b|e] eqn:Hb.
  - rewrite (smart_sampling_single row b _ pos Hb). intros H.
    injection H as <-. reflexivity.
  - rewrite (smart_sampling_single_raise row e _ pos Hb). discriminate.
Qed.

Lemma softmax_row_nonempty (row : vec) :
  row <> [] -> exists b, softmax_row row = Ret b.
Proof.
  destruct row as [|a row]; [congruence|]. intros _.
  unfold softmax_row, stabilized, row_max. cbn [Py.bind]. eexists. reflexivity.
Qed.

Section backward_pass.

Variable T : matrix.

(** The loop reads one draw per remaining time step. *)
Lemma backward_loop_ext (reverse : list vec) (rstates : list nat)
      (draws1 draws2 : nat -> R) (curP : list nat) :
  forall pos resample backward,
    (forall i, (i < length curP)%nat ->
               draws1 (pos + i)%nat = draws2 (pos + i)%nat) ->
    backward_loop T curP reverse rstates draws1 pos resample backward
    = backward_loop T curP reverse rstates draws2 pos resample backward.
Proof.
  induction curP as [|curT curP IH]; intros pos resample backward Hagree;
    cbn [backward_loop]; [reflexivity|].
  destruct (getitem rstates curT) as [s|e]; [|reflexivity]. cbn [Py.bind].
  destruct (getitem T s) as [row|e]; [|reflexivity]. cbn [Py.bind].
  destruct (getitem reverse curT) as [p2|e]; [|reflexivity]. cbn [Py.bind].
  rewrite (smart_sampling_single_ext _ draws1 draws2 pos).
  2:{ specialize (Hagree 0%nat ltac:(cbn; lia)).
      rewrite Nat.add_0_r in Hagree. exact Hagree. }
  destruct (smart_sampling _ draws2 pos) as [sp|e] eqn:Hsp; [|reflexivity].
  cbn [Py.bind]. destruct (getitem (fst sp) 0) as [s0|e]; [|reflexivity].
  cbn [Py.bind]. rewrite (smart_sampling_single_pos _ _ _ _ Hsp).
  apply IH. intros i Hi.
  specialize (Hagree (S i) ltac:(cbn; lia)).
  replace (pos + 1 + i)%nat with (pos + S i)%nat by lia. exact Hagree.
Qed.

(** C8. Two calls of the backward sampler on the same forward
    distributions, the same realized states and the same [T], reading two
    streams that hold the same uniform draws at the positions the call
    consumes (one per time step), have the same outcome: the same sampled
    trajectory and the same smoothing distributions. *)
Theorem hmm_backward_deterministic (forward : list vec) (states : list nat)
        (draws1 draws2 : nat -> R) (pos : nat) :
  (forall i, (i < length forward)%nat ->
             draws1 (pos + i)%nat = draws2 (pos + i)%nat) ->
  hmm_backward T forward states draws1 pos
  = hmm_backward T forward states draws2 pos.
Proof.
  intros Hagree. unfold hmm_backward.
  destruct (getitem (seq 0 (length forward)) 0) as [t0|e] eqn:Ht0;
    [|reflexivity].
  cbn [Py.bind].
  destruct (getitem (rev forward) t0) as [first|e]; [|reflexivity].
  cbn [Py.bind].
  assert (HL : (0 < length forward)%nat).
  { destruct forward; [discriminate Ht0 | cbn; lia]. }
  rewrite (smart_sampling_single_ext first draws1 draws2 pos).
  2:{ specialize (Hagree 0%nat HL). rewrite Nat.add_0_r in Hagree.
      exact Hagree. }
  destruct (smart_sampling [first] draws2 pos) as [sp|e] eqn:Hsp;
    [|reflexivity].
  cbn [Py.bind]. destruct (getitem (fst sp) 0) as [s0|e]; [|reflexivity].
  cbn [Py.bind]. rewrite (smart_sampling_single_pos _ _ _ _ Hsp).
  rewrite (backward_loop_ext (rev forward) (rev states) draws1 draws2);
    [reflexivity|].
  intros i Hi. rewrite length_skipn, length_seq in Hi.
  replace (pos + 1 + i)%nat with (pos + S i)%nat by lia.
  apply Hagree. lia.
Qed.

Lemma getitem_nth {A : Type} (xs : list A) (i : nat) (d : A) :
  (i < length xs)%nat -> getitem xs i = Ret (nth i xs d).
Proof.
  intros Hi. unfold getitem.
  rewrite (nth_error_nth' xs d Hi). reflexivity.
Qed.

Lemma backward_loop_spec (reverse : list vec) (rstates : list nat)
      (draws : nat -> R) (n : nat) :
  forall k pos resample backward,
    (k + n <= length rstates)%nat ->
    (k + n <= length reverse)%nat ->
    (forall c, (k <= c < k + n)%nat ->
               (nth c rstates 0 < length T)%nat) ->
    (forall c, (k <= c < k + n)%nat ->
               backward_value T reverse rstates c <> []) ->
    backward_loop T (seq k n) reverse rstates draws pos resample backward
    = Ret (resample
             ++ map (fun i => draw_from
                                (backward_value T reverse rstates (k + i))
                                (draws (pos + i)%nat))
                    (seq 0 n),
           backward ++ map (backward_value T reverse rstates) (seq k n),
           (pos + n)%nat).
Proof.
  induction n as [|n IH]; intros k pos resample backward Hst Hrev Hidx Hne.
  - cbn [seq backward_loop map]. rewrite !app_nil_r, Nat.add_0_r.
    reflexivity.
  - cbn [seq backward_loop].
    rewrite (getitem_nth rstates k 0%nat) by lia. cbn [Py.bind].
    rewrite (getitem_nth T (nth k rstates 0%nat) [])
      by (apply Hidx; lia).
    cbn [Py.bind].
    rewrite (getitem_nth reverse k []) by lia. cbn [Py.bind].
    fold (backward_value T reverse rstates k).
    destruct (softmax_row_nonempty (backward_value T reverse rstates k))
      as [b Hb]; [apply Hne; lia|].
    rewrite (smart_sampling_single _ b draws pos Hb).
    cbn [Py.bind fst snd]. unfold getitem at 1. cbn [nth_error Py.bind].
    rewrite IH; try lia.
    + f_equal. f_equal; [f_equal|].
      * rewrite <- app_assoc. f_equal. cbn [map app].
        f_equal.
        -- unfold draw_from. rewrite Nat.add_0_r, Nat.add_0_r, Hb.
           reflexivity.
        -- rewrite <- seq_shift, map_map. apply map_ext. intros i.
           f_equal; [f_equal; lia | f_equal; lia].
      * rewrite <- app_assoc. reflexivity.
      * lia.
    + intros c Hc. apply Hidx. lia.
    + intros c Hc. apply Hne. lia.
Qed.

Lemma nth_cons_map_seq {A : Type} (x : A) (g : nat -> A) (n j : nat) (d : A) :
  (j <= n)%nat ->
  nth j (x :: map g (seq 1 n)) d = match j with O => x | S _ => g j end.
Proof.
  intros Hj. destruct j as [|j]; cbn [nth]; [reflexivity|].
  rewrite (nth_indep _ d (g 0%nat)) by (rewrite length_map, length_seq; lia).
  rewrite map_nth, seq_nth by lia. reflexivity.
Qed.

Lemma lognormalize_nonempty (v : vec) : v <> [] -> lognormalize v <> [].
Proof.
  destruct v; [congruence|]. intros _. unfold lognormalize. discriminate.
Qed.

Lemma vadd_nonempty (u v : vec) : u <> [] -> v <> [] -> vadd u v <> [].
Proof.
  destruct u, v; try congruence. intros _ _. discriminate.
Qed.

Lemma vlog_nonempty (v : vec) : v <> [] -> vlog v <> [].
Proof.
  destruct v; [congruence|]. intros _. discriminate.
Qed.

(** What a call of the backward sampler returns on well-formed input:
    the last smoothing row is the last forward row, the smoothing row at
    an earlier time [t] combines [forward[t]] with the row of [T] indexed
    by [states[t]], and each sampled state is drawn from its smoothing
    row with the draws taken in reverse time order. *)
Lemma hmm_backward_spec (forward : list vec) (states : list nat)
      (draws : nat -> R) (pos : nat) :
  let L := length forward in
  (1 <= L)%nat ->
  length states = L ->
  (forall t, (t < L - 1)%nat -> (nth t states 0 < length T)%nat) ->
  (forall row, In row T -> row <> []) ->
  (forall row, In row forward -> row <> []) ->
  exists traj smooth,
    hmm_backward T forward states draws pos
    = Ret (traj, smooth, (pos + L)%nat) /\
    length traj = L /\ length smooth = L /\
    nth (L - 1) smooth [] = nth (L - 1) forward [] /\
    (forall t, (t < L - 1)%nat ->
       nth t smooth []
       = lognormalize
           (vadd (vlog (nth (nth t states 0%nat) T [])) (nth t forward []))) /\
    (forall t, (t < L)%nat ->
       nth t traj None
       = draw_from (nth t smooth []) (draws (pos + (L - 1 - t))%nat)).
Proof.
  intros L HL Hstates Hidx HT Hfwd.
  set (reverse := rev forward). set (rstates := rev states).
  set (first := nth 0 reverse []).
  set (g := fun c => match c with
                     | O => first
                     | S _ => backward_value T reverse rstates c
                     end).
  assert (Hrevlen : length reverse = L) by (unfold reverse; apply length_rev).
  assert (Hrstlen : length rstates = L)
    by (unfold rstates; rewrite length_rev; exact Hstates).
  assert (Hin_rev : forall c, (c < L)%nat -> nth c reverse [] <> []).
  { intros c Hc. apply Hfwd. apply in_rev. fold reverse.
    apply nth_In. lia. }
  assert (Hrst : forall c, (c < L)%nat ->
             nth c rstates 0%nat = nth (L - S c) states 0%nat).
  { intros c Hc. unfold rstates. rewrite rev_nth by lia.
    rewrite Hstates. reflexivity. }
  assert (Hrev : forall c, (c < L)%nat ->
             nth c reverse [] = nth (L - S c) forward []).
  { intros c Hc. unfold reverse. rewrite rev_nth by (fold L; lia).
    reflexivity. }
  assert (Hval : forall c, (1 <= c < L)%nat ->
             backward_value T reverse rstates c <> []).
  { intros c Hc. unfold backward_value.
    apply lognormalize_nonempty, vadd_nonempty; [apply vlog_nonempty|].
    - apply HT. apply nth_In. rewrite Hrst by lia. apply Hidx. lia.
    - apply Hin_rev. lia. }
  destruct (softmax_row_nonempty first) as [b Hb]; [apply Hin_rev; lia|].
  exists (rev (map (fun c => draw_from (g c) (draws (pos + c)%nat)) (seq 0 L))).
  exists (rev (map g (seq 0 L))).
  split; [|split; [|split; [|split; [|split]]]].
  - unfold hmm_backward. fold L reverse rstates.
    destruct L as [|n] eqn:HLn; [lia|].
    cbn [seq skipn]. unfold getitem at 1. cbn [nth_error Py.bind].
    rewrite (getitem_nth reverse 0 []) by lia. cbn [Py.bind]. fold first.
    rewrite (smart_sampling_single first b draws pos Hb).
    cbn [Py.bind fst snd]. unfold getitem at 1. cbn [nth_error Py.bind].
    rewrite backward_loop_spec; try lia.
    + cbn [Py.bind]. f_equal. f_equal; [f_equal|].
      * f_equal. cbn [map app]. f_equal.
        -- unfold draw_from, g. rewrite Nat.add_0_r, Hb. reflexivity.
        -- rewrite <- seq_shift, !map_map. apply map_ext. intros i.
           unfold g. f_equal; f_equal; lia.
      * f_equal. cbn [map app]. f_equal.
        apply map_ext_in. intros c Hc. apply in_seq in Hc.
        unfold g. destruct c; [lia | reflexivity].
      * lia.
    + intros c Hc. rewrite Hrst by lia. apply Hidx. lia.
    + intros c Hc. apply Hval. lia.
  - rewrite length_rev, length_map, length_seq. reflexivity.
  - rewrite length_rev, length_map, length_seq. reflexivity.
  - rewrite rev_nth by (rewrite length_map, length_seq; lia).
    rewrite length_map, length_seq.
    rewrite (nth_indep _ [] (g 0%nat)) by (rewrite length_map, length_seq; lia).
    rewrite map_nth, seq_nth by lia.
    replace (L - S (L - 1))%nat with 0%nat by lia.
    cbn [Nat.add]. unfold g, first. rewrite Hrev by lia.
    reflexivity.
  - intros t Ht.
    rewrite rev_nth by (rewrite length_map, length_seq; lia).
    rewrite length_map, length_seq.
    rewrite (nth_indep _ [] (g 0%nat)) by (rewrite length_map, length_seq; lia).
    rewrite map_nth, seq_nth by lia. cbn [Nat.add].
    unfold g. destruct (L - S t)%nat as [|c] eqn:Hc; [lia|].
    unfold backward_value. rewrite Hrst, Hrev by lia.
    replace (L - S (S c))%nat with t by lia. reflexivity.
  - intros t Ht.
    rewrite !rev_nth by (rewrite length_map, length_seq; lia).
    rewrite !length_map, !length_seq.
    rewrite (nth_indep _ [] (g 0%nat)) by (rewrite length_map, length_seq; lia).
    rewrite (nth_indep _ None
               ((fun c => draw_from (g c) (draws (pos + c)%nat)) 0%nat))
      by (rewrite length_map, length_seq; lia).
    rewrite (map_nth (fun c => draw_from (g c) (draws (pos + c)%nat))).
    rewrite map_nth, seq_nth by lia. cbn [Nat.add].
    f_equal. f_equal. lia.
Qed.

End backward_pass.

Lemma hmm_backward_deterministic_witness :
  (forall i, (i < length [[Fin 0]; [Fin 0]])%nat ->
     (fun _ : nat => 1 / 2) (0 + i)%nat
     = (fun n : nat => if (n <? 2)%nat then 1 / 2 else 0) (0 + i)%nat) /\
  hmm_backward [[Fin 1]] [[Fin 0]; [Fin 0]] [0%nat; 0%nat]
               (fun _ : nat => 1 / 2) 0
  = hmm_backward [[Fin 1]] [[Fin 0]; [Fin 0]] [0%nat; 0%nat]
                 (fun n : nat => if (n <? 2)%nat then 1 / 2 else 0) 0.
Proof.
  assert (Hagree : forall i, (i < length [[Fin 0]; [Fin 0]])%nat ->
            (fun _ : nat => 1 / 2) (0 + i)%nat
            = (fun n : nat => if (n <? 2)%nat then 1 / 2 else 0) (0 + i)%nat).
  { intros i Hi. cbn [length] in Hi. cbn [Nat.add].
    destruct i as [|[|i]]; [reflexivity | reflexivity | lia]. }
  split; [exact Hagree|].
  apply (hmm_backward_deterministic [[Fin 1]] [[Fin 0]; [Fin 0]]
           [0%nat; 0%nat] _ _ 0 Hagree).
Defined.

(** ** The row of [T] read by the backward pass *)

(** C1 fails on the code. With the forward rows [uniform2; uniform2] and the
    realized states [0; 1], the smoothing row at time 0 is computed from row
    [states[0] = 0] of [T], the state of the same time step, and differs
    from the row the claim describes, which reads [T[states[1]]]. *)
Theorem hmm_backward_reads_current_state (draws : nat -> R) (pos : nat) :
  exists traj smooth pos',
    hmm_backward T_bias [uniform2; uniform2] [0%nat; 1%nat] draws pos
    = Ret (traj, smooth, pos') /\
    nth 0 smooth []
    = lognormalize (vadd (vlog (nth 0 T_bias [])) uniform2) /\
    nth 0 smooth []
    <> lognormalize (vadd (vlog (nth 1 T_bias [])) uniform2).
Proof.
  destruct (hmm_backward_spec T_bias [uniform2; uniform2] [0%nat; 1%nat]
              draws pos)
    as (traj & smooth & Hcall & _ & _ & _ & Hsmooth & _).
  - cbn. lia.
  - reflexivity.
  - intros t Ht. cbn in Ht. assert (t = 0%nat) as -> by lia. cbn. lia.
  - intros row [<-|[<-|[]]]; discriminate.
  - intros row [<-|[<-|[]]]; discriminate.
  - exists traj, smooth, (pos + 2)%nat.
    specialize (Hsmooth 0%nat ltac:(cbn; lia)). cbn [nth] in Hsmooth.
    split; [exact Hcall|]. split; [exact Hsmooth|].
    rewrite Hsmooth. cbn [nth T_bias vlog map uniform2 vadd zip_with].
    rewrite !xlog_pos by lra. cbn [xadd].
    change [Fin (ln (3 / 4) + ln (1 / 2)); Fin (ln (1 / 4) + ln (1 / 2))]
      with (map Fin [ln (3 / 4) + ln (1 / 2); ln (1 / 4) + ln (1 / 2)]).
    change [Fin (ln (1 / 4) + ln (1 / 2)); Fin (ln (3 / 4) + ln (1 / 2))]
      with (map Fin [ln (1 / 4) + ln (1 / 2); ln (3 / 4) + ln (1 / 2)]).
    rewrite !lognormalize_Fin by discriminate.
    cbn [map]. rewrite !sumR_cons. change (sumR []) with 0.
    intros Heq. injection Heq as Heq _.
    replace (exp (ln (1 / 4) + ln (1 / 2)) + (exp (ln (3 / 4) + ln (1 / 2)) + 0))
      with (exp (ln (3 / 4) + ln (1 / 2)) + (exp (ln (1 / 4) + ln (1 / 2)) + 0))
      in Heq by lra.
    assert (Hln : ln (3 / 4) = ln (1 / 4)) by lra.
    apply ln_inv in Hln; lra.
Qed.

(** ** Identity transitions *)


Lemma xpow_zero (beta : R) : 0 < beta -> xpow (Fin 0) beta = Fin 0.
Proof.
  intros Hb. unfold xpow. destruct (Req_dec_T beta 0); [lra|].
  destruct (Rlt_dec 0 0); [lra|].
  destruct (Req_dec_T 0 0); [|lra].
  destruct (Rlt_dec 0 beta); [reflexivity | lra].
Qed.









(** *** A trajectory that switches state *)









(** ** The fixed-bias transition matrix *)

Lemma setitem_middle {A : Type} (pre rest : list A) (y x : A) :
  setitem (pre ++ y :: rest) (length pre) x = pre ++ x :: rest.
Proof.
  induction pre as [|p pre IH]; cbn [app length setitem]; [reflexivity|].
  rewrite IH. reflexivity.
Qed.

Lemma setitem_length {A : Type} (xs : list A) (i : nat) (x : A) :
  length (setitem xs i x) = length xs.
Proof.
  revert i. induction xs as [|y xs IH]; intros [|i]; cbn [setitem length];
    try reflexivity.
  rewrite IH. reflexivity.
Qed.

Lemma setitem_map_Fin (xs : list R) (i : nat) (x : R) :
  setitem (map Fin xs) i (Fin x) = map Fin (setitem xs i x).
Proof.
  revert i. induction xs as [|y xs IH]; intros [|i]; cbn [setitem map];
    try reflexivity.
  rewrite IH. reflexivity.
Qed.

Lemma nth_setitem {A : Type} (xs : list A) (i j : nat) (x d : A) :
  (i < length xs)%nat ->
  nth j (setitem xs i x) d = if (j =? i)%nat then x else nth j xs d.
Proof.
  revert i j. induction xs as [|y xs IH]; intros i j Hi; cbn [length] in Hi;
    [lia|].
  destruct i as [|i]; destruct j as [|j]; cbn [setitem nth Nat.eqb];
    try reflexivity.
  apply IH. lia.
Qed.

Lemma sumR_setitem (xs : list R) (i : nat) (x : R) :
  (i < length xs)%nat ->
  sumR (setitem xs i x) = sumR xs - nth i xs 0 + x.
Proof.
  revert i. induction xs as [|y xs IH]; intros i Hi; cbn [length] in Hi;
    [lia|].
  destruct i as [|i]; cbn [setitem nth]; rewrite !sumR_cons.
  - lra.
  - rewrite IH by lia. lra.
Qed.

Lemma sumR_repeat (f : R) (N : nat) : sumR (repeat f N) = INR N * f.
Proof.
  induction N as [|N IH]; [cbn; lra|].
  cbn [repeat]. rewrite sumR_cons, IH, S_INR. lra.
Qed.

Lemma map_nth_seq {A : Type} (l : list A) (d : A) :
  map (fun i => nth i l d) (seq 0 (length l)) = l.
Proof.
  induction l as [|x l IH]; [reflexivity|].
  cbn [length seq map nth]. f_equal.
  rewrite <- seq_shift, map_map. exact IH.
Qed.

Lemma fill_row_middle (N : nat) (fill bias : R) (pre rest : matrix) (y : vec) :
  fill_row N fill bias (pre ++ y :: rest) (length pre)
  = pre ++ bias_row N fill bias (length pre) :: rest.
Proof.
  unfold fill_row. cbv zeta. rewrite !setitem_middle, nth_middle.
  reflexivity.
Qed.

(** The loop fills the rows in index order. *)
Lemma fill_loop_spec (N : nat) (fill bias : R) (n : nat) :
  forall k pre,
    length pre = k ->
    fold_left (fill_row N fill bias) (seq k n)
              (pre ++ repeat (repeat (Fin 0) N) n)
    = pre ++ map (bias_row N fill bias) (seq k n).
Proof.
  induction n as [|n IH]; intros k pre Hk; [reflexivity|].
  cbn [seq repeat fold_left map]. subst k.
  rewrite fill_row_middle.
  assert (Hsplit : forall (x : vec) (rest : matrix),
            pre ++ x :: rest = (pre ++ [x]) ++ rest)
    by (intros; rewrite <- app_assoc; reflexivity).
  rewrite Hsplit.
  rewrite (IH (S (length pre))).
  - rewrite <- app_assoc. reflexivity.
  - rewrite length_app. cbn. lia.
Qed.

Lemma bias_row_length (N : nat) (fill bias : R) (i : nat) :
  length (bias_row N fill bias i) = N.
Proof.
  unfold bias_row. rewrite setitem_length, repeat_length. reflexivity.
Qed.

Lemma bias_row_sum (N : nat) (fill bias : R) (i : nat) :
  (i < N)%nat ->
  xsum (bias_row N fill bias i) = Fin ((INR N - 1) * fill + bias).
Proof.
  intros Hi. unfold bias_row.
  replace (repeat (Fin fill) N) with (map Fin (repeat fill N))
    by (rewrite map_repeat; reflexivity).
  rewrite setitem_map_Fin, xsum_Fin, sumR_setitem
    by (rewrite repeat_length; exact Hi).
  rewrite sumR_repeat, nth_repeat_lt by exact Hi. f_equal. lra.
Qed.

(** The columns of the transposed matrix are the rows the loop wrote. *)
Lemma column_transpose (N : nat) (rows : nat -> vec) (j : nat) :
  (j < N)%nat ->
  (forall i, length (rows i) = N) ->
  column j (transpose N (map rows (seq 0 N))) = rows j.
Proof.
  intros Hj Hlen. unfold column, transpose. rewrite map_map.
  transitivity (map (fun i => nth i (rows j) (Fin 0)) (seq 0 N)).
  - apply map_ext_in. intros i Hi. rewrite map_map.
    rewrite (nth_indep _ (Fin 0)
               ((fun x => nth i (rows x) (Fin 0)) 0%nat))
      by (rewrite length_map, length_seq; exact Hj).
    rewrite (map_nth (fun x => nth i (rows x) (Fin 0))).
    rewrite seq_nth by exact Hj. reflexivity.
  - rewrite <- (Hlen j) at 1. apply map_nth_seq.
Qed.

(** The matrix returned for [n >= 0] once the fill value is computed. *)
Lemma generate_0d_T_mat_rows (n : Z) (bias fill : pynum) :
  (0 <= n)%Z ->
  fill_value n bias = Ret fill ->
  generate_0d_T_mat n bias
  = Ret (transpose (Z.to_nat n)
           (map (bias_row (Z.to_nat n) (to_float fill) (to_float bias))
                (seq 0 (Z.to_nat n)))).
Proof.
  intros Hn Hfill. unfold generate_0d_T_mat.
  destruct (n <? 0)%Z eqn:Hneg; [apply Z.ltb_lt in Hneg; lia|].
  cbv zeta. rewrite Hfill. cbn [Py.bind]. unfold zeros.
  change (repeat (repeat (Fin 0) (Z.to_nat n)) (Z.to_nat n))
    with ([] ++ repeat (repeat (Fin 0) (Z.to_nat n)) (Z.to_nat n)).
  rewrite (fill_loop_spec (Z.to_nat n) _ _ (Z.to_nat n) 0 [])
    by reflexivity.
  reflexivity.
Qed.

(** C10 fails on the code. With [n = 3] and the integer bias [0] the fill
    value is the floor division [(1 - 0) / (3 - 1) = 0]: the call returns
    the 3-by-3 matrix of zeros, and each of its columns sums to 0, not to
    1. (For [n = 1] the same division raises [ZeroDivisionError], as the
    claim says.) *)
Theorem generate_0d_T_mat_integer_bias :
  fill_value 3 (PyInt 0) = Ret (PyInt 0) /\
  generate_0d_T_mat 3 (PyInt 0) = Ret (zeros 3) /\
  (forall j, (j < 3)%nat ->
     xsum (column j (zeros 3)) = Fin 0 /\
     xsum (column j (zeros 3)) <> Fin 1) /\
  generate_0d_T_mat 1 (PyInt 0) = Raise ZeroDivisionError.
Proof.
  split; [reflexivity|]. split; [|split; [|reflexivity]].
  - rewrite (generate_0d_T_mat_rows 3 (PyInt 0) (PyInt 0))
      by (try lia; reflexivity).
    reflexivity.
  - intros j Hj.
    assert (Hsum : xsum (column j (zeros 3)) = Fin 0).
    { destruct j as [|[|[|j]]]; [| | |lia];
        cbn [zeros repeat column map nth xsum fold_right xadd];
        f_equal; lra. }
    rewrite Hsum. split; [reflexivity|].
    intros H. injection H as H. lra.
Qed.

(** * Further properties of the code *)

(** ** [sample]: the index returned *)

Lemma sample_loop_some (r : xreal) (v : vec) :
  forall (acc : xreal) (i0 j : nat),
    sample_loop v r acc i0 = Some j ->
    exists k, j = (i0 + k)%nat /\ (k < length v)%nat /\
      xleb r (fold_left xadd (firstn (S k) v) acc) = true /\
      forall k', (k' < k)%nat ->
        xleb r (fold_left xadd (firstn (S k') v) acc) = false.
Proof.
  induction v as [|a v IH]; intros acc i0 j Hs; cbn [sample_loop] in Hs;
    [discriminate|].
  destruct (xleb r (xadd acc a)) eqn:Hcmp.
  - injection Hs as <-. exists 0%nat. cbn [length firstn fold_left].
    repeat split; try lia. exact Hcmp.
  - destruct (IH _ _ _ Hs) as (k & -> & Hk & Hreach & Hbefore).
    exists (S k). cbn [length]. repeat split; try lia.
    + exact Hreach.
    + intros [|k'] Hlt; [exact Hcmp|]. apply Hbefore. lia.
Qed.

(** X1. [sample v r] returns the index [i] exactly when [i] is the first
    index at which the running sum of [v] reaches the draw [r]. *)
Theorem sample_some_iff (v : vec) (r : xreal) (i : nat) :
  sample v r = Ret (Some i) <->
  (i < length v)%nat /\
  xleb r (rolling_sum v (S i)) = true /\
  (forall j, (j < i)%nat -> xleb r (rolling_sum v (S j)) = false).
Proof.
  unfold sample, rolling_sum. split.
  - intros H. injection H as H.
    destruct (sample_loop_some r v _ _ _ H) as (k & Hk & Hlen & Hreach & Hb).
    cbn [Nat.add] in Hk. subst k. auto.
  - intros (Hlen & Hreach & Hbefore).
    destruct (sample_loop_first r v (Fin 0) 0 i Hlen Hreach)
      as (j & Hji & Hs & Hj & _).
    destruct (Nat.eq_dec j i) as [->|Hne].
    + rewrite Hs. reflexivity.
    + specialize (Hbefore j ltac:(lia)). congruence.
Qed.

(** X2. [sample v r] returns [None] exactly when the running sum of [v]
    stays below the draw [r] at every index (or cannot be compared with
    it). *)
Theorem sample_none_iff (v : vec) (r : xreal) :
  sample v r = Ret None <-> never_reaches v r.
Proof.
  unfold sample. split.
  - intros H. injection H as H. intros i Hi.
    destruct (xleb r (rolling_sum v (S i))) eqn:Hcmp; [|reflexivity].
    destruct (sample_loop_first r v (Fin 0) 0 i Hi Hcmp) as (j & _ & Hs & _).
    congruence.
  - intros Hnever. f_equal. apply sample_loop_none. exact Hnever.
Qed.

(** ** [smart_sampling]: the softmax of a row *)

Lemma softmax_row_Fin (a : R) (xs : list R) :
  let m := fold_left Rmax xs a in
  let d := sumR (map (fun x => exp (x - m)) (a :: xs)) in
  softmax_row (map Fin (a :: xs))
  = Ret (map Fin (map (fun x => exp (x - m) / d) (a :: xs))).
Proof.
  intros m d. unfold softmax_row. rewrite stabilized_Fin. fold m.
  cbn [Py.bind]. rewrite xsum_Fin. fold d. f_equal. rewrite !map_map.
  apply map_ext. intros x. unfold xdiv.
  assert (Hd : 1 <= d)
    by (apply sumR_exp_shift_ge_1; apply (fold_Rmax_spec xs a)).
  destruct (Req_dec_T d 0); [lra | reflexivity].
Qed.

Lemma sumR_map_div (E : list R) (d : R) :
  sumR (map (fun e => e / d) E) = sumR E / d.
Proof.
  induction E as [|e E IH]; cbn [map]; [cbn; lra|].
  rewrite !sumR_cons, IH. lra.
Qed.

Lemma softmax_row_probabilities (xs : list R) :
  xs <> [] ->
  exists B,
    softmax_row (map Fin xs) = Ret (map Fin B) /\
    length B = length xs /\
    Forall (fun p => 0 < p) B /\
    sumR B = 1.
Proof.
  destruct xs as [|a xs]; [congruence|]. intros _.
  set (m := fold_left Rmax xs a).
  set (E := map (fun x => exp (x - m)) (a :: xs)).
  assert (Hd : 1 <= sumR E)
    by (apply sumR_exp_shift_ge_1; apply (fold_Rmax_spec xs a)).
  exists (map (fun x => exp (x - m) / sumR E) (a :: xs)).
  split; [apply softmax_row_Fin|]. split; [apply length_map|]. split.
  - apply Forall_forall. intros p Hp. apply in_map_iff in Hp.
    destruct Hp as (x & <- & _). pose proof (exp_pos (x - m)).
    apply Rdiv_lt_0_compat; lra.
  - replace (map (fun x => exp (x - m) / sumR E) (a :: xs))
      with (map (fun e => e / sumR E) E)
      by (unfold E; rewrite map_map; reflexivity).
    rewrite sumR_map_div. field. lra.
Qed.

(** X3. On a non-empty row of finite log-weights, lines 96-97 of
    [smart_sampling] produce a probability row: as many entries as the
    input, each finite and positive, summing to 1. *)
Theorem softmax_row_distribution (xs : list R) :
  xs <> [] ->
  exists B,
    softmax_row (map Fin xs) = Ret (map Fin B) /\
    length B = length xs /\
    Forall (fun p => 0 < p) B /\
    sumR B = 1.
Proof.
  exact (softmax_row_probabilities xs).
Qed.

Lemma softmax_row_distribution_witness :
  exists B,
    softmax_row (map Fin [0; -1]) = Ret (map Fin B) /\
    length B = length [0; -1] /\
    Forall (fun p => 0 < p) B /\
    sumR B = 1.
Proof.
  apply (softmax_row_distribution [0; -1]). discriminate.
Defined.

Lemma Rmax_shift (a x c : R) : Rmax (a + c) (x + c) = Rmax a x + c.
Proof.
  unfold Rmax. destruct (Rle_dec (a + c) (x + c)), (Rle_dec a x); lra.
Qed.

Lemma fold_Rmax_shift (xs : list R) (a c : R) :
  fold_left Rmax (map (fun x => x + c) xs) (a + c) = fold_left Rmax xs a + c.
Proof.
  revert a. induction xs as [|x xs IH]; intros a; cbn [map fold_left];
    [reflexivity|].
  rewrite Rmax_shift. apply IH.
Qed.

(** Adding a constant to every log-weight of a row leaves its softmax
    unchanged. *)
Lemma softmax_row_shift (xs : list R) (c : R) :
  softmax_row (map Fin (map (fun x => x + c) xs)) = softmax_row (map Fin xs).
Proof.
  destruct xs as [|a xs]; [reflexivity|].
  change (map (fun x => x + c) (a :: xs))
    with (a + c :: map (fun x => x + c) xs).
  rewrite (softmax_row_Fin (a + c) (map (fun x => x + c) xs)).
  rewrite (softmax_row_Fin a xs). rewrite fold_Rmax_shift.
  set (m := fold_left Rmax xs a).
  assert (Hsum :
    sumR (map (fun x => exp (x - (m + c))) (a + c :: map (fun x => x + c) xs))
    = sumR (map (fun x => exp (x - m)) (a :: xs))).
  { change (a + c :: map (fun x => x + c) xs)
      with (map (fun x => x + c) (a :: xs)).
    rewrite map_map. f_equal. apply map_ext. intros x. f_equal. lra. }
  rewrite Hsum.
  change (a + c :: map (fun x => x + c) xs)
    with (map (fun x => x + c) (a :: xs)).
  rewrite (map_map (fun x => x + c)). do 2 f_equal.
  apply map_ext. intros x. f_equal. f_equal. lra.
Qed.

(** ** [smart_sampling]: a batch of rows *)

Lemma mapM_ret_in {A B : Type} (f : A -> result B) (g : A -> B) (l : list A) :
  (forall x, In x l -> f x = Ret (g x)) -> mapM f l = Ret (map g l).
Proof.
  induction l as [|x l IH]; intros Hf; cbn [mapM map]; [reflexivity|].
  rewrite (Hf x) by (left; reflexivity). cbn [Py.bind].
  rewrite IH by (intros y Hy; apply Hf; right; exact Hy). reflexivity.
Qed.

Lemma softmax_row_values (row : vec) :
  row <> [] -> softmax_row row = Ret (softmax_values row).
Proof.
  intros Hne. destruct (softmax_row_nonempty row Hne) as [b Hb].
  unfold softmax_values. rewrite Hb. reflexivity.
Qed.

Lemma softmax_row_empty : softmax_row [] = Raise ValueError.
Proof. reflexivity. Qed.

Lemma mapM_softmax_row_empty (A : matrix) :
  In [] A -> mapM softmax_row A = Raise ValueError.
Proof.
  induction A as [|row A IH]; intros Hin; [contradiction|].
  cbn [mapM]. destruct row as [|a row].
  - reflexivity.
  - rewrite (softmax_row_values (a :: row)) by discriminate. cbn [Py.bind].
    rewrite IH; [reflexivity|].
    destruct Hin as [Heq|Hin]; [discriminate | exact Hin].
Qed.

Lemma smart_sampling_rows (A : matrix) (draws : nat -> R) (pos : nat) :
  (forall row, In row A -> row <> []) ->
  exists out,
    smart_sampling A draws pos = Ret (out, (pos + length A)%nat) /\
    length out = length A /\
    forall i, (i < length A)%nat ->
      nth i out None = draw_from (nth i A []) (draws (pos + i)%nat).
Proof.
  intros Hrows.
  set (flips := map (fun i => Fin (draws (pos + i)%nat)) (seq 0 (length A))).
  set (pick := fun br : vec * xreal => sample_loop (fst br) (snd br) (Fin 0) 0).
  exists (map pick (combine (map softmax_values A) flips)).
  assert (Hlen : length (combine (map softmax_values A) flips) = length A).
  { rewrite length_combine. unfold flips.
    rewrite !length_map, length_seq. lia. }
  split; [|split].
  - unfold smart_sampling.
    rewrite (mapM_ret_in softmax_row softmax_values A)
      by (intros row Hin; apply softmax_row_values, Hrows, Hin).
    cbn [Py.bind]. unfold rand. fold flips.
    rewrite (mapM_ret_in _ pick) by (intros br _; reflexivity).
    reflexivity.
  - rewrite length_map. exact Hlen.
  - intros i Hi.
    rewrite (nth_indep _ None (pick ([], Fin 0)))
      by (rewrite length_map; lia).
    rewrite map_nth, combine_nth
      by (unfold flips; rewrite !length_map, length_seq; reflexivity).
    unfold pick. cbn [fst snd].
    rewrite (nth_indep (map softmax_values A) [] (softmax_values []))
      by (rewrite length_map; exact Hi).
    rewrite map_nth. unfold flips.
    rewrite (nth_indep _ (Fin 0) (Fin (draws (pos + 0)%nat)))
      by (rewrite length_map, length_seq; exact Hi).
    rewrite (map_nth (fun i => Fin (draws (pos + i)%nat))).
    rewrite seq_nth by exact Hi. cbn [Nat.add].
    unfold draw_from, softmax_values.
    destruct (softmax_row_nonempty (nth i A [])) as [b Hb];
      [apply Hrows, nth_In, Hi|].
    rewrite Hb. reflexivity.
Qed.

(** X4. On a batch of rows of the same length [S >= 1],
    [smart_sampling] returns one sample per row and advances the random
    stream by one draw per row: the sample of row [i] is the index [sample]
    finds in the softmax of that row with the [i]-th draw read. *)
Theorem smart_sampling_batch (S : nat) (A : matrix) (draws : nat -> R)
        (pos : nat) :
  (1 <= S)%nat ->
  Forall (fun row => length row = S) A ->
  exists out,
    smart_sampling A draws pos = Ret (out, (pos + length A)%nat) /\
    length out = length A /\
    forall i, (i < length A)%nat ->
      nth i out None = draw_from (nth i A []) (draws (pos + i)%nat).
Proof.
  intros HS Hrows. apply smart_sampling_rows. intros row Hin ->.
  pose proof (proj1 (Forall_forall _ _) Hrows [] Hin) as Hlen.
  cbn in Hlen. lia.
Qed.

Lemma smart_sampling_batch_witness :
  exists out,
    smart_sampling [[Fin 0; Fin 0]; [Fin 1; Fin 0]] (fun _ => 1 / 2) 3
    = Ret (out, (3 + length [[Fin 0; Fin 0]; [Fin 1; Fin 0]])%nat) /\
    length out = length [[Fin 0; Fin 0]; [Fin 1; Fin 0]] /\
    forall i, (i < length [[Fin 0; Fin 0]; [Fin 1; Fin 0]])%nat ->
      nth i out None
      = draw_from (nth i [[Fin 0; Fin 0]; [Fin 1; Fin 0]] [])
                  ((fun _ => 1 / 2) (3 + i)%nat).
Proof.
  apply (smart_sampling_batch 2 [[Fin 0; Fin 0]; [Fin 1; Fin 0]]
           (fun _ => 1 / 2) 3).
  - lia.
  - repeat constructor.
Defined.

(** X5. A batch of at least one row whose rows have no entries
    ([S = 0]) makes [smart_sampling] fail with [ValueError]: numpy has no
    maximum of an empty row. *)
Theorem smart_sampling_empty_row (A : matrix) (draws : nat -> R) (pos : nat) :
  A <> [] ->
  Forall (fun row => row = []) A ->
  smart_sampling A draws pos = Raise ValueError.
Proof.
  intros Hne Hrows. unfold smart_sampling.
  rewrite (mapM_softmax_row_empty A); [reflexivity|].
  destruct A as [|row A]; [congruence|].
  inversion Hrows; subst. left. reflexivity.
Qed.

Lemma smart_sampling_empty_row_witness :
  smart_sampling [[]; []] (fun _ => 1 / 2) 0 = Raise ValueError.
Proof.
  apply (smart_sampling_empty_row [[]; []] (fun _ => 1 / 2) 0).
  - discriminate.
  - repeat constructor.
Defined.

(** The softmax of a finite row and a draw of at most 1 always select an
    index of the row. *)
Lemma draw_from_valid (xs : list R) (r : R) :
  xs <> [] -> r <= 1 ->
  exists i, draw_from (map Fin xs) r = Some i /\ (i < length xs)%nat.
Proof.
  intros Hne Hr.
  destruct (softmax_row_probabilities xs Hne) as (B & HB & Hlen & Hpos & Hsum).
  unfold draw_from. rewrite HB.
  assert (HlenB : (length B - 1 < length (map Fin B))%nat).
  { rewrite length_map, Hlen. destruct xs; [congruence | cbn; lia]. }
  destruct (sample_loop_first (Fin r) (map Fin B) (Fin 0) 0 (length B - 1) HlenB)
    as (j & Hj & Hs & _).
  - fold (rolling_sum (map Fin B) (S (length B - 1))).
    rewrite rolling_sum_Fin.
    replace (S (length B - 1)) with (length B)
      by (rewrite length_map in HlenB; lia).
    rewrite firstn_all, Hsum. apply xleb_Fin. exact Hr.
  - exists j. rewrite Hs. split; [reflexivity|].
    rewrite length_map in HlenB. lia.
Qed.

(** X6. On a batch of rows of [S >= 1] finite log-weights, with every
    draw read at most 1, [smart_sampling] returns a valid index for each
    row: it never yields [None] nor an index outside [0, S). *)
Theorem smart_sampling_valid (S : nat) (rows : list (list R))
        (draws : nat -> R) (pos : nat) :
  (1 <= S)%nat ->
  Forall (fun xs => length xs = S) rows ->
  (forall i, (i < length rows)%nat -> draws (pos + i)%nat <= 1) ->
  exists out,
    smart_sampling (map (map Fin) rows) draws pos
    = Ret (out, (pos + length rows)%nat) /\
    length out = length rows /\
    forall i, (i < length rows)%nat ->
      exists k, nth i out None = Some k /\ (k < S)%nat.
Proof.
  intros HS Hrows Hdraws.
  assert (Hne : forall xs, In xs rows -> xs <> []).
  { intros xs Hin ->. pose proof (proj1 (Forall_forall _ _) Hrows [] Hin) as H.
    cbn in H. lia. }
  destruct (smart_sampling_rows (map (map Fin) rows) draws pos)
    as (out & Hcall & Hlen & Hnth).
  - intros row Hin. apply in_map_iff in Hin. destruct Hin as (xs & <- & Hxs).
    specialize (Hne xs Hxs). destruct xs; [congruence | discriminate].
  - rewrite length_map in *. exists out. split; [exact Hcall|].
    split; [exact Hlen|]. intros i Hi.
    rewrite (Hnth i Hi).
    rewrite (nth_indep _ [] (map Fin [])) by (rewrite length_map; exact Hi).
    rewrite map_nth.
    destruct (draw_from_valid (nth i rows []) (draws (pos + i)%nat))
      as (k & Hk & Hklt).
    + apply Hne, nth_In, Hi.
    + apply Hdraws, Hi.
    + exists k. split; [exact Hk|].
      rewrite (proj1 (Forall_forall _ _) Hrows (nth i rows []))
        in Hklt by (apply nth_In, Hi).
      exact Hklt.
Qed.

Lemma smart_sampling_valid_witness :
  exists out,
    smart_sampling (map (map Fin) [[0; -1]; [2; 0]]%R) (fun _ => 1 / 2) 0
    = Ret (out, (0 + length [[0; -1]; [2; 0]]%R)%nat) /\
    length out = length [[0; -1]; [2; 0]]%R /\
    forall i, (i < length [[0; -1]; [2; 0]]%R)%nat ->
      exists k, nth i out None = Some k /\ (k < 2)%nat.
Proof.
  apply (smart_sampling_valid 2 [[0; -1]; [2; 0]]%R (fun _ => 1 / 2) 0).
  - lia.
  - repeat constructor.
  - intros i _. lra.
Defined.

(** ** [lognormalize] and [normalize] *)





Lemma logaddexp_neginf (n : nat) :
  fold_left logaddexp (repeat NegInf n) NegInf = NegInf.
Proof.
  induction n as [|n IH]; [reflexivity|]. cbn [repeat fold_left logaddexp].
  exact IH.
Qed.

Lemma lognormalize_neginf (n : nat) :
  lognormalize (repeat NegInf (S n)) = repeat NaN (S n).
Proof.
  unfold lognormalize, logaddexp_reduce. cbn [repeat].
  rewrite logaddexp_neginf. cbn [map xsub xopp xadd]. f_equal.
  induction n as [|n IH]; [reflexivity|]. cbn [repeat map xsub xopp xadd].
  rewrite IH. reflexivity.
Qed.

(** X9. A non-empty vector whose log-weights are all minus infinity (a
    distribution without any mass) is normalized to a vector of
    not-a-numbers; no error is raised. *)
Theorem lognormalize_no_mass (n : nat) :
  lognormalize (repeat NegInf (S n)) = repeat NaN (S n).
Proof.
  exact (lognormalize_neginf n).
Qed.

Lemma normalize_Fin (ps : list R) :
  sumR ps <> 0 ->
  normalize (map Fin ps) = map Fin (map (fun p => p / sumR ps) ps) /\
  xsum (normalize (map Fin ps)) = Fin 1.
Proof.
  intros Hsum.
  assert (Heq : normalize (map Fin ps)
                = map Fin (map (fun p => p / sumR ps) ps)).
  { unfold normalize. rewrite xsum_Fin, !map_map. apply map_ext.
    intros p. unfold xdiv.
    destruct (Req_dec_T (sumR ps) 0); [contradiction | reflexivity]. }
  split; [exact Heq|].
  rewrite Heq, xsum_Fin, sumR_map_div. f_equal. field. exact Hsum.
Qed.





(** ** [hmm_backward]: boundaries and errors *)

Lemma getitem_out {A : Type} (xs : list A) (i : nat) :
  (length xs <= i)%nat -> getitem xs i = Raise IndexError.
Proof.
  intros Hi. unfold getitem.
  rewrite (proj2 (nth_error_None xs i) Hi). reflexivity.
Qed.

(** X12. On a single time step ([L = 1]) the backward sampler reads
    neither [T] nor the realized states: it returns the one forward row as
    the smoothing distribution and one state drawn from it with one
    draw. *)
Theorem hmm_backward_single (T : matrix) (row : vec) (states : list nat)
        (draws : nat -> R) (pos : nat) :
  row <> [] ->
  hmm_backward T [row] states draws pos
  = Ret ([draw_from row (draws pos)], [row], (pos + 1)%nat).
Proof.
  intros Hne. destruct (softmax_row_nonempty row Hne) as [b Hb].
  unfold hmm_backward. cbn [length seq rev app skipn].
  unfold getitem at 1. cbn [nth_error Py.bind].
  unfold getitem at 1. cbn [nth_error Py.bind].
  rewrite (smart_sampling_single row b draws pos Hb).
  cbn [Py.bind fst snd]. unfold getitem at 1. cbn [nth_error Py.bind].
  cbn [backward_loop Py.bind rev app].
  unfold draw_from. rewrite Hb. reflexivity.
Qed.

Lemma hmm_backward_single_witness :
  hmm_backward [] [[Fin 0; Fin 0]] [] (fun _ => 1 / 2) 0
  = Ret ([draw_from [Fin 0; Fin 0] ((fun _ => 1 / 2) 0%nat)],
         [[Fin 0; Fin 0]], (0 + 1)%nat).
Proof.
  apply (hmm_backward_single [] [Fin 0; Fin 0] [] (fun _ => 1 / 2) 0).
  discriminate.
Defined.

(** The loop fails with [IndexError] as soon as a reversed time step finds
    no realized state or a state that is no row of [T]. *)
Lemma backward_loop_bad (T : matrix) (reverse : list vec) (rstates : list nat)
      (draws : nat -> R) (n : nat) :
  (forall row, In row T -> row <> []) ->
  forall k pos resample backward,
    (k + n <= length reverse)%nat ->
    (forall c, (k <= c < k + n)%nat -> nth c reverse [] <> []) ->
    (exists c, (k <= c < k + n)%nat /\
               ((length rstates <= c)%nat \/
                (length T <= nth c rstates 0)%nat)) ->
    backward_loop T (seq k n) reverse rstates draws pos resample backward
    = Raise IndexError.
Proof.
  intros HT. induction n as [|n IH];
    intros k pos resample backward Hrev Hrows (c & Hc & Hbad); [lia|].
  cbn [seq backward_loop].
  destruct (le_lt_dec (length rstates) k) as [Hshort|Hlong].
  { rewrite (getitem_out rstates k Hshort). reflexivity. }
  rewrite (getitem_nth rstates k 0%nat Hlong). cbn [Py.bind].
  destruct (le_lt_dec (length T) (nth k rstates 0%nat)) as [Hrow|Hrow].
  { rewrite (getitem_out T _ Hrow). reflexivity. }
  rewrite (getitem_nth T _ [] Hrow). cbn [Py.bind].
  rewrite (getitem_nth reverse k []) by lia. cbn [Py.bind].
  set (value := lognormalize
                  (vadd (vlog (nth (nth k rstates 0%nat) T [])) (nth k reverse []))).
  assert (Hvalue : value <> []).
  { apply lognormalize_nonempty, vadd_nonempty; [apply vlog_nonempty|].
    - apply HT, nth_In, Hrow.
    - apply Hrows. lia. }
  destruct (softmax_row_nonempty value Hvalue) as [b Hb].
  rewrite (smart_sampling_single value b draws pos Hb).
  cbn [Py.bind fst snd]. unfold getitem at 1. cbn [nth_error Py.bind].
  apply IH.
  - lia.
  - intros c' Hc'. apply Hrows. lia.
  - exists c. split; [|exact Hbad].
    destruct (Nat.eq_dec c k) as [->|Hne]; [|lia].
    destruct Hbad; lia.
Qed.

(** X13. With rows of the same length [W >= 1] in [forward] and in [T],
    the backward sampler fails with [IndexError] when [forward] has no row,
    when [states] is shorter than [forward] (for [L >= 2]), or when a state
    it reads, [states[t]] with [t < L - 1], is not a row index of [T]. *)
Theorem hmm_backward_index_error (W : nat) (T : matrix) (forward : list vec)
        (states : list nat) (draws : nat -> R) (pos : nat) :
  (1 <= W)%nat ->
  Forall (fun row => length row = W) T ->
  Forall (fun row => length row = W) forward ->
  forward = [] \/
  ((2 <= length forward)%nat /\ (length states < length forward)%nat) \/
  (length states = length forward /\
   exists t, (t < length forward - 1)%nat /\
             (length T <= nth t states 0)%nat) ->
  hmm_backward T forward states draws pos = Raise IndexError.
Proof.
  intros HS HTS HfwdS Hcases.
  assert (HT : forall row, In row T -> row <> []).
  { intros row Hin ->. pose proof (proj1 (Forall_forall _ _) HTS [] Hin) as H.
    cbn in H. lia. }
  assert (Hfwd : forall row, In row forward -> row <> []).
  { intros row Hin ->. pose proof (proj1 (Forall_forall _ _) HfwdS [] Hin) as H.
    cbn in H. lia. }
  clear HTS HfwdS.
  destruct forward as [|f0 forward'] eqn:Hf.
  { reflexivity. }
  destruct Hcases as [Hnil|Hcases]; [discriminate|].
  rewrite <- Hf in *. set (L := length forward) in *.
  assert (HL : (1 <= L)%nat) by (unfold L; rewrite Hf; cbn; lia).
  assert (Hrevlen : length (rev forward) = L) by apply length_rev.
  assert (Hin_rev : forall c, (c < L)%nat -> nth c (rev forward) [] <> []).
  { intros c Hc. apply Hfwd. apply in_rev. apply nth_In. lia. }
  destruct (softmax_row_nonempty (nth 0 (rev forward) []))
    as [b Hb]; [apply Hin_rev; lia|].
  unfold hmm_backward. fold L.
  destruct L as [|n] eqn:HLn; [lia|].
  cbn [seq skipn]. unfold getitem at 1. cbn [nth_error Py.bind].
  rewrite (getitem_nth (rev forward) 0 []) by lia. cbn [Py.bind].
  rewrite (smart_sampling_single _ b draws pos Hb).
  cbn [Py.bind fst snd]. unfold getitem at 1. cbn [nth_error Py.bind].
  rewrite (backward_loop_bad T (rev forward) (rev states) draws n HT);
    [reflexivity | lia | intros c Hc; apply Hin_rev; lia |].
  rewrite length_rev.
  destruct Hcases as [[H2 Hshort] | [Hlen (t & Ht & Hbad)]].
  - exists (Nat.max 1 (length states)). split; [lia|]. left. lia.
  - exists (S n - S t)%nat. split; [lia|]. right.
    rewrite rev_nth by lia. rewrite Hlen.
    replace (S n - S (S n - S t))%nat with t by lia. exact Hbad.
Qed.

Lemma hmm_backward_index_error_witness :
  hmm_backward [[Fin 1]] [[Fin 0]; [Fin 0]] [5%nat; 0%nat] (fun _ => 1 / 2) 0
  = Raise IndexError.
Proof.
  apply (hmm_backward_index_error 1 [[Fin 1]] [[Fin 0]; [Fin 0]]
           [5%nat; 0%nat] (fun _ => 1 / 2) 0).
  - lia.
  - repeat constructor.
  - repeat constructor.
  - right. right. split; [reflexivity|].
    exists 0%nat. cbn. split; lia.
Defined.

(** The loop reads the realized states only at the reversed time steps it
    visits. *)
Lemma backward_loop_states_ext (T : matrix) (reverse : list vec)
      (rstates1 rstates2 : list nat) (draws : nat -> R) (curP : list nat) :
  (forall c, In c curP -> getitem rstates1 c = getitem rstates2 c) ->
  forall pos resample backward,
    backward_loop T curP reverse rstates1 draws pos resample backward
    = backward_loop T curP reverse rstates2 draws pos resample backward.
Proof.
  induction curP as [|curT curP IH]; intros Hagree pos resample backward;
    cbn [backward_loop]; [reflexivity|].
  rewrite (Hagree curT) by (left; reflexivity).
  destruct (getitem rstates2 curT) as [s|e]; [|reflexivity]. cbn [Py.bind].
  destruct (getitem T s) as [row|e]; [|reflexivity]. cbn [Py.bind].
  destruct (getitem reverse curT) as [p2|e]; [|reflexivity]. cbn [Py.bind].
  destruct (smart_sampling _ draws pos) as [sp|e]; [|reflexivity].
  cbn [Py.bind]. destruct (getitem (fst sp) 0) as [s0|e]; [|reflexivity].
  cbn [Py.bind]. apply IH. intros c Hc. apply Hagree. right. exact Hc.
Qed.

(** X14. The backward sampler never reads the last realized state: two
    state sequences of the same length that agree everywhere but at their
    last position give the same outcome. *)
Theorem hmm_backward_last_state_unread (T : matrix) (forward : list vec)
        (states1 states2 : list nat) (draws : nat -> R) (pos : nat) :
  length states1 = length states2 ->
  (forall t, (S t < length states1)%nat ->
             nth_error states1 t = nth_error states2 t) ->
  hmm_backward T forward states1 draws pos
  = hmm_backward T forward states2 draws pos.
Proof.
  intros Hlen Hagree. unfold hmm_backward.
  destruct (getitem (seq 0 (length forward)) 0) as [t0|e]; [|reflexivity].
  cbn [Py.bind].
  destruct (getitem (rev forward) t0) as [first|e]; [|reflexivity].
  cbn [Py.bind].
  destruct (smart_sampling [first] draws pos) as [sp|e]; [|reflexivity].
  cbn [Py.bind]. destruct (getitem (fst sp) 0) as [s0|e]; [|reflexivity].
  cbn [Py.bind].
  rewrite (backward_loop_states_ext T (rev forward) (rev states1) (rev states2));
    [reflexivity|].
  intros c Hc. unfold getitem. rewrite !nth_error_rev, <- Hlen.
  assert (Hc1 : (1 <= c)%nat).
  { destruct (length forward) as [|n]; [contradiction|].
    cbn [seq skipn] in Hc. apply in_seq in Hc. lia. }
  destruct (c <? length states1)%nat eqn:Hlt; [|reflexivity].
  apply Nat.ltb_lt in Hlt. rewrite Hagree by lia. reflexivity.
Qed.

Lemma hmm_backward_last_state_unread_witness :
  hmm_backward T_bias [uniform2; uniform2] [0%nat; 0%nat] (fun _ => 1 / 2) 0
  = hmm_backward T_bias [uniform2; uniform2] [0%nat; 1%nat] (fun _ => 1 / 2) 0.
Proof.
  apply (hmm_backward_last_state_unread T_bias [uniform2; uniform2]
           [0%nat; 0%nat] [0%nat; 1%nat] (fun _ => 1 / 2) 0).
  - reflexivity.
  - intros t Ht. cbn [length] in Ht. assert (t = 0%nat) as -> by lia.
    reflexivity.
Defined.

(** ** [hmm_backward]: well-formed input *)

Lemma positive_vec_nonempty (S : nat) (v : vec) :
  (1 <= S)%nat -> positive_vec S v -> v <> [].
Proof.
  intros HS (ys & -> & Hlen & _). destruct ys; [cbn in Hlen; lia | discriminate].
Qed.

Lemma finite_vec_nonempty (S : nat) (v : vec) :
  (1 <= S)%nat -> finite_vec S v -> v <> [].
Proof.
  intros HS (xs & -> & Hlen). destruct xs; [cbn in Hlen; lia | discriminate].
Qed.

Lemma normalized_finite (S : nat) (v : vec) : normalized S v -> finite_vec S v.
Proof.
  intros (zs & Hv & Hlen & _). exists zs. auto.
Qed.

(** The rows of a call on finite forward rows and positive transition
    weights. *)
Lemma hmm_backward_rows (S : nat) (T : matrix) (forward : list vec)
      (states : list nat) (draws : nat -> R) (pos : nat) :
  let L := length forward in
  (1 <= S)%nat ->
  Forall (positive_vec S) T ->
  forward <> [] ->
  Forall (finite_vec S) forward ->
  length states = L ->
  (forall t, (t < L - 1)%nat -> (nth t states 0 < length T)%nat) ->
  exists traj smooth,
    hmm_backward T forward states draws pos
    = Ret (traj, smooth, (pos + L)%nat) /\
    length traj = L /\ length smooth = L /\
    nth (L - 1) smooth [] = nth (L - 1) forward [] /\
    (forall t, (t < L - 1)%nat -> normalized S (nth t smooth [])) /\
    (forall t, (t < L)%nat -> finite_vec S (nth t smooth [])) /\
    (forall t, (t < L)%nat ->
       nth t traj None
       = draw_from (nth t smooth []) (draws (pos + (L - 1 - t))%nat)).
Proof.
  intros L HS HT Hne Hfwd Hstates Hidx.
  assert (HL : (1 <= L)%nat)
    by (unfold L; destruct forward; [congruence | cbn; lia]).
  assert (Hfin : forall t, (t < L)%nat -> finite_vec S (nth t forward [])).
  { intros t Ht. apply (proj1 (Forall_forall _ _) Hfwd). apply nth_In. exact Ht. }
  destruct (hmm_backward_spec T forward states draws pos HL Hstates Hidx)
    as (traj & smooth & Hcall & Hlt & Hls & Hlast & Hsmooth & Hdraw).
  - intros row Hin. apply (positive_vec_nonempty S); [exact HS|].
    apply (proj1 (Forall_forall _ _) HT). exact Hin.
  - intros row Hin. apply (finite_vec_nonempty S); [exact HS|].
    apply (proj1 (Forall_forall _ _) Hfwd). exact Hin.
  - fold L in Hcall, Hlt, Hls, Hlast, Hsmooth, Hdraw.
    assert (Hnorm : forall t, (t < L - 1)%nat -> normalized S (nth t smooth [])).
    { intros t Ht. rewrite (Hsmooth t Ht).
      apply lognormalize_finite; [exact HS|].
      apply vadd_finite; [|apply Hfin; lia].
      apply vlog_positive. apply (proj1 (Forall_forall _ _) HT).
      apply nth_In. apply Hidx. exact Ht. }
    exists traj, smooth. repeat split; auto.
    intros t Ht. destruct (Nat.eq_dec t (L - 1)) as [->|Hneq].
    + rewrite Hlast. apply Hfin. lia.
    + apply normalized_finite, Hnorm. lia.
Qed.

(** X15. In exact arithmetic (sums and quotients without rounding), on
    well-formed input (forward rows of [S >= 1] finite entries, a matrix
    [T] of rows of [S] positive weights, [L] realized states that index
    rows of [T], draws of at most 1) the backward sampler returns [L]
    sampled states, each a valid state index below [S], and [L] smoothing
    rows, and it consumes exactly [L] draws. *)
Theorem hmm_backward_valid (S : nat) (T : matrix) (forward : list vec)
        (states : list nat) (draws : nat -> R) (pos : nat) :
  let L := length forward in
  (1 <= S)%nat ->
  Forall (positive_vec S) T ->
  forward <> [] ->
  Forall (finite_vec S) forward ->
  length states = L ->
  (forall t, (t < L - 1)%nat -> (nth t states 0 < length T)%nat) ->
  (forall i, (i < L)%nat -> draws (pos + i)%nat <= 1) ->
  exists traj smooth,
    hmm_backward T forward states draws pos
    = Ret (traj, smooth, (pos + L)%nat) /\
    length traj = L /\ length smooth = L /\
    forall t, (t < L)%nat ->
      exists k, nth t traj None = Some k /\ (k < S)%nat.
Proof.
  intros L HS HT Hne Hfwd Hstates Hidx Hdraws.
  destruct (hmm_backward_rows S T forward states draws pos
              HS HT Hne Hfwd Hstates Hidx)
    as (traj & smooth & Hcall & Hlt & Hls & _ & _ & Hfin & Hdraw).
  fold L in Hcall, Hlt, Hls, Hfin, Hdraw.
  exists traj, smooth. repeat split; auto.
  intros t Ht. rewrite (Hdraw t Ht).
  destruct (Hfin t Ht) as (xs & -> & Hlen).
  destruct (draw_from_valid xs (draws (pos + (L - 1 - t))%nat))
    as (k & Hk & Hklt).
  - intros ->. cbn in Hlen. lia.
  - apply Hdraws. lia.
  - exists k. split; [exact Hk | lia].
Qed.


Lemma T_bias_positive : Forall (positive_vec 2) T_bias.
Proof.
  repeat constructor.
  - exists [3 / 4; 1 / 4]. repeat split; repeat constructor; lra.
  - exists [1 / 4; 3 / 4]. repeat split; repeat constructor; lra.
Qed.

Lemma uniform2_rows_finite : Forall (finite_vec 2) [uniform2; uniform2].
Proof.
  repeat constructor; exists [ln (1 / 2); ln (1 / 2)]; split; reflexivity.
Qed.

Lemma hmm_backward_valid_witness :
  exists traj smooth,
    hmm_backward T_bias [uniform2; uniform2] [0%nat; 1%nat] (fun _ => 1 / 2) 0
    = Ret (traj, smooth, (0 + length [uniform2; uniform2])%nat) /\
    length traj = length [uniform2; uniform2] /\
    length smooth = length [uniform2; uniform2] /\
    forall t, (t < length [uniform2; uniform2])%nat ->
      exists k, nth t traj None = Some k /\ (k < 2)%nat.
Proof.
  apply (hmm_backward_valid 2 T_bias [uniform2; uniform2] [0%nat; 1%nat]
           (fun _ => 1 / 2) 0).
  - lia.
  - exact T_bias_positive.
  - discriminate.
  - exact uniform2_rows_finite.
  - reflexivity.
  - intros t Ht. cbn in Ht. assert (t = 0%nat) as -> by lia. cbn. lia.
  - intros i _. lra.
Defined.


(** ** [hmm_forward]: likelihoods up to a constant *)






(** ** [generate_0d_T_mat]: shape of the result *)

Lemma nth_bias_row (N : nat) (fill bias : R) (i j : nat) :
  (i < N)%nat -> (j < N)%nat ->
  nth j (bias_row N fill bias i) (Fin 0)
  = if (j =? i)%nat then Fin bias else Fin fill.
Proof.
  intros Hi Hj. unfold bias_row.
  rewrite nth_setitem by (rewrite repeat_length; exact Hi).
  destruct (j =? i)%nat; [reflexivity|]. apply nth_repeat_lt. exact Hj.
Qed.

(** Transposing a square matrix with [M[i][j] = M[j][i]] changes
    nothing. *)
Lemma transpose_symmetric (N : nat) (rows : nat -> vec) :
  (forall i, length (rows i) = N) ->
  (forall i j, (i < N)%nat -> (j < N)%nat ->
               nth j (rows i) (Fin 0) = nth i (rows j) (Fin 0)) ->
  transpose N (map rows (seq 0 N)) = map rows (seq 0 N).
Proof.
  intros Hlen Hsym. unfold transpose. apply map_ext_in. intros j Hj.
  apply in_seq in Hj. rewrite map_map.
  transitivity (map (fun i => nth i (rows j) (Fin 0)) (seq 0 N)).
  - apply map_ext_in. intros i Hi. apply in_seq in Hi. apply Hsym; lia.
  - rewrite <- (Hlen j) at 1. apply map_nth_seq.
Qed.

(** X18. For [n >= 2] and a float bias, the matrix [generate_0d_T_mat]
    returns is symmetric, so the final transposition changes nothing: row
    [i] holds the bias at position [i] and [(1 - bias) / (n - 1)]
    elsewhere, and in exact arithmetic every row and every column sums to
    1. *)
Theorem generate_0d_T_mat_symmetric (n : Z) (bias : R) :
  (2 <= n)%Z ->
  let N := Z.to_nat n in
  let fill := (1 - bias) / IZR (n - 1) in
  exists M,
    generate_0d_T_mat n (PyFloat bias) = Ret M /\
    M = map (bias_row N fill bias) (seq 0 N) /\
    (forall i j, (i < N)%nat -> (j < N)%nat ->
       nth j (nth i M []) (Fin 0) = nth i (nth j M []) (Fin 0)) /\
    (forall i, (i < N)%nat -> xsum (nth i M []) = Fin 1) /\
    (forall j, (j < N)%nat -> xsum (column j M) = Fin 1).
Proof.
  intros Hn N fill.
  assert (Hrow : forall i, (i < N)%nat ->
            nth i (map (bias_row N fill bias) (seq 0 N)) []
            = bias_row N fill bias i).
  { intros i Hi.
    rewrite (nth_indep _ [] (bias_row N fill bias 0))
      by (rewrite length_map, length_seq; exact Hi).
    rewrite map_nth, seq_nth by exact Hi. reflexivity. }
  assert (Hsym : transpose N (map (bias_row N fill bias) (seq 0 N))
                 = map (bias_row N fill bias) (seq 0 N)).
  { apply transpose_symmetric.
    - intros i. apply bias_row_length.
    - intros i j Hi Hj. rewrite !nth_bias_row by assumption.
      rewrite (Nat.eqb_sym j i). reflexivity. }
  assert (Hsum : forall i, (i < N)%nat ->
            xsum (bias_row N fill bias i) = Fin 1).
  { intros i Hi. rewrite bias_row_sum by exact Hi.
    f_equal. unfold fill, N.
    rewrite INR_IZR_INZ, Z2Nat.id, minus_IZR by lia.
    assert (2 <= IZR n) by (apply IZR_le; exact Hn).
    field. lra. }
  exists (map (bias_row N fill bias) (seq 0 N)).
  split; [|split; [reflexivity | split; [|split]]].
  - rewrite (generate_0d_T_mat_rows n (PyFloat bias) (PyFloat fill)).
    + cbn [to_float]. fold N. f_equal. exact Hsym.
    + lia.
    + unfold fill_value.
      destruct (n - 1 =? 0)%Z eqn:Hone; [apply Z.eqb_eq in Hone; lia|].
      reflexivity.
  - intros i j Hi Hj. rewrite !Hrow by assumption.
    rewrite !nth_bias_row by assumption.
    rewrite (Nat.eqb_sym j i). reflexivity.
  - intros i Hi. rewrite (Hrow i Hi). apply Hsum. exact Hi.
  - intros j Hj. rewrite <- Hsym.
    rewrite column_transpose by (try exact Hj; intros i; apply bias_row_length).
    apply Hsum. exact Hj.
Qed.

Lemma generate_0d_T_mat_symmetric_witness :
  exists M,
    generate_0d_T_mat 3 (PyFloat (1 / 2)) = Ret M /\
    M = map (bias_row (Z.to_nat 3) ((1 - 1 / 2) / IZR (3 - 1)) (1 / 2))
            (seq 0 (Z.to_nat 3)) /\
    (forall i j, (i < Z.to_nat 3)%nat -> (j < Z.to_nat 3)%nat ->
       nth j (nth i M []) (Fin 0) = nth i (nth j M []) (Fin 0)) /\
    (forall i, (i < Z.to_nat 3)%nat -> xsum (nth i M []) = Fin 1) /\
    (forall j, (j < Z.to_nat 3)%nat -> xsum (column j M) = Fin 1).
Proof.
  apply (generate_0d_T_mat_symmetric 3 (1 / 2)). lia.
Defined.

(** X19. For [n <= 0] no fill value matters: a negative [n] fails in
    [numpy.zeros] with [ValueError], and [n = 0] returns the matrix without
    rows. *)
Theorem generate_0d_T_mat_no_states (n : Z) (bias : pynum) :
  (n <= 0)%Z ->
  generate_0d_T_mat n bias
  = if (n <? 0)%Z then Raise ValueError else Ret [].
Proof.
  intros Hn. unfold generate_0d_T_mat.
  destruct (n <? 0)%Z eqn:Hneg; [reflexivity|].
  apply Z.ltb_ge in Hneg. assert (n = 0%Z) as -> by lia.
  destruct bias; reflexivity.
Qed.

Lemma generate_0d_T_mat_no_states_witness :
  generate_0d_T_mat (-2) (PyFloat (4 / 5))
  = if (-2 <? 0)%Z then Raise ValueError else Ret [].
Proof.
  apply (generate_0d_T_mat_no_states (-2) (PyFloat (4 / 5))). lia.
Defined.

(** ** [HMMParams.set_T_matrix] and [build_hmm] *)

Lemma setitem_setitem {A : Type} (xs : list A) (i : nat) (x y : A) :
  setitem (setitem xs i x) i y = setitem xs i y.
Proof.
  revert i. induction xs as [|z xs IH]; intros [|i]; cbn [setitem];
    try reflexivity.
  rewrite IH. reflexivity.
Qed.

Lemma setitem_nth_same {A : Type} (xs : list A) (i : nat) (d : A) :
  setitem xs i (nth i xs d) = xs.
Proof.
  revert i. induction xs as [|z xs IH]; intros [|i]; cbn [setitem nth];
    try reflexivity.
  rewrite IH. reflexivity.
Qed.

Lemma nth_setitem_same {A : Type} (xs : list A) (i : nat) (x d : A) :
  (i < length xs)%nat -> nth i (setitem xs i x) d = x.
Proof.
  intros Hi. rewrite nth_setitem by exact Hi. rewrite Nat.eqb_refl.
  reflexivity.
Qed.

Lemma skipn_nth_cons {A : Type} (l : list A) (k : nat) (d : A) :
  (k < length l)%nat -> skipn k l = nth k l d :: skipn (S k) l.
Proof.
  revert k. induction l as [|x l IH]; intros k Hk; cbn [length] in Hk; [lia|].
  destruct k as [|k]; [reflexivity|].
  cbn [skipn nth]. apply IH. lia.
Qed.

Lemma copy_into_spec (mrow : vec) (n : nat) :
  forall pre rest,
    length rest = n ->
    (length pre + n <= length mrow)%nat ->
    copy_into mrow (pre ++ rest) (length pre) n
    = pre ++ firstn n (skipn (length pre) mrow).
Proof.
  unfold copy_into. induction n as [|n IH]; intros pre rest Hrest Hlen.
  - destruct rest; [|discriminate]. cbn [seq fold_left firstn]. reflexivity.
  - destruct rest as [|y rest]; [discriminate|].
    cbn [seq fold_left]. rewrite setitem_middle.
    replace (pre ++ nth (length pre) mrow (Fin 0) :: rest)
      with ((pre ++ [nth (length pre) mrow (Fin 0)]) ++ rest)
      by (rewrite <- app_assoc; reflexivity).
    replace (S (length pre))
      with (length (pre ++ [nth (length pre) mrow (Fin 0)]))
      by (rewrite length_app; cbn; lia).
    rewrite IH.
    + rewrite <- app_assoc. cbn [app]. f_equal.
      rewrite length_app. cbn [length].
      rewrite (skipn_nth_cons mrow (length pre) (Fin 0)) by lia.
      cbn [firstn]. do 2 f_equal. f_equal. lia.
    + cbn in Hrest. lia.
    + rewrite length_app. cbn. lia.
Qed.

(** The inner loop over [j] on a row the argument holds. *)
Lemma copy_row_ok (mtx : matrix) (i : nat) (mrow : vec) (n : nat) :
  getitem mtx i = Ret mrow ->
  forall k T,
    (i < length T)%nat ->
    (k + n <= length mrow)%nat ->
    foldM (copy_cell mtx i) (seq k n) T
    = Ret (setitem T i (copy_into mrow (nth i T []) k n)).
Proof.
  intros Hrow. induction n as [|n IH]; intros k T Hi Hlen.
  - cbn [seq foldM]. unfold copy_into. cbn [seq fold_left].
    rewrite setitem_nth_same. reflexivity.
  - cbn [seq foldM]. unfold copy_cell at 1. rewrite Hrow. cbn [Py.bind].
    rewrite (getitem_nth mrow k (Fin 0)) by lia. cbn [Py.bind].
    rewrite IH by (rewrite ?setitem_length; lia).
    rewrite nth_setitem_same by exact Hi.
    rewrite setitem_setitem. reflexivity.
Qed.

(** The inner loop fails on a row the argument lacks or holds too short. *)
Lemma copy_row_bad (mtx : matrix) (i : nat) (n : nat) :
  forall k T,
    (i < length T)%nat ->
    (length mtx <= i)%nat \/
    (k <= length (nth i mtx []) < k + n)%nat ->
    (0 < n)%nat ->
    foldM (copy_cell mtx i) (seq k n) T = Raise IndexError.
Proof.
  induction n as [|n IH]; intros k T Hi Hbad Hn; [lia|].
  cbn [seq foldM]. unfold copy_cell at 1.
  destruct (le_lt_dec (length mtx) i) as [Hout|Hin].
  { rewrite (getitem_out mtx i Hout). reflexivity. }
  destruct Hbad as [Hout|Hshort]; [lia|].
  rewrite (getitem_nth mtx i [] Hin). cbn [Py.bind].
  destruct (le_lt_dec (length (nth i mtx [])) k) as [Hend|Hmore].
  { rewrite (getitem_out _ k Hend). reflexivity. }
  rewrite (getitem_nth _ k (Fin 0) Hmore). cbn [Py.bind].
  apply IH; [rewrite setitem_length; exact Hi | right; lia | lia].
Qed.

Lemma outer_loop_ok (N : nat) (mtx : matrix) (n : nat) :
  forall pre rest,
    length rest = n ->
    Forall (fun r => length r = N) rest ->
    (length pre + n <= length mtx)%nat ->
    (forall i, (length pre <= i < length pre + n)%nat ->
               (N <= length (nth i mtx []))%nat) ->
    foldM (fun T i => foldM (copy_cell mtx i) (seq 0 N) T)
          (seq (length pre) n) (pre ++ rest)
    = Ret (pre ++ map (firstn N) (firstn n (skipn (length pre) mtx))).
Proof.
  induction n as [|n IH]; intros pre rest Hrest Hrows Hlen Hfit.
  - destruct rest; [|discriminate]. reflexivity.
  - destruct rest as [|y rest]; [discriminate|].
    inversion Hrows as [|? ? Hy Hrows']; subst.
    cbn [seq foldM].
    rewrite (copy_row_ok mtx (length pre) (nth (length pre) mtx []) (length y))
      by (try (apply getitem_nth; lia); try (rewrite length_app; cbn; lia);
          cbn; apply Hfit; lia).
    cbn [Py.bind]. rewrite nth_middle, setitem_middle.
    rewrite (copy_into_spec _ (length y) [] y eq_refl)
      by (cbn; apply Hfit; lia).
    cbn [app length skipn].
    assert (Hsplit : forall (x : vec) (tl : matrix),
              pre ++ x :: tl = (pre ++ [x]) ++ tl)
      by (intros; rewrite <- app_assoc; reflexivity).
    rewrite Hsplit.
    replace (S (length pre))
      with (length (pre ++ [firstn (length y) (nth (length pre) mtx [])]))
      by (rewrite length_app; cbn; lia).
    rewrite IH.
    + rewrite <- app_assoc. cbn [app]. f_equal.
      rewrite length_app. cbn [length].
      rewrite (skipn_nth_cons mtx (length pre) []) by lia.
      cbn [firstn map].
      replace (length pre + 1)%nat with (S (length pre)) by lia.
      reflexivity.
    + cbn in Hrest. lia.
    + exact Hrows'.
    + rewrite length_app. cbn. lia.
    + intros i Hi. rewrite length_app in Hi. cbn in Hi. apply Hfit. lia.
Qed.

Lemma outer_loop_bad (N : nat) (mtx : matrix) (n : nat) :
  (0 < N)%nat ->
  forall pre rest,
    length rest = n ->
    Forall (fun r => length r = N) rest ->
    (exists i, (length pre <= i < length pre + n)%nat /\
               ((length mtx <= i)%nat \/
                (length (nth i mtx []) < N)%nat)) ->
    foldM (fun T i => foldM (copy_cell mtx i) (seq 0 N) T)
          (seq (length pre) n) (pre ++ rest)
    = Raise IndexError.
Proof.
  intros HN. induction n as [|n IH]; intros pre rest Hrest Hrows (i & Hi & Hbad);
    [lia|].
  destruct rest as [|y rest]; [discriminate|].
  inversion Hrows as [|? ? Hy Hrows' [Heq1 Heq2]].
  cbn [seq foldM].
  assert (Hpos : (length pre < length (pre ++ y :: rest))%nat)
    by (rewrite length_app; cbn; lia).
  destruct (le_lt_dec (length mtx) (length pre)) as [Hout|Hin].
  { rewrite copy_row_bad; [reflexivity | exact Hpos | left; exact Hout | exact HN]. }
  destruct (le_lt_dec N (length (nth (length pre) mtx []))) as [Hfit|Hshort].
  - rewrite (copy_row_ok mtx (length pre) (nth (length pre) mtx []) N)
      by (try (apply getitem_nth; exact Hin); try exact Hpos; cbn; exact Hfit).
    cbn [Py.bind]. rewrite setitem_middle.
    assert (Hsplit : forall (x : vec) (tl : matrix),
              pre ++ x :: tl = (pre ++ [x]) ++ tl)
      by (intros; rewrite <- app_assoc; reflexivity).
    rewrite Hsplit.
    match goal with
    | |- foldM _ _ ((pre ++ [?x]) ++ rest) = _ =>
        replace (S (length pre)) with (length (pre ++ [x]))
          by (rewrite length_app; cbn; lia);
        apply IH; [cbn in Hrest; lia | exact Hrows' |];
        exists i; rewrite length_app; cbn [length]; split; [|exact Hbad]
    end.
    destruct (Nat.eq_dec i (length pre)) as [->|Hne]; [|lia].
    destruct Hbad; lia.
  - rewrite copy_row_bad; [reflexivity | exact Hpos | right; lia | exact HN].
Qed.

Lemma set_T_matrix_value (self : HMMParams.t) (mtx : matrix) :
  let N := Z.to_nat (HMMParams.num_states self) in
  (0 <= HMMParams.num_states self)%Z ->
  covers N mtx ->
  HMMParams.set_T_matrix self mtx
  = Ret {| HMMParams.num_states := HMMParams.num_states self;
           HMMParams.T := map (firstn N) (firstn N mtx) |}.
Proof.
  intros N HS [Hrows Hcells]. unfold HMMParams.set_T_matrix.
  destruct (HMMParams.num_states self <? 0)%Z eqn:Hneg;
    [apply Z.ltb_lt in Hneg; lia|].
  cbv zeta. fold N. unfold zeros.
  pose proof (outer_loop_ok N mtx N [] (repeat (repeat (Fin 0) N) N)) as Hloop.
  cbn [length app skipn Nat.add] in Hloop. rewrite Hloop.
  - reflexivity.
  - apply repeat_length.
  - apply Forall_forall. intros r Hr. apply repeat_spec in Hr. subst r.
    apply repeat_length.
  - exact Hrows.
  - intros i Hi. apply Hcells. lia.
Qed.

(** X20. When the argument holds at least S rows of at least S cells,
    [set_T_matrix] stores its leading S-by-S block: the first S cells of
    each of the first S rows. *)
Theorem set_T_matrix_copy (self : HMMParams.t) (mtx : matrix) :
  let N := Z.to_nat (HMMParams.num_states self) in
  (0 <= HMMParams.num_states self)%Z ->
  covers N mtx ->
  HMMParams.set_T_matrix self mtx
  = Ret {| HMMParams.num_states := HMMParams.num_states self;
           HMMParams.T := map (firstn N) (firstn N mtx) |}.
Proof.
  exact (set_T_matrix_value self mtx).
Qed.

Lemma set_T_matrix_copy_witness :
  HMMParams.set_T_matrix
    (HMMParams.set_num_states HMMParams.init 1)
    [[Fin 1; Fin 2]; [Fin 3; Fin 4]]
  = Ret {| HMMParams.num_states := 1; HMMParams.T := [[Fin 1]] |}.
Proof.
  apply (set_T_matrix_copy (HMMParams.set_num_states HMMParams.init 1)
           [[Fin 1; Fin 2]; [Fin 3; Fin 4]]).
  - cbn. lia.
  - split; [cbn; lia|]. intros i Hi. cbn in Hi.
    assert (i = 0%nat) as -> by lia. cbn. lia.
Defined.

(** X21. [build_hmm S T] with [S >= 0] succeeds when [T] holds at least S
    rows of at least S cells, and then returns the two closures over the
    caller's [T] itself (not over the S-by-S copy it stored); it fails with
    [IndexError] when [T] has fewer than S rows or one of its first S rows
    has fewer than S cells. *)
Theorem build_hmm_outcome (S : Z) (T : matrix) :
  (0 <= S)%Z ->
  let N := Z.to_nat S in
  (covers N T -> build_hmm S T = Ret (hmm_forward T, hmm_backward T)) /\
  ((length T < N)%nat \/
   (exists i, (i < N)%nat /\ (length (nth i T []) < N)%nat) ->
   build_hmm S T = Raise IndexError).
Proof.
  intros HS N. split.
  - intros Hcov. unfold build_hmm. cbv zeta.
    rewrite set_T_matrix_value by (cbn; assumption). reflexivity.
  - intros Hbad. unfold build_hmm, HMMParams.set_T_matrix. cbv zeta.
    cbn [HMMParams.num_states HMMParams.set_num_states].
    destruct (S <? 0)%Z eqn:Hneg; [apply Z.ltb_lt in Hneg; lia|].
    fold N. unfold zeros.
    assert (HN : (0 < N)%nat) by (destruct Hbad as [H|(i & H & _)]; lia).
    pose proof (outer_loop_bad N T N HN [] (repeat (repeat (Fin 0) N) N))
      as Hloop.
    cbn [length app Nat.add] in Hloop. rewrite Hloop.
    + reflexivity.
    + apply repeat_length.
    + apply Forall_forall. intros r Hr. apply repeat_spec in Hr. subst r.
      apply repeat_length.
    + destruct Hbad as [Hshort|(i & Hi & Hcell)].
      * exists (length T). split; [lia | left; lia].
      * exists i. split; [lia | right; exact Hcell].
Qed.

Lemma build_hmm_outcome_witness :
  (covers (Z.to_nat 2) I2 ->
   build_hmm 2 I2 = Ret (hmm_forward I2, hmm_backward I2)) /\
  ((length I2 < Z.to_nat 2)%nat \/
   (exists i, (i < Z.to_nat 2)%nat /\ (length (nth i I2 []) < Z.to_nat 2)%nat) ->
   build_hmm 2 I2 = Raise IndexError).
Proof.
  apply (build_hmm_outcome 2 I2). lia.
Defined.

(** ** The one-dimensional Gaussian matrix *)

Lemma py_index_nat (len k : nat) :
  (k < len)%nat -> py_index len (Z.of_nat k) = Ret k.
Proof.
  intros Hk. unfold py_index.
  replace (0 <=? Z.of_nat k)%Z with true by (symmetry; apply Z.leb_le; lia).
  replace (Z.of_nat k <? Z.of_nat len)%Z with true
    by (symmetry; apply Z.ltb_lt; lia).
  cbn [andb]. rewrite Nat2Z.id. reflexivity.
Qed.

Lemma gaussian_1d_value (muX x : Z) :
  gaussian_1d muX 1 x = Ret (Fin (density_1d muX x)).
Proof. reflexivity. Qed.

Lemma density_1d_pos (muX x : Z) : 0 < density_1d muX x.
Proof.
  unfold density_1d. apply Rmult_lt_0_compat; [|apply exp_pos].
  apply Rdiv_lt_0_compat; [lra|].
  apply Rmult_lt_0_compat; [|lra].
  apply sqrt_lt_R0. pose proof PI_RGT_0. lra.
Qed.

Lemma gaussian_1d_filter_loop (muX : Z) (m : nat) :
  forall pre rest,
    length rest = m ->
    foldM (gaussian_1d_cell muX 1)
          (map (fun k => (0 + Z.of_nat k)%Z) (seq (length pre) m))
          (pre ++ rest)
    = Ret (pre ++ map (fun k => Fin (density_1d muX (Z.of_nat k)))
                      (seq (length pre) m)).
Proof.
  induction m as [|m IH]; intros pre rest Hrest.
  - destruct rest; [|discriminate]. reflexivity.
  - destruct rest as [|y rest]; [discriminate|].
    cbn [seq map foldM]. unfold gaussian_1d_cell at 1.
    rewrite gaussian_1d_value. cbn [Py.bind Z.add].
    rewrite py_index_nat by (rewrite length_app; cbn; lia).
    cbn [Py.bind]. rewrite setitem_middle.
    assert (Hsplit : forall (x : xreal) (tl : vec),
              pre ++ x :: tl = (pre ++ [x]) ++ tl)
      by (intros; rewrite <- app_assoc; reflexivity).
    rewrite Hsplit.
    match goal with
    | |- foldM _ _ ((pre ++ [?x]) ++ rest) = _ =>
        replace (S (length pre)) with (length (pre ++ [x]))
          by (rewrite length_app; cbn; lia)
    end.
    rewrite IH by (cbn in Hrest; lia).
    rewrite <- app_assoc. reflexivity.
Qed.

(** The filter called with [minX = 0] fills its [n] entries in order. *)
Lemma gaussian_1d_filter_value (i : nat) (n : Z) :
  (0 <= n)%Z ->
  gaussian_1d_filter (Z.of_nat i) 0 n 1
  = Ret (map Fin (filter_row (Z.to_nat n) i)).
Proof.
  intros Hn. unfold gaussian_1d_filter, py_range. rewrite Z.sub_0_r.
  destruct (n <? 0)%Z eqn:Hneg; [apply Z.ltb_lt in Hneg; lia|].
  cbv zeta.
  pose proof (gaussian_1d_filter_loop (Z.of_nat i) (Z.to_nat n) []
                (repeat (Fin 0) (Z.to_nat n)) (repeat_length _ _)) as Hloop.
  cbn [length app] in Hloop. rewrite Hloop.
  unfold filter_row. rewrite map_map. reflexivity.
Qed.

Lemma generate_1d_loop (n : Z) (m : nat) :
  (0 <= n)%Z ->
  forall pre rest,
    length rest = m ->
    foldM (fun T i =>
             F <- gaussian_1d_filter (Z.of_nat i) 0 n 1 ;;
             let T := setitem T i F in
             Ret (normalize_row T i))
          (seq (length pre) m) (pre ++ rest)
    = Ret (pre ++ map (fun i => normalize (map Fin (filter_row (Z.to_nat n) i)))
                      (seq (length pre) m)).
Proof.
  intros Hn. induction m as [|m IH]; intros pre rest Hrest.
  - destruct rest; [|discriminate]. reflexivity.
  - destruct rest as [|y rest]; [discriminate|].
    cbn [seq map foldM]. rewrite gaussian_1d_filter_value by exact Hn.
    cbn [Py.bind]. unfold normalize_row.
    rewrite !setitem_middle, nth_middle.
    assert (Hsplit : forall (x : vec) (tl : matrix),
              pre ++ x :: tl = (pre ++ [x]) ++ tl)
      by (intros; rewrite <- app_assoc; reflexivity).
    rewrite Hsplit.
    match goal with
    | |- foldM _ _ ((pre ++ [?x]) ++ rest) = _ =>
        replace (S (length pre)) with (length (pre ++ [x]))
          by (rewrite length_app; cbn; lia)
    end.
    rewrite IH by (cbn in Hrest; lia).
    rewrite <- app_assoc. reflexivity.
Qed.

Lemma filter_row_positive (N i : nat) : Forall (fun p => 0 < p) (filter_row N i).
Proof.
  unfold filter_row. apply Forall_forall. intros p Hp.
  apply in_map_iff in Hp. destruct Hp as (k & <- & _). apply density_1d_pos.
Qed.

Lemma sumR_pos (ps : list R) :
  ps <> [] -> Forall (fun p => 0 < p) ps -> 0 < sumR ps.
Proof.
  intros Hne Hpos. destruct Hpos as [|p ps Hp Hps]; [congruence|].
  rewrite sumR_cons.
  assert (0 <= sumR ps).
  { apply sumR_nonneg. eapply Forall_impl; [|exact Hps]. cbn. intros; lra. }
  lra.
Qed.

(** A normalized row of positive weights: positive entries summing to 1. *)
Lemma normalize_positive (ps : list R) :
  ps <> [] -> Forall (fun p => 0 < p) ps ->
  exists qs,
    normalize (map Fin ps) = map Fin qs /\
    length qs = length ps /\
    Forall (fun q => 0 < q) qs /\
    sumR qs = 1.
Proof.
  intros Hne Hpos. pose proof (sumR_pos ps Hne Hpos) as Hsum.
  destruct (normalize_Fin ps ltac:(lra)) as [Heq Hone].
  exists (map (fun p => p / sumR ps) ps).
  split; [exact Heq|]. split; [apply length_map|]. split.
  - apply Forall_forall. intros q Hq. apply in_map_iff in Hq.
    destruct Hq as (p & <- & Hp).
    apply Rdiv_lt_0_compat; [|exact Hsum].
    apply (proj1 (Forall_forall _ _) Hpos p Hp).
  - rewrite sumR_map_div. field. lra.
Qed.

(** X22. For [n >= 1], [generate_1d_T_mat] returns an n-by-n matrix whose
    entries are finite and not negative; column [j] is the normalized row
    of Gaussian weights centred at [j], and in exact arithmetic (an
    exponential that neither rounds nor underflows) it sums to 1. *)
Theorem generate_1d_T_mat_columns (n : Z) :
  (1 <= n)%Z ->
  let N := Z.to_nat n in
  exists M,
    generate_1d_T_mat n = Ret M /\
    length M = N /\
    Forall (fun row => length row = N) M /\
    (forall j, (j < N)%nat ->
       column j M = normalize (map Fin (filter_row N j)) /\
       xsum (column j M) = Fin 1) /\
    (forall i j, (i < N)%nat -> (j < N)%nat ->
       exists p, nth i (column j M) (Fin 0) = Fin p /\ 0 <= p).
Proof.
  intros Hn N.
  set (rows := fun i => normalize (map Fin (filter_row N i))).
  assert (Hlen : forall i, length (rows i) = N).
  { intros i. unfold rows, normalize, filter_row.
    rewrite !length_map, length_seq. reflexivity. }
  assert (HN : (1 <= N)%nat) by (unfold N; lia).
  assert (Hrow : forall i, exists qs,
             rows i = map Fin qs /\ length qs = N /\
             Forall (fun q => 0 < q) qs /\ sumR qs = 1).
  { intros i. destruct (normalize_positive (filter_row N i))
      as (qs & Hqs & Hl & Hp & Hs).
    - unfold filter_row. destruct N; [lia | discriminate].
    - apply filter_row_positive.
    - exists qs. repeat split; auto.
      rewrite Hl. unfold filter_row. rewrite length_map, length_seq.
      reflexivity. }
  exists (transpose N (map rows (seq 0 N))).
  assert (Hcol : forall j, (j < N)%nat ->
            column j (transpose N (map rows (seq 0 N))) = rows j).
  { intros j Hj. apply column_transpose; [exact Hj | exact Hlen]. }
  split; [|split; [|split; [|split]]].
  - unfold generate_1d_T_mat.
    destruct (n <? 0)%Z eqn:Hneg; [apply Z.ltb_lt in Hneg; lia|].
    cbv zeta. fold N. unfold zeros.
    pose proof (generate_1d_loop n N ltac:(lia) []
                  (repeat (repeat (Fin 0) N) N) (repeat_length _ _)) as Hloop.
    cbn [length app] in Hloop. fold N in Hloop. rewrite Hloop.
    reflexivity.
  - unfold transpose. rewrite length_map, length_seq. reflexivity.
  - unfold transpose. apply Forall_forall. intros row Hin.
    apply in_map_iff in Hin. destruct Hin as (j & <- & _).
    rewrite !length_map, length_seq. reflexivity.
  - intros j Hj. rewrite (Hcol j Hj). split; [reflexivity|].
    destruct (Hrow j) as (qs & -> & _ & _ & Hs).
    rewrite xsum_Fin, Hs. reflexivity.
  - intros i j Hi Hj. rewrite (Hcol j Hj).
    destruct (Hrow j) as (qs & -> & Hl & Hp & _).
    exists (nth i qs 0). split.
    + apply (map_nth Fin).
    + apply Rlt_le. apply (proj1 (Forall_forall _ _) Hp (nth i qs 0)).
      apply nth_In. lia.
Qed.

Lemma generate_1d_T_mat_columns_witness :
  exists M,
    generate_1d_T_mat 3 = Ret M /\
    length M = Z.to_nat 3 /\
    Forall (fun row => length row = Z.to_nat 3) M /\
    (forall j, (j < Z.to_nat 3)%nat ->
       column j M = normalize (map Fin (filter_row (Z.to_nat 3) j)) /\
       xsum (column j M) = Fin 1) /\
    (forall i j, (i < Z.to_nat 3)%nat -> (j < Z.to_nat 3)%nat ->
       exists p, nth i (column j M) (Fin 0) = Fin p /\ 0 <= p).
Proof.
  apply (generate_1d_T_mat_columns 3). lia.
Defined.

(** X23. [gaussian_1d_filter] indexes its array of [maxX - minX] entries
    with the coordinates themselves: called with a non-empty range that
    starts at [minX >= 1] (and [sigma <> 0]) it runs past the end of the
    array and fails with [IndexError]. *)
Theorem gaussian_1d_filter_offset (muX minX maxX sigma : Z) :
  (1 <= minX < maxX)%Z ->
  sigma <> 0%Z ->
  gaussian_1d_filter muX minX maxX sigma = Raise IndexError.
Proof.
  intros Hrange Hsigma. unfold gaussian_1d_filter, py_range.
  destruct (maxX - minX <? 0)%Z eqn:Hneg; [apply Z.ltb_lt in Hneg; lia|].
  cbv zeta. set (m := Z.to_nat (maxX - minX)).
  assert (Hloop : forall cnt k0 (F : vec),
            length F = m -> (k0 + cnt = m)%nat -> (1 <= cnt)%nat ->
            foldM (gaussian_1d_cell muX sigma)
                  (map (fun k => (minX + Z.of_nat k)%Z) (seq k0 cnt)) F
            = Raise IndexError).
  { induction cnt as [|cnt IH]; intros k0 F HF Hk Hcnt; [lia|].
    cbn [seq map foldM]. unfold gaussian_1d_cell at 1. unfold gaussian_1d.
    destruct (sigma =? 0)%Z eqn:Hs; [apply Z.eqb_eq in Hs; contradiction|].
    cbn [Py.bind]. unfold py_index. rewrite HF.
    replace (0 <=? minX + Z.of_nat k0)%Z with true
      by (symmetry; apply Z.leb_le; lia).
    replace (minX + Z.of_nat k0 <? 0)%Z with false
      by (symmetry; apply Z.ltb_ge; lia).
    cbn [andb].
    destruct (minX + Z.of_nat k0 <? Z.of_nat m)%Z eqn:Hin; [|reflexivity].
    apply Z.ltb_lt in Hin. cbn [Py.bind].
    apply IH; [rewrite setitem_length; exact HF | lia | lia]. }
  apply Hloop; [apply repeat_length | lia | unfold m; lia].
Qed.

Lemma gaussian_1d_filter_offset_witness :
  gaussian_1d_filter 0 1 3 1 = Raise IndexError.
Proof.
  apply (gaussian_1d_filter_offset 0 1 3 1); lia.
Defined.

(** ** The two-dimensional Gaussian matrix *)

Lemma gaussian_2d_value (muX muY x y : Z) :
  gaussian_2d muX muY 1 x y = Ret (Fin (density_2d muX muY x y)).
Proof. reflexivity. Qed.

Lemma density_2d_pos (muX muY x y : Z) : 0 < density_2d muX muY x y.
Proof.
  unfold density_2d. apply Rmult_lt_0_compat; [|apply exp_pos].
  apply Rdiv_lt_0_compat; [lra|].
  pose proof PI_RGT_0. change (1 ^ 2)%Z with 1%Z. lra.
Qed.

Lemma fill_cols_spec (muX muY : Z) (a : nat) (m : nat) :
  forall pre rest,
    length rest = m ->
    fill_cols muX muY a (pre ++ rest) (length pre) m
    = pre ++ map (fun j => Fin (density_2d muX muY (Z.of_nat a) (Z.of_nat j)))
                 (seq (length pre) m).
Proof.
  unfold fill_cols. induction m as [|m IH]; intros pre rest Hrest.
  - destruct rest; [|discriminate]. reflexivity.
  - destruct rest as [|y rest]; [discriminate|].
    cbn [seq fold_left map]. rewrite setitem_middle.
    assert (Hsplit : forall (x : xreal) (tl : vec),
              pre ++ x :: tl = (pre ++ [x]) ++ tl)
      by (intros; rewrite <- app_assoc; reflexivity).
    rewrite Hsplit.
    match goal with
    | |- fold_left _ _ ((pre ++ [?x]) ++ rest) = _ =>
        replace (S (length pre)) with (length (pre ++ [x]))
          by (rewrite length_app; cbn; lia)
    end.
    rewrite IH by (cbn in Hrest; lia).
    rewrite <- app_assoc. reflexivity.
Qed.

(** The inner loop over [j] on row [a] of the layer. *)
Lemma gaussian_2d_row (muX muY : Z) (a : nat) (m : nat) :
  forall k (F : matrix),
    (a < length F)%nat ->
    (k + m <= length (nth a F []))%nat ->
    foldM (gaussian_2d_cell muX muY 1 (Z.of_nat a))
          (map (fun j => (0 + Z.of_nat j)%Z) (seq k m)) F
    = Ret (setitem F a (fill_cols muX muY a (nth a F []) k m)).
Proof.
  induction m as [|m IH]; intros k F Ha Hlen.
  - cbn [seq map foldM]. unfold fill_cols. cbn [seq fold_left].
    rewrite setitem_nth_same. reflexivity.
  - cbn [seq map foldM]. unfold gaussian_2d_cell at 1.
    rewrite gaussian_2d_value. cbn [Py.bind Z.add].
    rewrite (py_index_nat _ a Ha). cbn [Py.bind]. cbv zeta.
    rewrite py_index_nat by lia. cbn [Py.bind].
    rewrite IH by (rewrite ?setitem_length, ?nth_setitem_same,
                     ?setitem_length; lia).
    rewrite nth_setitem_same by exact Ha.
    rewrite setitem_setitem. reflexivity.
Qed.

Lemma gaussian_2d_rows (muX muY : Z) (W : nat) (m : nat) :
  forall pre rest,
    length rest = m ->
    Forall (fun r => length r = W) rest ->
    foldM (fun F i => foldM (gaussian_2d_cell muX muY 1 i)
                            (map (fun j => (0 + Z.of_nat j)%Z) (seq 0 W)) F)
          (map (fun a => (0 + Z.of_nat a)%Z) (seq (length pre) m))
          (pre ++ rest)
    = Ret (pre ++ map (fun a =>
                         map (fun j => Fin (density_2d muX muY (Z.of_nat a)
                                                       (Z.of_nat j)))
                             (seq 0 W))
                      (seq (length pre) m)).
Proof.
  induction m as [|m IH]; intros pre rest Hrest Hrows.
  - destruct rest; [|discriminate]. reflexivity.
  - destruct rest as [|y rest]; [discriminate|].
    inversion Hrows as [|? ? Hy Hrows' [Heq1 Heq2]].
    cbn [seq map foldM Z.add].
    rewrite gaussian_2d_row
      by (rewrite ?length_app, ?nth_middle; cbn; lia).
    cbn [Py.bind]. rewrite nth_middle, setitem_middle.
    pose proof (fill_cols_spec muX muY (length pre) W [] y Hy) as Hfill.
    cbn [length app] in Hfill. rewrite Hfill.
    assert (Hsplit : forall (x : vec) (tl : matrix),
              pre ++ x :: tl = (pre ++ [x]) ++ tl)
      by (intros; rewrite <- app_assoc; reflexivity).
    rewrite Hsplit.
    match goal with
    | |- foldM _ _ ((pre ++ [?x]) ++ rest) = _ =>
        replace (S (length pre)) with (length (pre ++ [x]))
          by (rewrite length_app; cbn; lia)
    end.
    rewrite IH by (try exact Hrows'; cbn in Hrest; lia).
    rewrite <- app_assoc. reflexivity.
Qed.

(** The filter called on the square [0, n) x [0, n) fills the layer. *)
Lemma gaussian_2d_filter_value (i : nat) (n : Z) :
  (0 <= n)%Z ->
  gaussian_2d_filter (Z.of_nat i) (Z.of_nat i) 0 0 n n 1
  = Ret (map (map Fin) (layer (Z.to_nat n) i)).
Proof.
  intros Hn. unfold gaussian_2d_filter, py_range. rewrite Z.sub_0_r.
  destruct (n <? 0)%Z eqn:Hneg; [apply Z.ltb_lt in Hneg; lia|].
  cbn [orb]. cbv zeta. set (N := Z.to_nat n).
  pose proof (gaussian_2d_rows (Z.of_nat i) (Z.of_nat i) N N []
                (repeat (repeat (Fin 0) N) N) (repeat_length _ _)) as Hloop.
  cbn [length app] in Hloop. rewrite Hloop.
  - unfold layer. rewrite map_map. f_equal. apply map_ext. intros a.
    rewrite map_map. reflexivity.
  - apply Forall_forall. intros r Hr. apply repeat_spec in Hr. subst r.
    apply repeat_length.
Qed.

Lemma layer_positive (N i : nat) :
  length (map (map Fin) (layer N i)) = N /\
  Forall (positive_vec N) (map (map Fin) (layer N i)).
Proof.
  unfold layer. split; [rewrite !length_map, length_seq; reflexivity|].
  apply Forall_forall. intros row Hrow. apply in_map_iff in Hrow.
  destruct Hrow as (r & <- & Hr). apply in_map_iff in Hr.
  destruct Hr as (a & <- & _). eexists. split; [reflexivity|]. split.
  - rewrite length_map, length_seq. reflexivity.
  - apply Forall_forall. intros p Hp. apply in_map_iff in Hp.
    destruct Hp as (b & <- & _). apply density_2d_pos.
Qed.

Lemma zip_Rplus_positive (xs ys : list R) :
  length xs = length ys ->
  Forall (fun x => 0 <= x) xs -> Forall (fun y => 0 < y) ys ->
  Forall (fun z => 0 < z) (zip_with Rplus xs ys).
Proof.
  revert ys. induction xs as [|x xs IH]; intros [|y ys] Hlen Hx Hy;
    cbn [zip_with]; try constructor; cbn in Hlen; try lia.
  - inversion Hx; inversion Hy; subst. lra.
  - inversion Hx; inversion Hy; subst. apply IH; auto.
Qed.

Lemma vadd_nonneg_positive (S : nat) (u v : vec) :
  nonneg_vec S u -> positive_vec S v -> positive_vec S (vadd u v).
Proof.
  intros (xs & -> & Hlx & Hx) (ys & -> & Hly & Hy).
  exists (zip_with Rplus xs ys). split; [apply zip_xadd_Fin|]. split.
  - rewrite zip_with_length; lia.
  - apply zip_Rplus_positive; auto. lia.
Qed.

Lemma positive_nonneg (S : nat) (v : vec) : positive_vec S v -> nonneg_vec S v.
Proof.
  intros (ys & Hv & Hl & Hp). exists ys. repeat split; auto.
  eapply Forall_impl; [|exact Hp]. cbn. intros; lra.
Qed.

Lemma madd_positive (S : nat) (A : matrix) :
  forall B : matrix,
    length A = length B ->
    Forall (nonneg_vec S) A -> Forall (positive_vec S) B ->
    length (madd A B) = length A /\ Forall (positive_vec S) (madd A B).
Proof.
  unfold madd. induction A as [|u A IH]; intros [|v B] Hlen HA HB;
    cbn in Hlen; try lia; cbn [zip_with length].
  - split; [reflexivity | constructor].
  - inversion HA; inversion HB; subst.
    destruct (IH B) as [Hl Hp]; auto.
    split; [lia|]. constructor; [|exact Hp].
    apply vadd_nonneg_positive; assumption.
Qed.

(** Summing the layers keeps a finite N-by-N matrix and makes every entry
    positive as soon as one layer is added. *)
Lemma layer_sum_loop (n : Z) (m : nat) :
  (0 <= n)%Z ->
  forall k (T : matrix),
    length T = Z.to_nat n ->
    Forall (nonneg_vec (Z.to_nat n)) T ->
    exists T' : matrix,
      foldM (fun T i =>
               layer <- gaussian_2d_filter (Z.of_nat i) (Z.of_nat i)
                                           0 0 n n 1 ;;
               Ret (madd T layer))
            (seq k m) T
      = Ret T' /\
      length T' = Z.to_nat n /\
      Forall (nonneg_vec (Z.to_nat n)) T' /\
      ((1 <= m)%nat -> Forall (positive_vec (Z.to_nat n)) T').
Proof.
  intros Hn. induction m as [|m IH]; intros k T Hlen Hnn.
  - exists T. cbn [seq foldM]. repeat split; auto. lia.
  - cbn [seq foldM]. rewrite gaussian_2d_filter_value by exact Hn.
    cbn [Py.bind].
    destruct (layer_positive (Z.to_nat n) k) as [Hll Hlp].
    assert (Hsame : length T = length (map (map Fin) (layer (Z.to_nat n) k)))
      by (rewrite Hlen, Hll; reflexivity).
    destruct (madd_positive (Z.to_nat n) T _ Hsame Hnn Hlp) as [Hml Hmp].
    destruct (IH (S k) (madd T (map (map Fin) (layer (Z.to_nat n) k))))
      as (T' & Hcall & Hl' & Hnn' & Hpos').
    + lia.
    + eapply Forall_impl; [|exact Hmp]. apply positive_nonneg.
    + exists T'. repeat split; auto. intros _.
      destruct m as [|m]; [|apply Hpos'; lia].
      cbn [seq foldM] in Hcall. injection Hcall as <-. exact Hmp.
Qed.

Lemma normalize_rows_loop (m : nat) :
  forall (pre rest : matrix),
    length rest = m ->
    fold_left normalize_row (seq (length pre) m) (pre ++ rest)
    = pre ++ map normalize rest.
Proof.
  induction m as [|m IH]; intros pre rest Hrest.
  - destruct rest; [|discriminate]. reflexivity.
  - destruct rest as [|y rest]; [discriminate|].
    cbn [seq fold_left map]. unfold normalize_row at 2.
    rewrite nth_middle, setitem_middle.
    assert (Hsplit : forall (x : vec) (tl : matrix),
              pre ++ x :: tl = (pre ++ [x]) ++ tl)
      by (intros; rewrite <- app_assoc; reflexivity).
    rewrite (Hsplit (normalize y) rest).
    rewrite (Hsplit (normalize y) (map normalize rest)).
    replace (S (length pre)) with (length (pre ++ [normalize y]))
      by (rewrite length_app; cbn; lia).
    apply IH. cbn in Hrest. lia.
Qed.

(** A column of the transposed matrix is the row of that index. *)
Lemma column_transpose_list (N : nat) (M : matrix) (j : nat) :
  length M = N -> (j < N)%nat -> length (nth j M []) = N ->
  column j (transpose N M) = nth j M [].
Proof.
  intros HM Hj Hrow. unfold column, transpose. rewrite map_map.
  transitivity (map (fun i => nth i (nth j M []) (Fin 0)) (seq 0 N)).
  - apply map_ext_in. intros i _.
    assert (Hlen : (j < length (map (fun row => nth i row (Fin 0)) M))%nat)
      by (rewrite length_map; rewrite <- HM in Hj; exact Hj).
    rewrite (nth_indep _ (Fin 0) ((fun row => nth i row (Fin 0)) []) Hlen).
    apply (map_nth (fun row => nth i row (Fin 0))).
  - rewrite <- Hrow at 1. apply map_nth_seq.
Qed.

(** X24. For [n >= 1], [generate_2d_T_mat] returns a matrix of [n] rows
    whose columns each hold [n] finite entries, none negative, that in
    exact arithmetic (an exponential that neither rounds nor underflows)
    sum to 1. *)
Theorem generate_2d_T_mat_columns (n : Z) :
  (1 <= n)%Z ->
  let N := Z.to_nat n in
  exists M,
    generate_2d_T_mat n = Ret M /\
    length M = N /\
    Forall (fun row => length row = N) M /\
    forall j, (j < N)%nat ->
      exists qs,
        column j M = map Fin qs /\ length qs = N /\
        Forall (fun q => 0 <= q) qs /\
        xsum (column j M) = Fin 1.
Proof.
  intros Hn N.
  assert (HN : (1 <= N)%nat) by (unfold N; lia).
  destruct (layer_sum_loop n N ltac:(lia) 0 (zeros N))
    as (T' & Hcall & Hl' & _ & Hpos).
  - unfold zeros. apply repeat_length.
  - unfold zeros. apply Forall_forall. intros r Hr.
    apply repeat_spec in Hr. subst r. exists (repeat 0 N).
    split; [rewrite map_repeat; reflexivity|].
    split; [apply repeat_length|].
    apply Forall_forall. intros y Hy. apply repeat_spec in Hy. lra.
  - specialize (Hpos HN). fold N in Hl', Hpos.
    exists (transpose N (map normalize T')).
    split; [|split; [|split]].
    + unfold generate_2d_T_mat.
      destruct (n <? 0)%Z eqn:Hneg; [apply Z.ltb_lt in Hneg; lia|].
      cbv zeta. fold N. rewrite Hcall. cbn [Py.bind].
      pose proof (normalize_rows_loop N [] T' Hl') as Hloop.
      cbn [length app] in Hloop. rewrite Hloop. reflexivity.
    + unfold transpose. rewrite length_map, length_seq. reflexivity.
    + unfold transpose. apply Forall_forall. intros row Hin.
      apply in_map_iff in Hin. destruct Hin as (j & <- & _).
      rewrite !length_map. exact Hl'.
    + intros j Hj.
      assert (Hrowj : nth j (map normalize T') [] = normalize (nth j T' [])).
      { change (@nil xreal) with (normalize []) at 1. apply map_nth. }
      assert (Hpj : positive_vec N (nth j T' [])).
      { apply (proj1 (Forall_forall _ _) Hpos). apply nth_In. lia. }
      destruct Hpj as (ps & Hps & Hlps & Hpps).
      destruct (normalize_positive ps) as (qs & Hqs & Hlq & Hpq & Hsq).
      * intros ->. cbn in Hlps. lia.
      * exact Hpps.
      * rewrite column_transpose_list.
        -- rewrite Hrowj, Hps, Hqs. exists qs.
           split; [reflexivity|]. split; [lia|]. split.
           ++ eapply Forall_impl; [|exact Hpq]. intros q Hq. apply Rlt_le.
              exact Hq.
           ++ rewrite xsum_Fin, Hsq. reflexivity.
        -- rewrite length_map. exact Hl'.
        -- exact Hj.
        -- rewrite Hrowj, Hps, Hqs, length_map. lia.
Qed.

Lemma generate_2d_T_mat_columns_witness :
  exists M,
    generate_2d_T_mat 2 = Ret M /\
    length M = Z.to_nat 2 /\
    Forall (fun row => length row = Z.to_nat 2) M /\
    forall j, (j < Z.to_nat 2)%nat ->
      exists qs,
        column j M = map Fin qs /\ length qs = Z.to_nat 2 /\
        Forall (fun q => 0 <= q) qs /\
        xsum (column j M) = Fin 1.
Proof.
  apply (generate_2d_T_mat_columns 2). lia.
Defined.

(** ** [smart_sampling]: log-weights up to a constant per row *)

Lemma shift_rows_length (cs : list R) (ls : list vec) :
  length cs = length ls -> length (shift_rows cs ls) = length ls.
Proof.
  intros Hlen. unfold shift_rows. rewrite <- Hlen.
  apply zip_with_length. exact Hlen.
Qed.

Lemma mapM_softmax_shift (rows : list (list R)) :
  forall cs,
    length cs = length rows ->
    mapM softmax_row (shift_rows cs (map (map Fin) rows))
    = mapM softmax_row (map (map Fin) rows).
Proof.
  induction rows as [|xs rows IH]; intros [|c cs] Hlen; try discriminate Hlen;
    [reflexivity|].
  cbn [map shift_rows zip_with mapM].
  fold (shift_rows cs (map (map Fin) rows)).
  rewrite IH by (cbn in Hlen; lia).
  rewrite map_map. cbn [xadd]. rewrite <- (map_map (fun x => x + c) Fin).
  rewrite softmax_row_shift. reflexivity.
Qed.

(** X25. [smart_sampling] sees the log-weights of a row only up to a
    constant: adding a constant [c_i] to every entry of row [i] of a batch
    of finite rows changes neither the samples nor the draws consumed. *)
Theorem smart_sampling_shift (S : nat) (rows : list (list R)) (cs : list R)
        (draws : nat -> R) (pos : nat) :
  Forall (fun xs => length xs = S) rows ->
  length cs = length rows ->
  smart_sampling (shift_rows cs (map (map Fin) rows)) draws pos
  = smart_sampling (map (map Fin) rows) draws pos.
Proof.
  intros _ Hlen. unfold smart_sampling.
  rewrite mapM_softmax_shift by exact Hlen.
  rewrite shift_rows_length by (rewrite length_map; exact Hlen).
  reflexivity.
Qed.

Lemma smart_sampling_shift_witness :
  smart_sampling (shift_rows [5; -3] (map (map Fin) [[0; -1]; [2; 0]]%R))
                 (fun _ => 1 / 2) 0
  = smart_sampling (map (map Fin) [[0; -1]; [2; 0]]%R) (fun _ => 1 / 2) 0.
Proof.
  apply (smart_sampling_shift 2 [[0; -1]; [2; 0]]%R [5; -3]
           (fun _ => 1 / 2) 0).
  - repeat constructor.
  - reflexivity.
Defined.

(** ** [hmm_forward]: the default tempering *)

(** X26. With the default tempering [1, 1] the first step of the filter
    is the update of every later step, applied to the prior: on an S-by-S
    matrix, a prior of [S] entries and likelihood rows of [S] entries,
    row 0 is [lognormalize (likelihoods[0] + log (T . exp prior))]. *)
Theorem hmm_forward_default_tempering (S : nat) (T : matrix)
        (likelihoods : list vec) (prior : vec) :
  (1 <= S)%nat ->
  shapes S T likelihoods prior ->
  likelihoods <> [] ->
  exists out,
    hmm_forward T likelihoods prior (1, 1) = Ret out /\
    nth 0 out [] = forward_step T (nth 0 likelihoods []) prior /\
    length (nth 0 out []) = S.
Proof.
  intros _ (HT & _ & _ & Hliks).
  destruct likelihoods as [|l0 rest]; [congruence|]. intros _.
  inversion Hliks as [|? ? Hl0 Hrest]; subst.
  assert (Hrow : nth 0 (forward_loop T rest
                   (lognormalize (vadd l0 (vlog (dot T (vexp prior)))))
                   [lognormalize (vadd l0 (vlog (dot T (vexp prior))))]) []
                 = forward_step T l0 prior).
  { destruct (forward_loop_spec T rest
                (lognormalize (vadd l0 (vlog (dot T (vexp prior)))))
                [lognormalize (vadd l0 (vlog (dot T (vexp prior))))])
      as [Hpre _]; [discriminate | reflexivity |].
    rewrite (Hpre 0%nat) by (cbn; lia). reflexivity. }
  eexists. split; [|split].
  - unfold hmm_forward.
    unfold getitem at 1. cbn [nth_error Py.bind].
    unfold getitem at 1. cbn [nth_error Py.bind]. reflexivity.
  - cbn [skipn nth]. rewrite mpow_1, vpow_1. exact Hrow.
  - cbn [skipn nth]. rewrite mpow_1, vpow_1, Hrow.
    apply step_length; [reflexivity | exact Hl0].
Qed.

Lemma hmm_forward_default_tempering_witness :
  exists out,
    hmm_forward T_bias [uniform2; uniform2] uniform2 (1, 1) = Ret out /\
    nth 0 out [] = forward_step T_bias (nth 0 [uniform2; uniform2] []) uniform2 /\
    length (nth 0 out []) = 2%nat.
Proof.
  apply (hmm_forward_default_tempering 2 T_bias [uniform2; uniform2] uniform2).
  - lia.
  - repeat split; repeat constructor.
  - discriminate.
Defined.

(** ** [hmm_forward]: a transition matrix without any weight *)

Lemma zip_with_repeat_r {A B C : Type} (f : A -> B -> C) (xs : list A)
      (b : B) (c : C) :
  (forall x, f x b = c) ->
  zip_with f xs (repeat b (length xs)) = repeat c (length xs).
Proof.
  intros Hf. induction xs as [|x xs IH]; [reflexivity|].
  cbn [length repeat zip_with]. rewrite Hf, IH. reflexivity.
Qed.

Lemma zip_with_repeat_l {A B C : Type} (f : A -> B -> C) (a : A)
      (ys : list B) (c : C) :
  (forall y, In y ys -> f a y = c) ->
  zip_with f (repeat a (length ys)) ys = repeat c (length ys).
Proof.
  induction ys as [|y ys IH]; intros Hf; [reflexivity|].
  cbn [length repeat zip_with].
  rewrite (Hf y) by (left; reflexivity).
  rewrite IH by (intros z Hz; apply Hf; right; exact Hz). reflexivity.
Qed.

Lemma xsum_zero (n : nat) : xsum (repeat (Fin 0) n) = Fin 0.
Proof.
  induction n as [|n IH]; [reflexivity|].
  change (xsum (repeat (Fin 0) (S n)))
    with (xadd (Fin 0) (xsum (repeat (Fin 0) n))).
  rewrite IH. cbn. f_equal. lra.
Qed.

Lemma xsum_nan (n : nat) : xsum (repeat NaN (S n)) = NaN.
Proof. reflexivity. Qed.

Lemma lognormalize_nan (n : nat) :
  lognormalize (repeat NaN (S n)) = repeat NaN (S n).
Proof.
  unfold lognormalize, logaddexp_reduce. cbn [repeat].
  assert (Hfold : forall m, fold_left logaddexp (repeat NaN m) NaN = NaN).
  { induction m as [|m IH]; [reflexivity | exact IH]. }
  rewrite Hfold. cbn [map xsub xopp xadd]. f_equal.
  induction n as [|n IH]; [reflexivity|]. cbn [repeat map xsub xopp xadd].
  rewrite IH. reflexivity.
Qed.

(** The zero matrix sends a finite vector to the zero vector. *)
Lemma dot_zeros_finite (W : nat) (v : vec) :
  finite_vec W v -> dot (zeros W) v = repeat (Fin 0) W.
Proof.
  intros (ys & -> & Hlen). unfold dot, zeros. rewrite map_repeat. f_equal.
  unfold dot_row. rewrite <- Hlen at 1.
  rewrite <- (length_map Fin ys).
  rewrite (zip_with_repeat_l xmul (Fin 0) (map Fin ys) (Fin 0)).
  - apply xsum_zero.
  - intros y Hy. apply in_map_iff in Hy. destruct Hy as (r & <- & _).
    cbn. f_equal. lra.
Qed.

(** The zero matrix sends a vector of not-a-numbers to one. *)
Lemma dot_zeros_nan (W : nat) :
  dot (zeros (S W)) (repeat NaN (S W)) = repeat NaN (S W).
Proof.
  unfold dot, zeros. rewrite map_repeat. reflexivity.
Qed.

Lemma vadd_finite_const (W : nat) (p1 : vec) (b : xreal) :
  finite_vec W p1 -> (b = NegInf \/ b = NaN) ->
  vadd p1 (repeat b W) = repeat b W.
Proof.
  intros (xs & -> & Hlen) Hb. unfold vadd.
  rewrite <- Hlen, <- (length_map Fin xs).
  assert (Hzip : forall l : vec,
            (forall a, In a l -> is_fin a) ->
            zip_with xadd l (repeat b (length l)) = repeat b (length l)).
  { induction l as [|a l IH]; intros Hfin; [reflexivity|].
    cbn [length repeat zip_with]. rewrite IH
      by (intros a' Ha'; apply Hfin; right; exact Ha').
    f_equal. specialize (Hfin a ltac:(left; reflexivity)).
    destruct a; try contradiction. destruct Hb as [->| ->]; reflexivity. }
  apply Hzip. intros a Ha. apply in_map_iff in Ha.
  destruct Ha as (x & <- & _). exact I.
Qed.

Lemma zero_step_nan (W : nat) (p1 : vec) :
  finite_vec (S W) p1 ->
  lognormalize (vadd p1 (vlog (dot (zeros (S W)) (vexp (repeat NaN (S W))))))
  = repeat NaN (S W).
Proof.
  intros Hp1. unfold vexp. rewrite map_repeat. cbn [xexp].
  rewrite dot_zeros_nan. unfold vlog. rewrite map_repeat. cbn [xlog].
  rewrite (vadd_finite_const (S W) p1 NaN Hp1) by (right; reflexivity).
  apply lognormalize_nan.
Qed.

Lemma zero_loop_nan (W : nat) (rest : list vec) :
  Forall (finite_vec (S W)) rest ->
  forall fwd,
    forward_loop (zeros (S W)) rest (repeat NaN (S W)) fwd
    = fwd ++ repeat (repeat NaN (S W)) (length rest).
Proof.
  induction 1 as [|p1 rest Hp1 _ IH]; intros fwd; cbn [forward_loop length].
  - rewrite app_nil_r. reflexivity.
  - rewrite (zero_step_nan W p1 Hp1), IH, <- app_assoc. reflexivity.
Qed.

(** X27. A transition matrix without any weight raises no error: with
    the S-by-S zero matrix ([S >= 1]), a positive transition exponent and
    finite prior and likelihoods, every entry of every filtering row is
    not-a-number. *)
Theorem hmm_forward_zero_matrix (W : nat) (likelihoods : list vec)
        (prior : vec) (alpha beta : R) :
  0 < beta ->
  finite_vec (S W) prior ->
  Forall (finite_vec (S W)) likelihoods ->
  likelihoods <> [] ->
  hmm_forward (zeros (S W)) likelihoods prior (alpha, beta)
  = Ret (repeat (repeat NaN (S W)) (length likelihoods)).
Proof.
  intros Hb Hprior Hlik Hne.
  destruct likelihoods as [|l0 rest]; [congruence|].
  inversion Hlik as [|? ? Hl0 Hrest]; subst.
  unfold hmm_forward.
  unfold getitem at 1. cbn [nth_error Py.bind].
  unfold getitem at 1. cbn [nth_error Py.bind skipn].
  assert (Hmpow : mpow (zeros (S W)) beta = zeros (S W)).
  { unfold mpow, vpow, zeros. rewrite !map_repeat.
    rewrite (xpow_zero beta Hb). reflexivity. }
  rewrite Hmpow.
  assert (Hfirst :
    lognormalize (vadd l0 (vlog (dot (zeros (S W)) (vpow (vexp prior) alpha))))
    = repeat NaN (S W)).
  { destruct (tempered_prior_positive (S W) prior alpha Hprior)
      as (ys & Hys & Hly & _).
    rewrite dot_zeros_finite by (exists ys; auto).
    unfold vlog. rewrite map_repeat, xlog_zero.
    rewrite (vadd_finite_const (S W) l0 NegInf Hl0) by (left; reflexivity).
    apply lognormalize_neginf. }
  rewrite Hfirst, (zero_loop_nan W rest Hrest). reflexivity.
Qed.

Lemma hmm_forward_zero_matrix_witness :
  hmm_forward (zeros 2) [[Fin 0; Fin 0]; [Fin 1; Fin 0]] [Fin 0; Fin 0] (1, 1)
  = Ret (repeat (repeat NaN 2) (length [[Fin 0; Fin 0]; [Fin 1; Fin 0]])).
Proof.
  apply (hmm_forward_zero_matrix 1 [[Fin 0; Fin 0]; [Fin 1; Fin 0]]
           [Fin 0; Fin 0] 1 1).
  - lra.
  - exists [0; 0]. split; reflexivity.
  - repeat constructor; [exists [0; 0] | exists [1; 0]]; split; reflexivity.
  - discriminate.
Defined.

(** ** [generate_T_mat]: the dispatch *)

(** X28. [generate_T_mat] runs the two-dimensional generator for every
    [dim] other than 0 and 1, negative ones included; [dim = 1] runs the
    one-dimensional generator; [dim = 0] passes the first extra argument to
    [generate_0d_T_mat] as the bias and fails with [IndexError] when there
    is none (the default bias is not used). *)
Theorem generate_T_mat_dispatch (n dim : Z) (args : list pynum) :
  (dim = 0%Z ->
   generate_T_mat n dim args
   = match args with
     | [] => Raise IndexError
     | bias :: _ => generate_0d_T_mat n bias
     end) /\
  (dim = 1%Z -> generate_T_mat n dim args = generate_1d_T_mat n) /\
  (dim <> 0%Z -> dim <> 1%Z ->
   generate_T_mat n dim args = generate_2d_T_mat n).
Proof.
  unfold generate_T_mat. split; [|split].
  - intros ->. cbn. destruct args; reflexivity.
  - intros ->. reflexivity.
  - intros H0 H1. destruct (dim >? 2)%Z eqn:Hgt; [reflexivity|].
    destruct (dim =? 0)%Z eqn:Hz; [apply Z.eqb_eq in Hz; contradiction|].
    destruct (dim =? 1)%Z eqn:Ho; [apply Z.eqb_eq in Ho; contradiction|].
    reflexivity.
Qed.
